(** * Tree layout of file paths (src/App.tsx)

    A shallow embedding of [createFileDatas] and of the connector geometry
    of the [File] component, followed by the properties of the tree builder
    and of the layout engine.

    Modelling decisions.
    - JavaScript strings are modelled by [string]; a character stands for
      one code unit, and [a < b] on strings is the lexicographic comparison
      of code units, which is [String.ltb].
    - [FileData] objects live in a heap (a list, indexed by allocation
      order); a reference to an object is its index [loc].  The fields
      [parent] and [children] hold references, so that the sharing of one
      object between the map, the [files] arrays and the [children] arrays
      is kept.
    - [filesMap] is a JavaScript [Map]: an association list in insertion
      order, which is also the order of [filesMap.values()].
    - Numbers: [level] and [seq] hold array indices and counters ([nat]);
      [y] is a sum of multiples of 48 ([Z]); widths, [x] and the column
      table are exact rationals ([Q]).  [undefined] and [NaN] in the column
      table are [None].  The source computes widths, the column table and
      [x] in IEEE doubles: the same lines are also given over the binary64
      primitive floats ([calcLevelOffsetF], [trunkF]), and a property of
      exact differences is stated where the doubles are exact
      ([exactRun]).
    - [measureTextWidth] measures text through the DOM; it is a parameter
      of the model. *)

From Stdlib Require Import Floats.PrimFloat Floats.SpecFloat Floats.FloatOps.
From Stdlib Require Import Ascii String ZArith QArith Qminmax Lqa Lia.
From stdpp Require Import base list strings sorting.

Set Default Proof Using "Type".

(** ** Strings: [split('/')] and [join('/')] *)

Fixpoint split (s : string) : list string :=
  match s with
  | EmptyString => [EmptyString]
  | String c s' =>
      if Ascii.eqb c "/"%char then EmptyString :: split s'
      else match split s' with
           | seg :: segs => String c seg :: segs
           | [] => [String c EmptyString]
           end
  end.

Fixpoint join (segs : list string) : string :=
  match segs with
  | [] => EmptyString
  | [seg] => seg
  | seg :: rest => seg +:+ "/" +:+ join rest
  end.

(** ** Data model *)

Inductive FileType := Unknown | Dir | Js.

#[global] Instance FileType_eq_dec : EqDecision FileType.
Proof. solve_decision. Defined.

Abbreviation loc := nat.

Module FileData.
Record t := mk {
  parent : option loc;
  children : list loc;
  type : FileType;
  path : string;
  base : string;
  level : nat;
  seq : nat;
  x : Q;
  y : Z
}.

(** [d.parent = p] *)
Definition set_parent (p : loc) (d : t) : t :=
  mk (Some p) (children d) (type d) (path d) (base d) (level d) (seq d) (x d) (y d).

(** [d.children.push(c)] *)
Definition push_child (c : loc) (d : t) : t :=
  mk (parent d) (children d ++ [c]) (type d) (path d) (base d) (level d) (seq d) (x d) (y d).

(** [d.seq = n] *)
Definition set_seq (n : nat) (d : t) : t :=
  mk (parent d) (children d) (type d) (path d) (base d) (level d) n (x d) (y d).

(** [d.x = xv; d.y = yv] *)
Definition set_pos (xv : Q) (yv : Z) (d : t) : t :=
  mk (parent d) (children d) (type d) (path d) (base d) (level d) (seq d) xv yv.
End FileData.

Abbreviation FileData := FileData.t.

#[global] Instance FileData_inhabited : Inhabited FileData :=
  populate (FileData.mk None [] Unknown EmptyString EmptyString 0 0 0%Q 0%Z).

#[global] Instance Q_inhabited : Inhabited Q := populate 0%Q.

(** The heap of [FileData] objects and the [Map<string, FileData>]. *)
Record Store := mkStore {
  heap : list FileData;
  filesMap : list (string * loc)
}.

Fixpoint Map_get (m : list (string * loc)) (k : string) : option loc :=
  match m with
  | [] => None
  | (k', v) :: m' => if String.eqb k' k then Some v else Map_get m' k
  end.

Definition Map_has (m : list (string * loc)) (k : string) : bool :=
  match Map_get m k with Some _ => true | None => false end.

Fixpoint Map_set (m : list (string * loc)) (k : string) (v : loc) : list (string * loc) :=
  match m with
  | [] => [(k, v)]
  | (k', v') :: m' =>
      if String.eqb k' k then (k', v) :: m' else (k', v') :: Map_set m' k v
  end.

Definition Map_values (m : list (string * loc)) : list loc := m.*2.

(** ** [Array.prototype.toSorted]

    A stable insertion sort driven by the sign of the comparator.  The
    comparator on children never answers 0; on the sibling groups it is
    applied to (pairwise different names) it is a strict total order, for
    which every comparison sort gives the same result. *)

Fixpoint insertSorted {A} (cmp : A → A → Z) (a : A) (l : list A) : list A :=
  match l with
  | [] => [a]
  | b :: l' => if (cmp a b <=? 0)%Z then a :: l else b :: insertSorted cmp a l'
  end.

Fixpoint toSorted {A} (cmp : A → A → Z) (l : list A) : list A :=
  match l with
  | [] => []
  | a :: l' => insertSorted cmp a (toSorted cmp l')
  end.

(** ** Tree builder (lines 56-96) *)

(** The callback of [paths.map] at [index]: look the prefix up, or create
    the node and register it. *)
Definition mapStep (paths : list string) (s : Store) (index : nat) (base : string)
  : loc * Store :=
  let n := length paths in
  let path := join (take (index + 1) paths) in
  let type := if index =? n - 1 then Js else Dir in
  let '(data, h) :=
    match Map_get (filesMap s) path with
    | Some l => (l, heap s)
    | None =>
        (length (heap s),
         heap s ++ [FileData.mk None [] type path base index 0 0%Q 0%Z])
    end in
  let m := if negb (Map_has (filesMap s) path)
           then Map_set (filesMap s) path data else filesMap s in
  (data, mkStore h m).

Fixpoint mapFrom (paths : list string) (s : Store) (index : nat) (rest : list string)
  : list loc * Store :=
  match rest with
  | [] => ([], s)
  | base :: rest' =>
      let '(data, s1) := mapStep paths s index base in
      let '(files, s2) := mapFrom paths s1 (S index) rest' in
      (data :: files, s2)
  end.

(** The body of the loop [for (let i = 1; i < n; i++)]. *)
Definition linkStep (files : list loc) (h : list FileData) (i : nat) : list FileData :=
  match files !! i, files !! (i - 1) with
  | Some c, Some p =>
      let h1 := alter (FileData.set_parent p) c h in
      if bool_decide (c ∈ FileData.children (h1 !!! p)) then h1
      else alter (FileData.push_child c) p h1
  | _, _ => h
  end.

(** The callback of [filePaths.forEach]. *)
Definition addPath (s : Store) (filePath : string) : Store :=
  let paths := split filePath in
  let n := length paths in
  let '(files, s1) := mapFrom paths s 0 paths in
  mkStore (foldl (linkStep files) (heap s1) (List.seq 1 (n - 1))) (filesMap s1).

Definition buildTree (filePaths : list string) : Store :=
  foldl addPath (mkStore [] []) filePaths.

(** ** Sibling ranks (lines 98-122) *)

Definition cmpChildren (h : list FileData) (a b : loc) : Z :=
  let da := h !!! a in
  let db := h !!! b in
  if bool_decide (FileData.type da ≠ FileData.type db)
     && bool_decide (FileData.type da = Dir) then (-1)%Z
  else if bool_decide (FileData.type da ≠ FileData.type db)
          && bool_decide (FileData.type db = Dir) then 1%Z
  else if String.ltb (FileData.base da) (FileData.base db) then (-1)%Z else 1%Z.

(** The callback [(child, index) => { child.seq = index }]. *)
Definition assignStep (h : list FileData) (ic : nat * loc) : list FileData :=
  alter (FileData.set_seq ic.1) ic.2 h.

(** [sorted.forEach((child, index) => { child.seq = index })] *)
Definition assignSeq (sorted : list loc) (h : list FileData) : list FileData :=
  foldl assignStep h (imap pair sorted).

Definition seqStep (st : nat * list FileData) (f : loc) : nat * list FileData :=
  let '(rootSeq, h) := st in
  let '(rootSeq1, h1) :=
    if FileData.level (h !!! f) =? 0
    then (S rootSeq, alter (FileData.set_seq rootSeq) f h)
    else (rootSeq, h) in
  (rootSeq1, assignSeq (toSorted (cmpChildren h1) (FileData.children (h1 !!! f))) h1).

Definition setSeqs (s : Store) : list FileData :=
  (foldl seqStep (0, heap s) (Map_values (filesMap s))).2.

(** ** Layout engine (lines 124-172) *)

Definition cmpLevel (h : list FileData) (a b : loc) : Z :=
  let da := h !!! a in
  let db := h !!! b in
  if bool_decide (FileData.level da ≠ FileData.level db)
  then (Z.of_nat (FileData.level da) - Z.of_nat (FileData.level db))%Z
  else (Z.of_nat (length (FileData.children db))
        - Z.of_nat (length (FileData.children da)))%Z.

Definition cmpSeq (h : list FileData) (a b : loc) : Z :=
  (Z.of_nat (FileData.seq (h !!! a)) - Z.of_nat (FileData.seq (h !!! b)))%Z.

(** [arr[i]] on an array with holes: [None] is [undefined]. *)
Definition arrayGet (arr : list (option Q)) (i : nat) : option Q :=
  match arr !! i with Some v => v | None => None end.

(** [arr[i] = v]: past the end the array is extended, with holes. *)
Definition arraySet (arr : list (option Q)) (i : nat) (v : Q) : list (option Q) :=
  if i <? length arr then <[i := Some v]> arr
  else arr ++ replicate (i - length arr) None ++ [Some v].

(** [!v]: [undefined], [NaN] and 0 are falsy. *)
Definition falsy (v : option Q) : bool :=
  match v with None => true | Some q => Qeq_bool q 0 end.

(** [v || 0] *)
Definition orZero (v : option Q) : Q :=
  match v with Some q => if Qeq_bool q 0 then 0%Q else q | None => 0%Q end.

(** [arr.pop()] *)
Definition pop {A} (arr : list A) : list A := take (length arr - 1) arr.

(** [Math.max(...l)] for a non-empty [l]. *)
Definition maxOf (l : list Z) : Z :=
  match l with [] => 0%Z | a :: l' => foldl Z.max a l' end.

(** [levelOffset[i] = levelOffset[i - 1] + levelOffset[i]] *)
Definition prefixStep (arr : list Q) (i : nat) : list Q :=
  <[i := Qplus (arr !!! (i - 1)) (arr !!! i)]> arr.

(** [levelOffset[i] = levelOffset[i] + (i + 1) * 60] *)
Definition gapStep (arr : list Q) (i : nat) : list Q :=
  <[i := Qplus (arr !!! i) (inject_Z (Z.of_nat (i + 1)) * 60)%Q]> arr.

(** Lines 139-145, on a table without holes. *)
Definition offsetsOf (widths : list Q) : list Q :=
  let a1 := foldl prefixStep widths (List.seq 1 (length widths - 1)) in
  let a2 := foldl gapStep a1 (List.seq 0 (length a1)) in
  0%Q :: a2.

Inductive PathCmd :=
  | MoveTo (px : Q) (py : Z)
  | LineTo (px : Q) (py : Z).

Record Layout := mkLayout {
  files : list loc;
  objects : list FileData;
  levelOffset : list Q
}.

Section Engine.
Variable measureTextWidth : string → Q.

(** The callback of the [forEach] of lines 133-137. *)
Definition widthStep (h : list FileData) (lo : list (option Q)) (f : loc)
  : list (option Q) :=
  let file := h !!! f in
  if falsy (arrayGet lo (FileData.level file))
     || (0 <? length (FileData.children file))
  then arraySet lo (FileData.level file)
         (Qmax (orZero (arrayGet lo (FileData.level file)))
               (measureTextWidth (FileData.base file) + 40))
  else lo.

(** The column widths, before the last one is dropped. *)
Definition columnWidths (h : list FileData) (values : list loc) : list (option Q) :=
  foldl (widthStep h) [] (toSorted (cmpLevel h) values).

(** The table [levelOffset]; a hole left in the widths would turn the
    running totals into [NaN], which is [None] here. *)
Definition calcLevelOffset (h : list FileData) (values : list loc) : option (list Q) :=
  widths ← mapM id (pop (columnWidths h values));
  Some (offsetsOf widths).

(** The callback [(child) => { lastChild = setFilePos(child, lastChild.y) }]
    of line 154, where [place] is the recursive call. *)
Definition visitChild (place : loc → Z → list FileData → option (loc * list FileData))
    (acc : option (loc * list FileData)) (child : loc)
  : option (loc * list FileData) :=
  '(lastChild, hc) ← acc;
  place child (FileData.y (hc !!! lastChild)) hc.

(** [setFilePos]; [fuel] bounds the depth of the recursion, and a level
    outside [levelOffset] (an [undefined] x) gives [None] too. *)
Fixpoint setFilePos (fuel : nat) (lo : list Q) (fileData : loc) (baseY : Z)
    (h : list FileData) : option (loc * list FileData) :=
  match fuel with
  | 0 => None
  | S fuel' =>
      xv ← lo !! FileData.level (h !!! fileData);
      let yv := (baseY
                 + Z.of_nat (Nat.min 1 (FileData.seq (h !!! fileData))) * (32 + 16))%Z in
      let h1 := alter (FileData.set_pos xv yv) fileData h in
      foldl (visitChild (setFilePos fuel' lo))
            (Some (fileData, h1))
            (toSorted (cmpSeq h1) (FileData.children (h1 !!! fileData)))
  end.

(** The body of the loop over the roots of lines 163-166. *)
Definition visitRoot (fuel : nat) (lo : list Q)
    (acc : option (option loc * list FileData)) (rootFile : loc)
  : option (option loc * list FileData) :=
  '(lastChild, hc) ← acc;
  '(nextLastChild, h') ←
    setFilePos fuel lo rootFile
      (match lastChild with
       | Some l => FileData.y (hc !!! l)
       | None => 0%Z
       end) hc;
  Some (Some nextLastChild, h').

Definition placeRoots (fuel : nat) (lo : list Q) (h : list FileData)
    (values : list loc) : option (option loc * list FileData) :=
  foldl (visitRoot fuel lo) (Some (None, h))
        (toSorted (cmpSeq h)
           (filter (λ f, FileData.level (h !!! f) = 0) values)).

(** [createFileDatas]; each call of [setFilePos] descends one level, so
    that as many calls as [levelOffset] has entries are enough fuel. *)
Definition createFileDatas (filePaths : list string) : option Layout :=
  let s := buildTree filePaths in
  let values := Map_values (filesMap s) in
  let h := setSeqs s in
  lo ← calcLevelOffset h values;
  '(_, h') ← placeRoots (length lo) lo h values;
  Some (mkLayout values h' lo).

(** ** Connector geometry of [File] (lines 210-229) *)
Definition connector (h : list FileData) (data : loc) : list PathCmd :=
  let d := h !!! data in
  let children := FileData.children d in
  if 0 <? length children then
    let x0 := (FileData.x d + measureTextWidth (FileData.base d) + 40 + 5)%Q in
    let y0 := (FileData.y d + 16)%Z in
    let x1 := (FileData.x (h !!! (children !!! 0%nat)) - 5)%Q in
    let y1 := (maxOf (map (λ child, FileData.y (h !!! child)) children) + 16)%Z in
    let mid := ((x0 + x1) / 2)%Q in
    [MoveTo x0 y0; LineTo mid y0; LineTo mid y1]
    ++ flat_map (λ child,
         [MoveTo mid (FileData.y (h !!! child) + 16);
          LineTo x1 (FileData.y (h !!! child) + 16)]) children
  else [].
End Engine.


(** ** Predicates of the specification *)

(** A segment: a string without the delimiter. *)
Fixpoint noSlash (s : string) : Prop :=
  match s with
  | EmptyString => True
  | String c s' => c ≠ "/"%char ∧ noSlash s'
  end.

(** [a] may stand before [b] according to the comparator. *)
Definition cle {A} (cmp : A → A → Z) (a b : A) : Prop := (cmp a b ≤ 0)%Z.

(** The keys an input path gives rise to: its slash-joined prefixes. *)
Definition prefixes (filePath : string) : list string :=
  (λ i, join (take (S i) (split filePath))) <$> List.seq 0 (length (split filePath)).

(** The first input path that has [p] among its prefixes. *)
Definition firstUse (p : string) (filePaths : list string) : option string :=
  head (filter (λ filePath, p ∈ prefixes filePath) filePaths).

(** The kind the first use of [p] gives to its node. *)
Definition kindOf (filePaths : list string) (p : string) : FileType :=
  match firstUse p filePaths with
  | Some filePath => if decide (filePath = p) then Js else Dir
  | None => Unknown
  end.

(** ** Invariants of the tree builder *)

(** The fields fixed when a node is created, and the map; [K] tells which
    keys are present and [T] the kind of the node of a key. *)
Record StaticInv (K : string → Prop) (T : string → FileType) (s : Store) : Prop := {
  inv_keys1 : (filesMap s).*1 = FileData.path <$> heap s;
  inv_keys2 : (filesMap s).*2 = List.seq 0 (length (heap s));
  inv_nodup : NoDup (FileData.path <$> heap s);
  inv_level : ∀ l d, heap s !! l = Some d →
    length (split (FileData.path d)) = S (FileData.level d);
  inv_base : ∀ l d, heap s !! l = Some d →
    last (split (FileData.path d)) = Some (FileData.base d);
  inv_keys : ∀ p, p ∈ FileData.path <$> heap s ↔ K p;
  inv_type : ∀ l d, heap s !! l = Some d → FileData.type d = T (FileData.path d)
}.

(** The links between nodes; [L fp i] tells that the link between the
    prefixes [i - 1] and [i] of [fp] is expected. *)
Record LinkInv (L : string → nat → Prop) (h : list FileData) : Prop := {
  inv_child : ∀ l d c, h !! l = Some d → c ∈ FileData.children d →
    ∃ dc, h !! c = Some dc
          ∧ split (FileData.path dc) = split (FileData.path d) ++ [FileData.base dc];
  inv_children_nodup : ∀ l d, h !! l = Some d → NoDup (FileData.children d);
  inv_parent : ∀ c dc p, h !! c = Some dc → FileData.parent dc = Some p →
    ∃ d, h !! p = Some d ∧ c ∈ FileData.children d;
  inv_linked : ∀ fp i, L fp i →
    ∃ p c dp dc, h !! p = Some dp ∧ h !! c = Some dc
      ∧ FileData.path dp = join (take i (split fp))
      ∧ FileData.path dc = join (take (S i) (split fp))
      ∧ c ∈ FileData.children dp
}.

(** The keys and links that the input paths [fps] ask for. *)
Definition keyOf (fps : list string) (p : string) : Prop :=
  ∃ fp, fp ∈ fps ∧ p ∈ prefixes fp.

Definition linkOf (fps : list string) (fp : string) (i : nat) : Prop :=
  fp ∈ fps ∧ 1 ≤ i < length (split fp).

Record TreeInv (fps : list string) (s : Store) : Prop := {
  tree_static : StaticInv (keyOf fps) (kindOf fps) s;
  tree_links : LinkInv (linkOf fps) (heap s)
}.

(** The fields of a node that the builder never changes after creation. *)
Definition staticOf (d : FileData) : string * string * nat * FileType :=
  (FileData.path d, FileData.base d, FileData.level d, FileData.type d).

(** A node as the builder creates it. *)
Definition childless (d : FileData) : Prop :=
  FileData.children d = [] ∧ FileData.parent d = None.

(** The effect of one turn of the linking loop on the node at [l], where
    [c] is linked below [p] and [cs] are the children [p] had. *)
Definition linkUpd (c p : loc) (cs : list loc) (l : loc) (d : FileData) : FileData :=
  FileData.mk
    (if decide (l = c) then Some p else FileData.parent d)
    (if decide (l = p)
     then (if decide (c ∈ cs) then FileData.children d else FileData.children d ++ [c])
     else FileData.children d)
    (FileData.type d) (FileData.path d) (FileData.base d) (FileData.level d)
    (FileData.seq d) (FileData.x d) (FileData.y d).

(** What the linking loop of one input path relies on: [files] holds the
    nodes of the prefixes of [fp], in order. *)
Definition LinkCtx (fp : string) (files : list loc) (h : list FileData) : Prop :=
  length files = length (split fp)
  ∧ (∀ j l, files !! j = Some l →
       ∃ d, h !! l = Some d ∧ FileData.path d = join (take (S j) (split fp)))
  ∧ (∀ l d, h !! l = Some d →
       last (split (FileData.path d)) = Some (FileData.base d)).

(** The array [files] that the callback computes for [filePath] when the
    store is [s]. *)
Definition filesOf (s : Store) (filePath : string) : list loc :=
  (mapFrom (split filePath) s 0 (split filePath)).1.

(** ** The node graph as a forest *)

(** Links and fixed fields of a node: what neither the ranking nor the
    placement changes. *)
Definition structOf (d : FileData)
  : option loc * list loc * (string * string * nat * FileType) :=
  (FileData.parent d, FileData.children d, staticOf d).

Definition sameStruct (h h' : list FileData) : Prop :=
  length h' = length h ∧ ∀ l, structOf (h' !!! l) = structOf (h !!! l).

Record Forest (h : list FileData) : Prop := {
  fo_child : ∀ l c, l < length h → c ∈ FileData.children (h !!! l) →
    c < length h ∧ FileData.level (h !!! c) = S (FileData.level (h !!! l));
  fo_uniq : ∀ l1 l2 c, l1 < length h → l2 < length h →
    c ∈ FileData.children (h !!! l1) → c ∈ FileData.children (h !!! l2) → l1 = l2;
  fo_nodup : ∀ l, l < length h → NoDup (FileData.children (h !!! l));
  fo_haspar : ∀ c, c < length h → FileData.level (h !!! c) ≠ 0 →
    ∃ p, p < length h ∧ c ∈ FileData.children (h !!! p);
  fo_parent : ∀ c p, c < length h → FileData.parent (h !!! c) = Some p →
    p < length h ∧ c ∈ FileData.children (h !!! p);
  fo_bases : ∀ l c1 c2, l < length h →
    c1 ∈ FileData.children (h !!! l) → c2 ∈ FileData.children (h !!! l) →
    c1 ≠ c2 → FileData.base (h !!! c1) ≠ FileData.base (h !!! c2);
  fo_type : ∀ l, l < length h →
    FileData.type (h !!! l) = Dir ∨ FileData.type (h !!! l) = Js
}.

(** ** Ranks *)

Definition isRoot (h : list FileData) (l : loc) : Prop :=
  FileData.level (h !!! l) = 0.

#[global] Instance isRoot_dec h l : Decision (isRoot h l).
Proof. unfold isRoot. apply _. Defined.

(** The children of [f] in display order, as the ranking loop sorts them. *)
Definition sortedChildren (h : list FileData) (f : loc) : list loc :=
  toSorted (cmpChildren h) (FileData.children (h !!! f)).

(** The state of the ranking loop after the nodes [done], from the heap [h0]. *)
Definition SeqInv (h0 : list FileData) (done : list loc) (st : nat * list FileData) : Prop :=
  sameStruct h0 st.2
  ∧ st.1 = length (filter (isRoot h0) done)
  ∧ (∀ f i c, f ∈ done → sortedChildren h0 f !! i = Some c →
       FileData.seq (st.2 !!! c) = i)
  ∧ (∀ d1 r d2, done = d1 ++ r :: d2 → isRoot h0 r →
       FileData.seq (st.2 !!! r) = length (filter (isRoot h0) d1)).

(** The ranks of a heap: children are ranked by their place in the sorted
    sibling group, roots by their place among the roots of the map. *)
Record Ranked (h : list FileData) : Prop := {
  rk_child : ∀ f i c, f < length h → sortedChildren h f !! i = Some c →
    FileData.seq (h !!! c) = i;
  rk_root : ∀ r, r < length h → isRoot h r →
    FileData.seq (h !!! r) = length (filter (isRoot h) (List.seq 0 r))
}.

(** ** Column widths and offsets *)

Definition isParent (h : list FileData) (l : loc) : Prop :=
  FileData.children (h !!! l) ≠ [].

#[global] Instance isParent_dec h l : Decision (isParent h l).
Proof. unfold isParent. apply _. Defined.

(** The offsets as the specification defines them: [offset[0] = 0] and
    [offset[i] = offset[i-1] + width[i-1] + 60]. *)
Fixpoint offsetsFrom (prev : Q) (widths : list Q) : list Q :=
  match widths with
  | [] => []
  | w :: widths' => (prev + w + 60)%Q :: offsetsFrom (prev + w + 60)%Q widths'
  end.

Definition specOffsets (widths : list Q) : list Q := 0%Q :: offsetsFrom 0%Q widths.

(** Running totals, the outcome of the loop of lines 139-141. *)
Fixpoint runningFrom (acc : Q) (l : list Q) : list Q :=
  match l with
  | [] => []
  | w :: l' => Qplus acc w :: runningFrom (Qplus acc w) l'
  end.

Section WidthInv.
Variable measureTextWidth : string → Q.
Variable h : list FileData.

(** The box width of the label of [l]. *)
Definition boxWidth (l : loc) : Q :=
  (measureTextWidth (FileData.base (h !!! l)) + 40)%Q.

(** The table [lo] after the nodes [done] of the sorted node list. *)
Definition WInv (done : list loc) (lo : list (option Q)) : Prop :=
  (∀ k, k < length lo ↔ ∃ g, g ∈ done ∧ FileData.level (h !!! g) = k)
  ∧ (∀ k, k < length lo → ∃ v, lo !! k = Some (Some v) ∧ (0 <= v)%Q)
  ∧ ((∀ s, (0 <= measureTextWidth s)%Q) →
     ∀ k, (∃ g, g ∈ done ∧ FileData.level (h !!! g) = k ∧ isParent h g) →
       ∃ v, lo !! k = Some (Some v)
         ∧ (∃ g, g ∈ done ∧ FileData.level (h !!! g) = k ∧ isParent h g
                 ∧ (v == boxWidth g)%Q)
         ∧ (∀ g, g ∈ done → FileData.level (h !!! g) = k → isParent h g →
              (boxWidth g <= v)%Q)).
End WidthInv.

(** ** Placement *)

(** What the placement does not change: the structure and the ranks. *)
Definition rankOf (d : FileData) :=
  (structOf d, FileData.seq d).

Definition sameRank (h h' : list FileData) : Prop :=
  length h' = length h ∧ ∀ l, rankOf (h' !!! l) = rankOf (h !!! l).

(** [desc h f d]: the node [d] belongs to the subtree of [f]. *)
Inductive desc (h : list FileData) : loc → loc → Prop :=
  | desc_refl f : desc h f f
  | desc_step f c d :
      c ∈ FileData.children (h !!! f) → desc h c d → desc h f d.

(** The children of [f] in the order in which [setFilePos] visits them. *)
Definition kids (h : list FileData) (f : loc) : list loc :=
  toSorted (cmpSeq h) (FileData.children (h !!! f)).

(** The roots in the order in which they are placed. *)
Definition rootsOf (h : list FileData) (values : list loc) : list loc :=
  toSorted (cmpSeq h) (filter (λ f, FileData.level (h !!! f) = 0) values).

(** The row shift of a node: 0 for a first sibling, one row otherwise. *)
Definition rowShift (h : list FileData) (f : loc) : Z :=
  (Z.of_nat (Nat.min 1 (FileData.seq (h !!! f))) * (32 + 16))%Z.

(** A group of nodes has pairwise different ranks, and rank 0 is taken. *)
Definition goodRanks (h : list FileData) (group : list loc) : Prop :=
  (∀ a b, a ∈ group → b ∈ group →
     FileData.seq (h !!! a) = FileData.seq (h !!! b) → a = b)
  ∧ (group ≠ [] → ∃ z, z ∈ group ∧ FileData.seq (h !!! z) = 0).

(** What [setFilePos] needs of the heap and of the offset table. *)
Record Ready (lo : list Q) (h : list FileData) : Prop := {
  rd_forest : Forest h;
  rd_ranks : ∀ f, f < length h → goodRanks h (FileData.children (h !!! f));
  rd_levels : ∀ g, g < length h → FileData.level (h !!! g) < length lo
}.

(** The node [g] and its children are laid out: the column of [g], the
    rows of the children against the row of [g], and the separation of the
    subtrees of the children. *)
Record Placed (lo : list Q) (h : list FileData) (g : loc) : Prop := {
  pl_x : lo !! FileData.level (h !!! g) = Some (FileData.x (h !!! g));
  pl_below : ∀ c, c ∈ FileData.children (h !!! g) →
    (FileData.y (h !!! g) ≤ FileData.y (h !!! c))%Z;
  pl_first : FileData.children (h !!! g) ≠ [] →
    ∃ c, c ∈ FileData.children (h !!! g)
         ∧ FileData.seq (h !!! c) = 0
         ∧ FileData.y (h !!! c) = FileData.y (h !!! g);
  pl_apart : ∀ c1 c2 d1 d2,
    c1 ∈ FileData.children (h !!! g) → c2 ∈ FileData.children (h !!! g) →
    c1 ≠ c2 → desc h c1 d1 → desc h c2 d2 →
    FileData.y (h !!! d1) ≠ FileData.y (h !!! d2)
}.

(** The outcome of [setFilePos] on [f] from the heap [h]. *)
Record Post (lo : list Q) (h : list FileData) (f : loc) (baseY : Z)
    (last : loc) (h' : list FileData) : Prop := {
  po_rank : sameRank h h';
  po_out : ∀ d, ¬ desc h f d → h' !!! d = h !!! d;
  po_last : desc h f last;
  po_y : FileData.y (h' !!! f) = (baseY + rowShift h f)%Z;
  po_span : ∀ d, desc h f d →
    (FileData.y (h' !!! f) ≤ FileData.y (h' !!! d) ≤ FileData.y (h' !!! last))%Z;
  po_placed : ∀ g, desc h f g → Placed lo h' g
}.

(** The state of the loop over the children of [f] after the children
    [pre]; [yf] is the row of [f]. *)
Record LoopInv (lo : list Q) (h : list FileData) (f : loc) (yf : Z)
    (pre : list loc) (last : loc) (hc : list FileData) : Prop := {
  li_rank : sameRank h hc;
  li_out : ∀ d, ¬ desc h f d → hc !!! d = h !!! d;
  li_last : desc h f last;
  li_last0 : pre = [] → last = f;
  li_y : FileData.y (hc !!! f) = yf;
  li_x : lo !! FileData.level (hc !!! f) = Some (FileData.x (hc !!! f));
  li_span : ∀ d, (d = f ∨ ∃ c, c ∈ pre ∧ desc h c d) →
    (yf ≤ FileData.y (hc !!! d) ≤ FileData.y (hc !!! last))%Z;
  li_placed : ∀ c g, c ∈ pre → desc h c g → Placed lo hc g;
  li_first : pre ≠ [] →
    ∃ c, c ∈ pre ∧ FileData.seq (h !!! c) = 0 ∧ FileData.y (hc !!! c) = yf;
  li_apart : ∀ c1 c2 d1 d2, c1 ∈ pre → c2 ∈ pre → c1 ≠ c2 →
    desc h c1 d1 → desc h c2 d2 →
    FileData.y (hc !!! d1) ≠ FileData.y (hc !!! d2)
}.

(** The state of the loop over the roots after the roots [pre]. *)
Record RootInv (lo : list Q) (h : list FileData)
    (pre : list loc) (lastChild : option loc) (hc : list FileData) : Prop := {
  ri_rank : sameRank h hc;
  ri_out : ∀ d, (∀ r, r ∈ pre → ¬ desc h r d) → hc !!! d = h !!! d;
  ri_none : pre = [] ↔ lastChild = None;
  ri_span : ∀ last r d, lastChild = Some last → r ∈ pre → desc h r d →
    (0 ≤ FileData.y (hc !!! d) ≤ FileData.y (hc !!! last))%Z;
  ri_placed : ∀ r g, r ∈ pre → desc h r g → Placed lo hc g;
  ri_apart : ∀ r1 r2 d1 d2, r1 ∈ pre → r2 ∈ pre → r1 ≠ r2 →
    desc h r1 d1 → desc h r2 d2 →
    FileData.y (hc !!! d1) ≠ FileData.y (hc !!! d2);
  ri_first : ∀ r, head pre = Some r → FileData.y (hc !!! r) = 0%Z
}.

(** ** The outcome of [createFileDatas] *)

(** A monospaced measure, 8 units per character, for the examples. *)
Definition measure8 (s : string) : Q := inject_Z (8 * Z.of_nat (String.length s)).

(** [Math.min(...l)] for a non-empty [l]. *)
Definition minOf (l : list Z) : Z :=
  match l with [] => 0%Z | a :: l' => foldl Z.min a l' end.

(** What holds of the layout [r] computed for the paths [fps]. *)
Record Laid (measureTextWidth : string → Q) (fps : list string) (r : Layout) : Prop := {
  ld_files : files r = List.seq 0 (length (objects r));
  ld_struct : sameStruct (heap (buildTree fps)) (objects r);
  ld_forest : Forest (objects r);
  ld_ranked : Ranked (objects r);
  ld_widths : ∃ ws,
    mapM id (pop (columnWidths measureTextWidth (objects r) (files r))) = Some ws
    ∧ levelOffset r = offsetsOf ws
    ∧ Forall (λ w, (0 <= w)%Q) ws;
  ld_placed : ∀ g, g < length (objects r) → Placed (levelOffset r) (objects r) g;
  ld_ypos : ∀ g, g < length (objects r) → (0 ≤ FileData.y (objects r !!! g))%Z;
  ld_roots : ∀ r1 r2 d1 d2,
    r1 < length (objects r) → r2 < length (objects r) →
    isRoot (objects r) r1 → isRoot (objects r) r2 → r1 ≠ r2 →
    desc (objects r) r1 d1 → desc (objects r) r2 d2 →
    FileData.y (objects r !!! d1) ≠ FileData.y (objects r !!! d2);
  ld_first : ∀ r0, head (rootsOf (objects r) (files r)) = Some r0 →
    FileData.y (objects r !!! r0) = 0%Z
}.

(** ** The claims as the specification words them, where the code differs *)

(** Roots ranked like a sibling group: directories first, then by name. *)
Definition rootsRankedAsSiblings (h : list FileData) : Prop :=
  ∀ r1 r2, r1 < length h → r2 < length h → isRoot h r1 → isRoot h r2 →
    (FileData.type (h !!! r1) = Dir → FileData.type (h !!! r2) = Js →
     FileData.seq (h !!! r1) < FileData.seq (h !!! r2))
    ∧ (FileData.type (h !!! r1) = FileData.type (h !!! r2) →
       String.ltb (FileData.base (h !!! r1)) (FileData.base (h !!! r2)) = true →
       FileData.seq (h !!! r1) < FileData.seq (h !!! r2)).

(** The rows of the children of [f]. *)
Definition childRows (h : list FileData) (f : loc) : list Z :=
  map (λ child, FileData.y (h !!! child)) (FileData.children (h !!! f)).

(** The row of [f] is the middle of the span of the rows of its children. *)
Definition centeredOnChildren (h : list FileData) (f : loc) : Prop :=
  (2 * FileData.y (h !!! f) = minOf (childRows h f) + maxOf (childRows h f))%Z.

(** The node [l] is a leaf exactly when its path is an input path. *)
Definition leafIffInput (fps : list string) (h : list FileData) (l : loc) : Prop :=
  FileData.type (h !!! l) = Js ↔ FileData.path (h !!! l) ∈ fps.

(** Inputs of the examples. *)
Definition scenarioA : list string := ["a/x.js"; "a/y.js"; "b.js"]%string.
Definition leafFirst : list string := ["b.js"; "a/x.js"]%string.
Definition twoLeaves : list string := ["a/x.js"; "a/y.js"]%string.
Definition dirThenLeaf : list string := ["a/b"; "a"]%string.

(** ** Further invariants of the builder *)

(** The [parent] field agrees with the [children] arrays. *)
Definition ParentOK (h : list FileData) : Prop :=
  ∀ p dp c dc, h !! p = Some dp → c ∈ FileData.children dp →
    h !! c = Some dc → FileData.parent dc = Some p.

(** ** The order of the map *)

(** [p] is appended unless it is there already. *)
Definition addOnce (acc : list string) (p : string) : list string :=
  if decide (p ∈ acc) then acc else acc ++ [p].

(** The elements of [l], each once, in the order of their first occurrence. *)
Definition firstOccs (l : list string) : list string := foldl addOnce [] l.

(** The keys of the map are the paths of the nodes, in allocation order. *)
Definition keysOK (s : Store) : Prop :=
  (filesMap s).*1 = FileData.path <$> heap s.

(** ** Rows *)

(** Before the placement every node has the [y] it was created with. *)
Definition atOrigin (d : FileData) : Prop := FileData.y d = 0%Z.

(** Every row lies on the grid of 48 = 32 + 16. *)
Definition onGrid (h : list FileData) : Prop :=
  ∀ l, (48 | FileData.y (h !!! l))%Z.

(** A group of siblings is stacked in rank order: the whole subtree of a
    member lies above every member of higher rank, and a member of rank 1
    or more sits one row below a node of the subtree of a member of lower
    rank. *)
Record StackedGroup (h : list FileData) (group : list loc) : Prop := {
  sg_order : ∀ c1 c2 d1, c1 ∈ group → c2 ∈ group →
    FileData.seq (h !!! c1) < FileData.seq (h !!! c2) → desc h c1 d1 →
    (FileData.y (h !!! d1) < FileData.y (h !!! c2))%Z;
  sg_next : ∀ c, c ∈ group → 1 ≤ FileData.seq (h !!! c) →
    ∃ c0 e, c0 ∈ group ∧ FileData.seq (h !!! c0) < FileData.seq (h !!! c)
            ∧ desc h c0 e
            ∧ FileData.y (h !!! c) = (FileData.y (h !!! e) + 48)%Z
}.

(** The children of [g] are stacked in rank order. *)
Definition Stacked (h : list FileData) (g : loc) : Prop :=
  StackedGroup h (FileData.children (h !!! g)).

(** The [baseY] that the loop over the roots passes on. *)
Definition rootBase (lastChild : option loc) (hc : list FileData) : Z :=
  match lastChild with
  | Some l => FileData.y (hc !!! l)
  | None => 0%Z
  end.

(** The state of a loop over a sorted group after the members [pre], when
    [base] is the [baseY] of the next call. *)
Record GroupRows (h : list FileData) (pre : list loc) (base : Z)
    (hc : list FileData) : Prop := {
  gr_rank : sameRank h hc;
  gr_base : pre ≠ [] →
    ∃ c0 e, c0 ∈ pre ∧ desc h c0 e ∧ FileData.y (hc !!! e) = base;
  gr_ub : ∀ c d, c ∈ pre → desc h c d → (FileData.y (hc !!! d) ≤ base)%Z;
  gr_group : StackedGroup hc pre;
  gr_inner : ∀ c g, c ∈ pre → desc h c g → Stacked hc g
}.

(** Two nodes of one group: children of one node, or both of depth 0. *)
Definition sameGroup (h : list FileData) (a b : loc) : Prop :=
  (∃ f, a ∈ FileData.children (h !!! f) ∧ b ∈ FileData.children (h !!! f))
  ∨ (a < length h ∧ b < length h
     ∧ FileData.level (h !!! a) = 0 ∧ FileData.level (h !!! b) = 0).

(** ** The bounding box of [App] (lines 353-360 and 373) *)

(** The callback [(file) => { x = Math.max(x, file.x); y = Math.max(y, file.y) }]. *)
Definition sizeStep (h : list FileData) (acc : Q * Z) (file : loc) : Q * Z :=
  (Qmax acc.1 (FileData.x (h !!! file)), Z.max acc.2 (FileData.y (h !!! file))).

(** The state [layout]: [width] and [height], from [x = 0] and [y = 0]. *)
Definition layoutSize (r : Layout) : Q * Z :=
  foldl (sizeStep (objects r)) (0%Q, 0%Z) (files r).

(** The attribute [viewBox]: min-x, min-y, width and height. *)
Definition viewBox (size : Q * Z) : Z * Z * Q * Z :=
  ((-20)%Z, (-20)%Z, (size.1 + 100)%Q, (size.2 + 100)%Z).

(** The nodes without children. *)
Definition leaves (r : Layout) : list loc :=
  filter (λ f, FileData.children (objects r !!! f) = []) (files r).

(** ** What the measure does not reach *)

(** A node without its [x]. *)
Definition noX (d : FileData) :=
  (FileData.parent d, FileData.children d, FileData.type d, FileData.path d,
   FileData.base d, FileData.level d, FileData.seq d, FileData.y d).

(** Two heaps that agree on everything but the [x] of the nodes. *)
Definition sameButX (h1 h2 : list FileData) : Prop :=
  length h1 = length h2 ∧ ∀ l, noX (h1 !!! l) = noX (h2 !!! l).

(** ** Growing the input *)

(** The heap [h'] extends [h]: the nodes of [h] keep their place and their
    fixed fields, and their children arrays only grow at the end. *)
Definition extends (h h' : list FileData) : Prop :=
  length h ≤ length h'
  ∧ ∀ l, l < length h →
      staticOf (h' !!! l) = staticOf (h !!! l)
      ∧ FileData.children (h !!! l) `prefix_of` FileData.children (h' !!! l).

(** A measure for the examples that agrees with [measure8] on the name
    ["a"] and gives every other name the width 0. *)
Definition measureA (s : string) : Q :=
  if String.eqb s "a" then inject_Z 8 else 0%Q.

(** ** Where the arithmetic of doubles is exact *)

(** A whole number that is not negative. *)
Definition whole (q : Q) : Prop := ∃ n : Z, (0 ≤ n)%Z ∧ (q == inject_Z n)%Q.

(** A run that stays where doubles compute without rounding: the measured
    widths are whole numbers and the table of offsets stays within 2^52.
    Whole numbers up to 2^53 are doubles; sums and differences of such
    numbers that stay in that range are exact, and so is the half of one. *)
Definition exactRun (m : string → Q) (r : Layout) : Prop :=
  (∀ s, whole (m s))
  ∧ Forall (λ o, (o <= inject_Z (2 ^ 52))%Q) (levelOffset r).

(** ** The arithmetic in doubles (lines 133-148 and 211-217)

    The widths, the table of offsets and [x] are doubles in the source.
    The primitive floats are the binary64 numbers, with every operation
    rounded to nearest, ties to even, as the numbers of JavaScript are.
    The definitions below are those of the engine above, with doubles in
    the place of rationals; they run on the heap the builder and the
    ranking loop leave. *)

#[global] Instance float_inhabited : Inhabited float := populate 0%float.

(** The rational that a finite double stands for. *)
Definition valueOf (f : float) : Q :=
  match Prim2SF f with
  | S754_finite s mant e =>
      let v := (inject_Z (Zpos mant) * Qpower 2 e)%Q in
      if s then Qopp v else v
  | _ => 0%Q
  end.

(** The integer [n] as a double. *)
Fixpoint natF (n : nat) : float :=
  match n with
  | 0 => 0%float
  | S k => (natF k + 1)%float
  end.

Definition arrayGetF (arr : list (option float)) (i : nat) : option float :=
  match arr !! i with Some v => v | None => None end.

Definition arraySetF (arr : list (option float)) (i : nat) (v : float)
  : list (option float) :=
  if i <? length arr then <[i := Some v]> arr
  else arr ++ replicate (i - length arr) None ++ [Some v].

(** [!v]: [undefined], [NaN] and the zeros are falsy. *)
Definition falsyF (v : option float) : bool :=
  match v with None => true | Some q => is_nan q || is_zero q end.

(** [v || 0] *)
Definition orZeroF (v : option float) : float :=
  match v with
  | Some q => if is_nan q || is_zero q then 0%float else q
  | None => 0%float
  end.

(** [Math.max(a, b)] *)
Definition maxF (a b : float) : float :=
  if is_nan a || is_nan b then nan
  else if (a <? b)%float then b else a.

(** [levelOffset[i] = levelOffset[i - 1] + levelOffset[i]] *)
Definition prefixStepF (arr : list float) (i : nat) : list float :=
  <[i := (arr !!! (i - 1)%nat + arr !!! i)%float]> arr.

(** [levelOffset[i] = levelOffset[i] + (i + 1) * 60] *)
Definition gapStepF (arr : list float) (i : nat) : list float :=
  <[i := (arr !!! i + natF (i + 1)%nat * 60)%float]> arr.

(** Lines 139-145 in doubles. *)
Definition offsetsOfF (widths : list float) : list float :=
  let a1 := foldl prefixStepF widths (List.seq 1 (length widths - 1)) in
  let a2 := foldl gapStepF a1 (List.seq 0 (length a1)) in
  0%float :: a2.



Section EngineF.
Variable measureTextWidth : string → float.

(** The callback of the [forEach] of lines 133-137. *)
Definition widthStepF (h : list FileData) (lo : list (option float)) (f : loc)
  : list (option float) :=
  let file := h !!! f in
  if falsyF (arrayGetF lo (FileData.level file))
     || (0 <? length (FileData.children file))
  then arraySetF lo (FileData.level file)
         (maxF (orZeroF (arrayGetF lo (FileData.level file)))
               (measureTextWidth (FileData.base file) + 40)%float)
  else lo.

Definition columnWidthsF (h : list FileData) (values : list loc)
  : list (option float) :=
  foldl (widthStepF h) [] (toSorted (cmpLevel h) values).

(** Lines 124-145. *)
Definition calcLevelOffsetF (h : list FileData) (values : list loc)
  : option (list float) :=
  widths ← mapM id (pop (columnWidthsF h values));
  Some (offsetsOfF widths).

End EngineF.

(** Inputs and measures of the examples in doubles: a chain of three
    nodes, with the names ["a"] and ["b"] measured as 0.1 and 0.3, or with
    ["a"] measured as 2^60. *)
Definition chain3 : list string := ["a/b/c"]%string.



(** [measure8] in doubles. *)
Definition measure8F (s : string) : float := natF (8 * String.length s).

(** * Strings *)

Lemma split_nonempty s : split s ≠ [].
Proof.
  destruct s as [|c s]; simpl; [done|].
  destruct (Ascii.eqb c "/"); [done|]. by destruct (split s).
Qed.

Lemma split_noSlash s : Forall noSlash (split s).
Proof.
  induction s as [|c s IH]; simpl.
  - by repeat constructor.
  - destruct (Ascii.eqb_spec c "/") as [->|Hc].
    + by constructor.
    + destruct (split s) as [|seg segs]; [by repeat constructor|].
      inversion_clear IH. by repeat constructor.
Qed.

Lemma join_cons seg seg' rest :
  join (seg :: seg' :: rest) = seg +:+ String "/" (join (seg' :: rest)).
Proof. done. Qed.

Lemma join_split s : join (split s) = s.
Proof.
  induction s as [|c s IH]; [done|]. simpl.
  destruct (Ascii.eqb_spec c "/") as [->|Hc].
  - pose proof (split_nonempty s) as Hne.
    destruct (split s) as [|seg segs]; [done|].
    rewrite join_cons, IH. done.
  - pose proof (split_nonempty s) as Hne.
    destruct (split s) as [|seg segs]; [done|].
    rewrite <-IH. by destruct segs.
Qed.

Lemma split_single s : noSlash s → split s = [s].
Proof.
  induction s as [|c s IH]; [done|]. simpl. intros [Hc Hs].
  destruct (Ascii.eqb_spec c "/") as [->|_]; [done|]. by rewrite IH.
Qed.

Lemma split_app_slash seg t :
  noSlash seg → split (seg +:+ String "/" t) = seg :: split t.
Proof.
  induction seg as [|c seg IH]; simpl.
  - done.
  - intros [Hc Hs]. destruct (Ascii.eqb_spec c "/") as [->|_]; [done|].
    by rewrite IH.
Qed.

Lemma split_join segs :
  segs ≠ [] → Forall noSlash segs → split (join segs) = segs.
Proof.
  induction segs as [|seg rest IH]; [done|]. intros _ Hall.
  inversion_clear Hall as [|? ? Hseg Hrest].
  destruct rest as [|seg' rest].
  - by apply split_single.
  - rewrite join_cons, split_app_slash by done. f_equal. by apply IH.
Qed.

Lemma join_inj l1 l2 :
  l1 ≠ [] → l2 ≠ [] → Forall noSlash l1 → Forall noSlash l2 →
  join l1 = join l2 → l1 = l2.
Proof.
  intros ? ? ? ? Heq. rewrite <-(split_join l1), <-(split_join l2) by done.
  by rewrite Heq.
Qed.

Lemma split_inj s1 s2 : split s1 = split s2 → s1 = s2.
Proof. intros Heq. by rewrite <-(join_split s1), <-(join_split s2), Heq. Qed.

(** The prefixes of a split path are lists of segments again. *)
Lemma take_split_ok s i :
  take (S i) (split s) ≠ [] ∧ Forall noSlash (take (S i) (split s)).
Proof.
  split.
  - pose proof (split_nonempty s). by destruct (split s).
  - apply Forall_take, split_noSlash.
Qed.

Lemma split_join_take s i :
  split (join (take (S i) (split s))) = take (S i) (split s).
Proof. destruct (take_split_ok s i). by apply split_join. Qed.

(** * Sorting *)

Section Sorting.
Context {A : Type} (cmp : A → A → Z).

Lemma insertSorted_perm a l : insertSorted cmp a l ≡ₚ a :: l.
Proof.
  induction l as [|b l IH]; simpl; [done|].
  destruct (cmp a b <=? 0)%Z; [done|]. rewrite IH. apply Permutation_swap.
Qed.

Lemma toSorted_perm l : toSorted cmp l ≡ₚ l.
Proof.
  induction l as [|a l IH]; simpl; [done|].
  by rewrite insertSorted_perm, IH.
Qed.

Lemma toSorted_elem_of a l : a ∈ toSorted cmp l ↔ a ∈ l.
Proof. by rewrite toSorted_perm. Qed.

Lemma toSorted_length l : length (toSorted cmp l) = length l.
Proof. by rewrite toSorted_perm. Qed.

Lemma toSorted_NoDup l : NoDup l → NoDup (toSorted cmp l).
Proof. by rewrite toSorted_perm. Qed.

Lemma insertSorted_sorted a l :
  (∀ b, b ∈ l → (0 < cmp a b)%Z → cle cmp b a) →
  (∀ b c, b ∈ l → c ∈ l → cle cmp a b → cle cmp b c → cle cmp a c) →
  StronglySorted (cle cmp) l →
  StronglySorted (cle cmp) (insertSorted cmp a l).
Proof.
  intros Htot Htrans Hs. induction Hs as [|b l Hs IH Hb]; simpl.
  - by repeat constructor.
  - destruct (Z.leb_spec (cmp a b) 0) as [Hle|Hgt].
    + constructor; [by constructor|]. constructor; [done|].
      rewrite Forall_forall in Hb. apply Forall_forall. intros c Hc.
      apply (Htrans b c); [left|right|done|by apply Hb]; done.
    + constructor.
      * apply IH.
        -- intros c Hc. apply Htot. by right.
        -- intros c d Hc Hd. apply Htrans; by right.
      * apply Forall_forall. intros c Hc.
        rewrite insertSorted_perm in Hc. apply elem_of_cons in Hc as [->|Hc].
        -- apply Htot; [by left|done].
        -- rewrite Forall_forall in Hb. by apply Hb.
Qed.

Lemma toSorted_sorted l :
  NoDup l →
  (∀ a b, a ∈ l → b ∈ l → a ≠ b → (0 < cmp a b)%Z → cle cmp b a) →
  (∀ a b c, a ∈ l → b ∈ l → c ∈ l → cle cmp a b → cle cmp b c → cle cmp a c) →
  StronglySorted (cle cmp) (toSorted cmp l).
Proof.
  induction 1 as [|a l Hnotin Hnd IH]; intros Htot Htrans; simpl.
  - constructor.
  - apply insertSorted_sorted.
    + intros b Hb. rewrite toSorted_elem_of in Hb.
      apply Htot; [by left|by right|by intros ->].
    + intros b c Hb Hc. rewrite toSorted_elem_of in Hb, Hc.
      apply Htrans; [by left|by right|by right].
    + apply IH.
      * intros b c Hb Hc. apply Htot; by right.
      * intros b c d Hb Hc Hd. apply Htrans; by right.
Qed.
End Sorting.

(** * The map *)

Lemma Map_get_Some_elem m k v : Map_get m k = Some v → (k, v) ∈ m.
Proof.
  induction m as [|[k' v'] m IH]; simpl; [done|].
  destruct (String.eqb_spec k' k) as [->|Hne].
  - intros [= ->]. by left.
  - intros. right. auto.
Qed.

Lemma Map_get_None m k : Map_get m k = None ↔ k ∉ m.*1.
Proof.
  induction m as [|[k' v'] m IH]; simpl.
  - split; [intros _; apply not_elem_of_nil|done].
  - rewrite not_elem_of_cons. destruct (String.eqb_spec k' k) as [->|Hne].
    + split; [done|]. by intros [? _].
    + rewrite IH. split; [|by intros [_ ?]]. intros. split; [congruence|done].
Qed.

Lemma Map_get_NoDup m k v : NoDup m.*1 → (k, v) ∈ m → Map_get m k = Some v.
Proof.
  induction m as [|[k' v'] m IH]; simpl; intros Hnd Hin.
  - by apply elem_of_nil in Hin.
  - apply NoDup_cons in Hnd as [Hk' Hnd].
    apply elem_of_cons in Hin as [[= -> ->]|Hin].
    + by rewrite String.eqb_refl.
    + destruct (String.eqb_spec k' k) as [->|Hne]; [|by apply IH].
      exfalso. apply Hk'. apply list_elem_of_fmap. by exists (k, v).
Qed.

Lemma Map_set_fresh m k v : k ∉ m.*1 → Map_set m k v = m ++ [(k, v)].
Proof.
  induction m as [|[k' v'] m IH]; simpl; [done|].
  rewrite not_elem_of_cons. intros [Hne Hk].
  destruct (String.eqb_spec k' k) as [->|_]; [done|]. by rewrite IH.
Qed.

(** * Prefixes of a path *)

Lemma elem_of_prefixes p fp :
  p ∈ prefixes fp ↔ ∃ i, i < length (split fp) ∧ p = join (take (S i) (split fp)).
Proof.
  unfold prefixes. rewrite list_elem_of_fmap. split.
  - intros (i & -> & Hi). apply elem_of_seq in Hi. exists i. split; [lia|done].
  - intros (i & Hi & ->). exists i. split; [done|]. apply elem_of_seq. lia.
Qed.

Lemma last_take_S {A} (l : list A) i : i < length l → last (take (S i) l) = l !! i.
Proof.
  intros Hi. rewrite last_lookup, length_take, Nat.min_l by lia. simpl.
  apply lookup_take_lt. lia.
Qed.

Lemma prefix_level fp i :
  i < length (split fp) → length (split (join (take (S i) (split fp)))) = S i.
Proof. intros Hi. rewrite split_join_take, length_take. lia. Qed.

Lemma prefix_full fp i :
  i < length (split fp) →
  fp = join (take (S i) (split fp)) ↔ i = length (split fp) - 1.
Proof.
  intros Hi. split.
  - intros Heq. apply (f_equal split) in Heq. rewrite split_join_take in Heq.
    apply (f_equal length) in Heq. rewrite length_take in Heq. lia.
  - intros ->. rewrite take_ge by lia. by rewrite join_split.
Qed.

Lemma prefix_inj fp i j :
  i < length (split fp) → j < length (split fp) →
  join (take (S i) (split fp)) = join (take (S j) (split fp)) → i = j.
Proof.
  intros Hi Hj Heq. apply (f_equal split) in Heq.
  rewrite !split_join_take in Heq. apply (f_equal length) in Heq.
  rewrite !length_take in Heq. lia.
Qed.

(** * [paths.map] *)

Lemma mapStep_found paths s i base l :
  Map_get (filesMap s) (join (take (i + 1) paths)) = Some l →
  mapStep paths s i base = (l, s).
Proof.
  intros Hget. unfold mapStep, Map_has. rewrite Hget. simpl. by destruct s.
Qed.

Lemma mapStep_new paths s i base :
  Map_get (filesMap s) (join (take (i + 1) paths)) = None →
  mapStep paths s i base =
    (length (heap s),
     mkStore
       (heap s ++ [FileData.mk None [] (if i =? length paths - 1 then Js else Dir)
                     (join (take (i + 1) paths)) base i 0 0%Q 0%Z])
       (filesMap s ++ [(join (take (i + 1) paths), length (heap s))])).
Proof.
  intros Hget. unfold mapStep, Map_has. rewrite Hget. simpl.
  by rewrite Map_set_fresh by by apply Map_get_None.
Qed.

Lemma StaticInv_equiv K K' T s :
  (∀ p, K p ↔ K' p) → StaticInv K T s → StaticInv K' T s.
Proof.
  intros HK [? ? ? ? ? Hkeys ?]. split; try done.
  intros p. by rewrite Hkeys.
Qed.

Lemma static_get K T s p l :
  StaticInv K T s →
  Map_get (filesMap s) p = Some l ↔
  ∃ d, heap s !! l = Some d ∧ FileData.path d = p.
Proof.
  intros [H1 H2 Hnd _ _ _ _]. split.
  - intros Hget%Map_get_Some_elem. apply list_elem_of_lookup in Hget as [i Hi].
    assert ((filesMap s).*1 !! i = Some p) as Hp
      by (by rewrite list_lookup_fmap, Hi).
    assert ((filesMap s).*2 !! i = Some l) as Hl
      by (by rewrite list_lookup_fmap, Hi).
    rewrite H2 in Hl. apply lookup_seq in Hl as [-> _].
    rewrite H1, list_lookup_fmap in Hp. simpl.
    destruct (heap s !! i) as [d|] eqn:Hd; simplify_eq/=. by exists d.
  - intros (d & Hd & <-). apply Map_get_NoDup; [by rewrite H1|].
    assert (l < length (heap s)) as Hl by by eapply lookup_lt_Some.
    assert (is_Some (filesMap s !! l)) as [[k v] Hkv].
    { apply lookup_lt_is_Some_2.
      by rewrite <-(length_fmap fst (filesMap s)), H1, length_fmap. }
    assert ((filesMap s).*1 !! l = Some k) as Hp
      by (by rewrite list_lookup_fmap, Hkv).
    assert ((filesMap s).*2 !! l = Some v) as Hv
      by (by rewrite list_lookup_fmap, Hkv).
    rewrite H2 in Hv. apply lookup_seq in Hv as [-> _].
    rewrite H1, list_lookup_fmap, Hd in Hp. simplify_eq/=.
    apply list_elem_of_lookup. eauto.
Qed.

Lemma mapStep_spec K T fp s i base :
  let p := join (take (S i) (split fp)) in
  StaticInv K T s →
  split fp !! i = Some base →
  (¬ K p → T p = if i =? length (split fp) - 1 then Js else Dir) →
  ∃ l s1 news,
    mapStep (split fp) s i base = (l, s1)
    ∧ StaticInv (λ q, K q ∨ q = p) T s1
    ∧ heap s1 = heap s ++ news
    ∧ Forall childless news
    ∧ ∃ d, heap s1 !! l = Some d ∧ FileData.path d = p.
Proof.
  intros p Hinv Hbase HT.
  assert (i < length (split fp)) as Hi by by eapply lookup_lt_Some.
  destruct (Map_get (filesMap s) p) as [l|] eqn:Hget.
  - exists l, s, []. rewrite (mapStep_found _ _ _ _ l) by (by rewrite Nat.add_1_r).
    destruct (proj1 (static_get K T s p l Hinv) Hget) as (d & Hd & Hp).
    split_and!; [done| |by rewrite app_nil_r|done|by eauto].
    eapply StaticInv_equiv; [|done]. intros q. split; [by left|].
    intros [?| ->]; [done|]. apply Hinv. apply list_elem_of_fmap.
    exists d. split; [done|]. by apply list_elem_of_lookup_2 in Hd.
  - rewrite mapStep_new by (by rewrite Nat.add_1_r). rewrite Nat.add_1_r.
    fold p. eexists _, _, [_]. split; [done|].
    assert (p ∉ FileData.path <$> heap s) as Hfresh.
    { apply Map_get_None in Hget. by rewrite <-(inv_keys1 _ _ _ Hinv). }
    destruct Hinv as [H1 H2 Hnd Hlev Hbas Hkeys Hty]. simpl.
    split_and!.
    + split; simpl.
      * by rewrite !fmap_app, H1.
      * rewrite fmap_app, H2, length_app. simpl.
        by rewrite Nat.add_1_r, seq_S.
      * rewrite fmap_app. apply NoDup_app. split_and!; [done| |].
        -- intros q Hq. simpl. rewrite list_elem_of_singleton. by intros ->.
        -- simpl. apply NoDup_singleton.
      * intros l d [[_ Hd]|[_ <-]]%lookup_snoc_Some; [by eauto|].
        simpl. by apply prefix_level.
      * intros l d [[_ Hd]|[_ <-]]%lookup_snoc_Some; [by eauto|].
        simpl. unfold p. rewrite split_join_take. by rewrite last_take_S.
      * intros q. rewrite fmap_app, elem_of_app, Hkeys. simpl.
        by rewrite list_elem_of_singleton.
      * intros l d [[_ Hd]|[_ <-]]%lookup_snoc_Some; [by eauto|].
        simpl. symmetry. apply HT. by rewrite <-Hkeys.
    + done.
    + repeat constructor.
    + eexists. split; [by rewrite list_lookup_middle|done].
Qed.

Lemma mapFrom_spec T fp rest : ∀ K s index,
  StaticInv K T s →
  drop index (split fp) = rest →
  (∀ j, j < length (split fp) → ¬ K (join (take (S j) (split fp))) →
     T (join (take (S j) (split fp)))
     = if j =? length (split fp) - 1 then Js else Dir) →
  ∃ files s2 news,
    mapFrom (split fp) s index rest = (files, s2)
    ∧ StaticInv (λ q, K q ∨ ∃ j, index ≤ j < length (split fp)
                               ∧ q = join (take (S j) (split fp))) T s2
    ∧ heap s2 = heap s ++ news
    ∧ Forall childless news
    ∧ length files = length rest
    ∧ ∀ j l, files !! j = Some l →
        ∃ d, heap s2 !! l = Some d
             ∧ FileData.path d = join (take (S (index + j)) (split fp)).
Proof.
  induction rest as [|base rest IH]; intros K s index Hinv Hdrop HT.
  - exists [], s, []. simpl. split_and!; try done.
    + eapply StaticInv_equiv; [|done]. intros q. split; [by left|].
      intros [?|(j & Hj & _)]; [done|].
      apply (f_equal length) in Hdrop. rewrite length_drop in Hdrop.
      simpl in Hdrop. lia.
    + by rewrite app_nil_r.
  - assert (split fp !! index = Some base) as Hbase.
    { rewrite <-(Nat.add_0_r index), <-lookup_drop, Hdrop. done. }
    assert (drop (S index) (split fp) = rest) as Hdrop'.
    { rewrite <-Nat.add_1_l, Nat.add_comm, <-drop_drop, Hdrop. done. }
    destruct (mapStep_spec K T fp s index base Hinv Hbase)
      as (l & s1 & news1 & Hstep & Hinv1 & Hheap1 & Hnews1 & d & Hd & Hp).
    { apply HT. by eapply lookup_lt_Some. }
    destruct (IH _ s1 (S index) Hinv1 Hdrop')
      as (files & s2 & news2 & Hmap & Hinv2 & Hheap2 & Hnews2 & Hlen & Hfiles).
    { intros j Hj Hnk. apply HT; [done|]. intros ?. apply Hnk. by left. }
    exists (l :: files), s2, (news1 ++ news2). simpl. rewrite Hstep, Hmap.
    split_and!; try done.
    + eapply StaticInv_equiv; [|done]. intros q. simpl. split.
      * intros [[?| ->]|(j & Hj & ->)]; [by left| |].
        -- right. exists index. split; [|done].
           apply lookup_lt_Some in Hbase. lia.
        -- right. exists j. split; [lia|done].
      * intros [?|(j & Hj & ->)]; [by left; left|].
        destruct (decide (j = index)) as [->|Hne]; [by left; right|].
        right. exists j. split; [lia|done].
    + by rewrite Hheap2, Hheap1, app_assoc.
    + by apply Forall_app.
    + by rewrite Hlen.
    + intros [|j] l' Hl'; simpl in Hl'.
      * simplify_eq. exists d. rewrite Nat.add_0_r. split; [|done].
        rewrite Hheap2. by apply lookup_app_l_Some.
      * destruct (Hfiles j l' Hl') as (d' & Hd' & Hp'). exists d'.
        split; [done|]. rewrite Hp'. do 3 f_equal. lia.
Qed.

(** * Linking *)

Lemma static_lookup (h h' : list FileData) l d' :
  staticOf <$> h' = staticOf <$> h → h' !! l = Some d' →
  ∃ d, h !! l = Some d ∧ staticOf d = staticOf d'.
Proof.
  intros Heq Hd'.
  assert ((staticOf <$> h') !! l = Some (staticOf d')) as Hs
    by (by rewrite list_lookup_fmap, Hd').
  rewrite Heq, list_lookup_fmap in Hs.
  destruct (h !! l) as [d|] eqn:Hd; [|done]. exists d. split; [done|].
  simpl in Hs. congruence.
Qed.

Lemma static_path (h h' : list FileData) :
  staticOf <$> h' = staticOf <$> h → FileData.path <$> h' = FileData.path <$> h.
Proof.
  intros Heq.
  change FileData.path with ((λ t : string * string * nat * FileType, t.1.1.1) ∘ staticOf).
  by rewrite !list_fmap_compose, Heq.
Qed.

Lemma StaticInv_static K T (h h' : list FileData) m :
  staticOf <$> h' = staticOf <$> h →
  StaticInv K T (mkStore h m) → StaticInv K T (mkStore h' m).
Proof.
  intros Heq [H1 H2 Hnd Hlev Hbas Hkeys Hty]. simpl in *.
  pose proof (static_path _ _ Heq) as Hpath.
  assert (length h' = length h) as Hlen.
  { by rewrite <-(length_fmap staticOf h'), Heq, length_fmap. }
  split; simpl; rewrite ?Hpath, ?Hlen; try done.
  - intros l d' Hd'. destruct (static_lookup _ _ _ _ Heq Hd') as (d & Hd & Hs).
    injection Hs as Hp Hb Hl Ht. rewrite <-Hp, <-Hl. by eapply Hlev.
  - intros l d' Hd'. destruct (static_lookup _ _ _ _ Heq Hd') as (d & Hd & Hs).
    injection Hs as Hp Hb Hl Ht. rewrite <-Hp, <-Hb. by eapply Hbas.
  - intros l d' Hd'. destruct (static_lookup _ _ _ _ Heq Hd') as (d & Hd & Hs).
    injection Hs as Hp Hb Hl Ht. rewrite <-Hp, <-Ht. by eapply Hty.
Qed.

Lemma LinkInv_mono (L L' : string → nat → Prop) h :
  (∀ fp i, L' fp i → L fp i) → LinkInv L h → LinkInv L' h.
Proof. intros HL [? ? ? Hl]. split; try done. intros fp i ?. apply Hl. auto. Qed.

Lemma LinkInv_extend L h news :
  Forall childless news → LinkInv L h → LinkInv L (h ++ news).
Proof.
  intros Hnews [Hc Hnd Hp Hl].
  assert (∀ l d, (h ++ news) !! l = Some d → h !! l = Some d ∨ childless d) as Hcase.
  { intros l d [?|[_ Hd]]%lookup_app_Some; [by left|right].
    rewrite Forall_forall in Hnews. apply Hnews.
    by eapply list_elem_of_lookup_2. }
  split.
  - intros l d c [Hd|[Hd _]]%Hcase Hin.
    + destruct (Hc l d c Hd Hin) as (dc & Hdc & Heq). exists dc.
      split; [by apply lookup_app_l_Some|done].
    + rewrite Hd in Hin. by apply elem_of_nil in Hin.
  - intros l d [Hd|[Hd _]]%Hcase; [by eauto|]. rewrite Hd. constructor.
  - intros c dc p [Hd|[_ Hd]]%Hcase Hpar; [|congruence].
    destruct (Hp c dc p Hd Hpar) as (d & Hd' & Hin). exists d.
    split; [by apply lookup_app_l_Some|done].
  - intros fp i HL. destruct (Hl fp i HL) as (p & c & dp & dc & ? & ? & ?).
    exists p, c, dp, dc. split_and!; try tauto; apply lookup_app_l_Some; tauto.
Qed.

Lemma linkStep_lookup files (h : list FileData) i c p dc dp :
  files !! i = Some c → files !! (i - 1) = Some p →
  h !! c = Some dc → h !! p = Some dp → c ≠ p →
  ∀ l, linkStep files h i !! l = linkUpd c p (FileData.children dp) l <$> h !! l.
Proof.
  intros Hc Hp Hdc Hdp Hne l. unfold linkStep. rewrite Hc, Hp.
  assert (alter (FileData.set_parent p) c h !!! p = dp) as ->.
  { apply list_lookup_total_correct. by rewrite list_lookup_alter_ne. }
  unfold linkUpd.
  destruct (decide (c ∈ FileData.children dp)) as [Hin|Hin];
    [rewrite bool_decide_eq_true_2 by done
    |rewrite bool_decide_eq_false_2 by done];
    rewrite ?list_lookup_alter; repeat case_decide; simplify_eq;
    rewrite ?Hdc, ?Hdp; simpl; try done;
    try (match goal with |- context [h !! ?k] => destruct (h !! k) as [[]|] end;
    simpl; done); try by destruct dp; try by destruct dc.
Qed.

Lemma linkUpd_static c p cs l d : staticOf (linkUpd c p cs l d) = staticOf d.
Proof. done. Qed.

Lemma linkUpd_children_mono c p cs l d a :
  a ∈ FileData.children d → a ∈ FileData.children (linkUpd c p cs l d).
Proof.
  intros Ha. unfold linkUpd. simpl. repeat case_decide; try done.
  apply elem_of_app. by left.
Qed.

Lemma LinkCtx_static fp files (h h' : list FileData) :
  staticOf <$> h' = staticOf <$> h → LinkCtx fp files h → LinkCtx fp files h'.
Proof.
  intros Heq (Hlen & Hfiles & Hbase). split_and!; [done| |].
  - intros j l Hl. destruct (Hfiles j l Hl) as (d & Hd & Hp).
    destruct (static_lookup h' h l d (eq_sym Heq) Hd) as (d' & Hd' & Hs).
    exists d'. split; [done|]. injection Hs as Hs _ _ _. by rewrite Hs.
  - intros l d' Hd'. destruct (static_lookup h h' l d' Heq Hd') as (d & Hd & Hs).
    injection Hs as Hs1 Hs2 _ _. rewrite <-Hs1, <-Hs2. by eapply Hbase.
Qed.

Lemma LinkCtx_pair fp files h i :
  LinkCtx fp files h → 1 ≤ i < length (split fp) →
  ∃ c p dc dp,
    files !! i = Some c ∧ files !! (i - 1) = Some p
    ∧ h !! c = Some dc ∧ h !! p = Some dp ∧ c ≠ p
    ∧ FileData.path dc = join (take (S i) (split fp))
    ∧ FileData.path dp = join (take i (split fp))
    ∧ split (FileData.path dc) = split (FileData.path dp) ++ [FileData.base dc].
Proof.
  intros (Hlen & Hfiles & Hbase) Hi.
  destruct (lookup_lt_is_Some_2 files i) as [c Hc]; [lia|].
  destruct (lookup_lt_is_Some_2 files (i - 1)) as [p Hp]; [lia|].
  destruct (Hfiles _ _ Hc) as (dc & Hdc & Hpc).
  destruct (Hfiles _ _ Hp) as (dp & Hdp & Hpp).
  replace (S (i - 1)) with i in Hpp by lia.
  exists c, p, dc, dp. split_and!; try done.
  - intros ->. rewrite Hdc in Hdp. injection Hdp as ->. rewrite Hpc in Hpp.
    replace i with (S (i - 1)) in Hpp at 2 by lia.
    apply prefix_inj in Hpp; lia.
  - pose proof (Hbase _ _ Hdc) as Hlast.
    rewrite Hpc, Hpp in *. rewrite split_join_take in *.
    replace i with (S (i - 1)) at 2 by lia. rewrite split_join_take.
    replace (S (i - 1)) with i by lia.
    rewrite last_take_S in Hlast by lia. by apply take_S_r.
Qed.

Lemma linkStep_inv L fp files h i :
  LinkCtx fp files h → 1 ≤ i < length (split fp) → LinkInv L h →
  LinkInv (λ fp' j, L fp' j ∨ (fp' = fp ∧ j = i)) (linkStep files h i)
  ∧ staticOf <$> linkStep files h i = staticOf <$> h.
Proof.
  intros Hctx Hi [Hch Hnd Hpar Hlnk].
  destruct (LinkCtx_pair fp files h i Hctx Hi)
    as (c & p & dc & dp & Hc & Hp & Hdc & Hdp & Hne & Hpc & Hpp & Hsplit).
  pose proof (linkStep_lookup files h i c p dc dp Hc Hp Hdc Hdp Hne) as Hlk.
  set (h' := linkStep files h i) in *.
  set (cs := FileData.children dp) in *.
  assert (∀ l d, h !! l = Some d → h' !! l = Some (linkUpd c p cs l d)) as Hfw.
  { intros l d Hd. by rewrite Hlk, Hd. }
  assert (∀ l d', h' !! l = Some d' →
            ∃ d, h !! l = Some d ∧ d' = linkUpd c p cs l d) as Hbw.
  { intros l d'. rewrite Hlk. destruct (h !! l) as [d|]; [|done].
    intros [= <-]. by exists d. }
  assert (c ∈ FileData.children (linkUpd c p cs p dp)) as Hcin.
  { unfold linkUpd. simpl. rewrite decide_True by done.
    case_decide; [done|]. apply elem_of_app. right. by left. }
  split; [split|].
  - intros l d' a (d & Hd & ->)%Hbw Ha.
    assert (a ∈ FileData.children d ∨ (a = c ∧ l = p)) as [Hold|[-> ->]].
    { revert Ha. unfold linkUpd. simpl. repeat case_decide; auto.
      intros [?|Ha%list_elem_of_singleton]%elem_of_app; auto. }
    + destruct (Hch l d a Hd Hold) as (da & Hda & Heq).
      exists (linkUpd c p cs a da). split; [by apply Hfw|done].
    + exists (linkUpd c p cs c dc). split; [by apply Hfw|].
      rewrite Hdp in Hd. by injection Hd as <-.
  - intros l d' (d & Hd & ->)%Hbw. unfold linkUpd. simpl.
    repeat case_decide; subst; try by eauto.
    rewrite Hdp in Hd. injection Hd as <-. apply NoDup_app.
    split_and!; [by eauto| |apply NoDup_singleton].
    intros a Ha ->%list_elem_of_singleton. done.
  - intros a da' q (da & Hda & ->)%Hbw. unfold linkUpd at 1. simpl.
    case_decide as Hac.
    + intros [= <-]. subst a. exists (linkUpd c p cs p dp).
      split; [by apply Hfw|done].
    + intros Hq. destruct (Hpar a da q Hda Hq) as (d & Hd & Hin).
      exists (linkUpd c p cs q d). split; [by apply Hfw|].
      by apply linkUpd_children_mono.
  - intros fp' j [HL|[-> ->]].
    + destruct (Hlnk fp' j HL) as (p0 & c0 & dp0 & dc0 & H1 & H2 & H3 & H4 & H5).
      exists p0, c0, (linkUpd c p cs p0 dp0), (linkUpd c p cs c0 dc0).
      split_and!; try done; [by apply Hfw|by apply Hfw|].
      by apply linkUpd_children_mono.
    + exists p, c, (linkUpd c p cs p dp), (linkUpd c p cs c dc).
      split_and!; try done; by apply Hfw.
  - apply list_eq. intros l. rewrite !list_lookup_fmap, Hlk.
    by destruct (h !! l).
Qed.

Lemma linkLoop_inv fp files (idx : list nat) : ∀ L h,
  LinkCtx fp files h → (∀ i, i ∈ idx → 1 ≤ i < length (split fp)) →
  LinkInv L h →
  LinkInv (λ fp' j, L fp' j ∨ (fp' = fp ∧ j ∈ idx)) (foldl (linkStep files) h idx)
  ∧ staticOf <$> foldl (linkStep files) h idx = staticOf <$> h.
Proof.
  induction idx as [|i idx IH]; intros L h Hctx Hidx Hinv; simpl.
  - split; [|done]. eapply LinkInv_mono; [|done].
    intros fp' j [?|[_ []%elem_of_nil]]. done.
  - destruct (linkStep_inv L fp files h i Hctx) as [Hinv1 Hst1]; [|done|].
    { apply Hidx. by left. }
    destruct (IH _ (linkStep files h i)
                (LinkCtx_static _ _ _ _ Hst1 Hctx)
                (λ j Hj, Hidx j (list_elem_of_further _ _ _ Hj)) Hinv1)
      as [Hinv2 Hst2].
    split; [|by rewrite Hst2].
    eapply LinkInv_mono; [|done]. simpl.
    intros fp' j [?|[-> [->|?]%elem_of_cons]]; auto.
Qed.

(** * One input path, and all of them *)

Lemma firstUse_is_Some p fps : keyOf fps p → is_Some (firstUse p fps).
Proof.
  intros (fp & Hfp & Hp). unfold firstUse.
  destruct (filter _ fps) as [|a l] eqn:Hf; [|by eexists].
  assert (fp ∈ filter (λ filePath, p ∈ prefixes filePath) fps) as Hin
    by by apply list_elem_of_filter.
  rewrite Hf in Hin. by apply elem_of_nil in Hin.
Qed.

Lemma kindOf_app_old fps fp p : keyOf fps p → kindOf (fps ++ [fp]) p = kindOf fps p.
Proof.
  intros [a Ha]%firstUse_is_Some. unfold kindOf, firstUse in *.
  rewrite filter_app. destruct (filter _ fps); by simplify_eq/=.
Qed.

Lemma kindOf_app_new fps fp j :
  j < length (split fp) → ¬ keyOf fps (join (take (S j) (split fp))) →
  kindOf (fps ++ [fp]) (join (take (S j) (split fp)))
  = if j =? length (split fp) - 1 then Js else Dir.
Proof.
  intros Hj Hnk. unfold kindOf, firstUse. rewrite filter_app.
  destruct (filter _ fps) as [|a l] eqn:Hf.
  - simpl. rewrite filter_cons_True by (apply elem_of_prefixes; eauto). simpl.
    pose proof (prefix_full fp j Hj) as Hfull.
    destruct (Nat.eqb_spec j (length (split fp) - 1)) as [Heq|Hne].
    + rewrite decide_True; [done|]. by apply Hfull.
    + rewrite decide_False; [done|]. intros ?. by apply Hne, Hfull.
  - exfalso. apply Hnk. exists a.
    assert (a ∈ filter (λ filePath,
              join (take (S j) (split fp)) ∈ prefixes filePath) fps) as Hin
      by (rewrite Hf; by left).
    by apply list_elem_of_filter in Hin as [? ?].
Qed.

Lemma keyOf_app fps fp p :
  keyOf (fps ++ [fp]) p ↔
  keyOf fps p ∨ ∃ j, 0 ≤ j < length (split fp) ∧ p = join (take (S j) (split fp)).
Proof.
  unfold keyOf. split.
  - intros (a & [Ha| ->%list_elem_of_singleton]%elem_of_app & Hp); [by eauto|].
    right. apply elem_of_prefixes in Hp as (j & ? & ?). exists j. split; [lia|done].
  - intros [(a & Ha & Hp)|(j & Hj & ->)].
    + exists a. split; [apply elem_of_app; by left|done].
    + exists fp. split; [apply elem_of_app; right; by left|].
      apply elem_of_prefixes. exists j. split; [lia|done].
Qed.

Lemma addPath_unfold s fp :
  addPath s fp =
  mkStore (foldl (linkStep (filesOf s fp))
             (heap (mapFrom (split fp) s 0 (split fp)).2)
             (List.seq 1 (length (split fp) - 1)))
          (filesMap (mapFrom (split fp) s 0 (split fp)).2).
Proof. unfold addPath, filesOf. by destruct (mapFrom _ _ _ _). Qed.

Lemma addPath_inv fps s fp :
  TreeInv fps s →
  TreeInv (fps ++ [fp]) (addPath s fp)
  ∧ (∃ ext, staticOf <$> heap (addPath s fp) = (staticOf <$> heap s) ++ ext)
  ∧ (∀ j l, filesOf s fp !! j = Some l →
       ∃ d, heap (addPath s fp) !! l = Some d
            ∧ FileData.path d = join (take (S j) (split fp))).
Proof.
  intros [Hst Hlk].
  assert (StaticInv (keyOf fps) (kindOf (fps ++ [fp])) s) as Hst'.
  { destruct Hst as [? ? ? ? ? Hkeys Hty]. split; try done.
    intros l d Hd. rewrite (Hty l d Hd). symmetry. apply kindOf_app_old.
    apply Hkeys. apply list_elem_of_fmap. exists d. split; [done|].
    by eapply list_elem_of_lookup_2. }
  destruct (mapFrom_spec (kindOf (fps ++ [fp])) fp (split fp) _ s 0 Hst' eq_refl)
    as (files & s1 & news & Hmap & Hst1 & Hheap & Hnews & Hlen & Hfiles).
  { intros j Hj Hnk. by apply kindOf_app_new. }
  rewrite addPath_unfold. unfold filesOf. rewrite Hmap. simpl.
  assert (LinkCtx fp files (heap s1)) as Hctx.
  { split_and!; [done|done|]. intros l d Hd. by eapply (inv_base _ _ _ Hst1). }
  destruct (linkLoop_inv fp files (List.seq 1 (length (split fp) - 1))
              (linkOf fps) (heap s1) Hctx) as [Hlk2 Hst2].
  { intros i Hi%elem_of_seq. lia. }
  { rewrite Hheap. by apply LinkInv_extend. }
  split_and!.
  - split; simpl.
    + apply StaticInv_static with (h := heap s1); [done|].
      destruct s1 as [h1 m1]. simpl in *.
      eapply StaticInv_equiv; [|done]. intros p. by rewrite keyOf_app.
    + eapply LinkInv_mono; [|done]. simpl. unfold linkOf.
      intros fp' j [[Hin| ->%list_elem_of_singleton]%elem_of_app Hj]; [by left|].
      right. split; [done|]. apply elem_of_seq. lia.
  - exists (staticOf <$> news). by rewrite Hst2, Hheap, fmap_app.
  - intros j l Hl. destruct (Hfiles j l Hl) as (d & Hd & Hp).
    destruct (static_lookup _ _ l d (eq_sym Hst2) Hd) as (d' & Hd' & Hs).
    exists d'. split; [done|]. injection Hs as Hs _ _ _. by rewrite Hs.
Qed.

Lemma TreeInv_empty : TreeInv [] (mkStore [] []).
Proof.
  split; split; simpl; try done.
  - constructor.
  - intros p. split; [by intros ?%elem_of_nil|].
    by intros (fp & ?%elem_of_nil & _).
  - intros fp i [?%elem_of_nil _]. done.
Qed.

Lemma foldl_addPath_inv fps : ∀ done s,
  TreeInv done s → TreeInv (done ++ fps) (foldl addPath s fps).
Proof.
  induction fps as [|fp fps IH]; intros done s Hinv; simpl.
  - by rewrite app_nil_r.
  - rewrite (assoc_L (++) done [fp] fps : done ++ fp :: fps = (done ++ [fp]) ++ fps).
    apply IH. by apply addPath_inv.
Qed.

Lemma buildTree_inv fps : TreeInv fps (buildTree fps).
Proof. apply (foldl_addPath_inv fps [] _ TreeInv_empty). Qed.

(** * The built graph is a forest *)

Lemma lookup_total_Some (h : list FileData) l :
  l < length h → h !! l = Some (h !!! l).
Proof. intros Hl. by apply list_lookup_lookup_total_lt. Qed.

Lemma path_inj_loc K T s l1 l2 :
  StaticInv K T s → l1 < length (heap s) → l2 < length (heap s) →
  FileData.path (heap s !!! l1) = FileData.path (heap s !!! l2) → l1 = l2.
Proof.
  intros Hst H1 H2 Heq. eapply NoDup_lookup; [apply (inv_nodup _ _ _ Hst)| |].
  - rewrite list_lookup_fmap, (lookup_total_Some _ _ H1). done.
  - rewrite list_lookup_fmap, (lookup_total_Some _ _ H2). simpl. by rewrite Heq.
Qed.

Lemma TreeInv_Forest fps s : TreeInv fps s → Forest (heap s).
Proof.
  intros [Hst [Hch Hnd Hpar Hlnk]]. set (h := heap s) in *.
  assert (∀ l c, l < length h → c ∈ FileData.children (h !!! l) →
            c < length h
            ∧ split (FileData.path (h !!! c))
              = split (FileData.path (h !!! l)) ++ [FileData.base (h !!! c)]) as Hch'.
  { intros l c Hl Hc.
    destruct (Hch l _ c (lookup_total_Some _ _ Hl) Hc) as (dc & Hdc & Heq).
    rewrite (list_lookup_total_correct _ _ _ Hdc).
    split; [by eapply lookup_lt_Some|done]. }
  assert (∀ l, l < length h →
            length (split (FileData.path (h !!! l))) = S (FileData.level (h !!! l))) as Hlev.
  { intros l Hl. eapply (inv_level _ _ _ Hst). by apply lookup_total_Some. }
  split.
  - intros l c Hl Hc. destruct (Hch' l c Hl Hc) as [Hcl Heq]. split; [done|].
    apply (f_equal length) in Heq. rewrite length_app, Hlev, Hlev in Heq by done.
    simpl in Heq. lia.
  - intros l1 l2 c H1 H2 Hc1 Hc2.
    destruct (Hch' l1 c H1 Hc1) as [_ Heq1].
    destruct (Hch' l2 c H2 Hc2) as [_ Heq2].
    rewrite Heq1 in Heq2. apply app_inj_tail in Heq2 as [Heq _].
    apply split_inj in Heq. by eapply path_inj_loc.
  - intros l Hl. eapply Hnd. by apply lookup_total_Some.
  - intros c Hc Hnz.
    assert (keyOf fps (FileData.path (h !!! c))) as (fp & Hfp & Hp).
    { apply (inv_keys _ _ _ Hst). apply list_elem_of_fmap. exists (h !!! c).
      split; [done|]. by apply list_elem_of_lookup_total_2. }
    apply elem_of_prefixes in Hp as (j & Hj & Hp).
    assert (j = FileData.level (h !!! c)) as Hjl.
    { pose proof (Hlev c Hc) as Hl. rewrite Hp, prefix_level in Hl by done. lia. }
    destruct (Hlnk fp j) as (p & c' & dp & dc & Hdp & Hdc & Hpp & Hpc & Hin).
    { split; [done|lia]. }
    assert (c' = c) as ->.
    { eapply path_inj_loc; [done|by eapply lookup_lt_Some|done|].
      fold h. rewrite (list_lookup_total_correct _ _ _ Hdc). congruence. }
    exists p. split; [by eapply lookup_lt_Some|].
    by rewrite (list_lookup_total_correct _ _ _ Hdp).
  - intros c p Hc Hp.
    destruct (Hpar c _ p (lookup_total_Some _ _ Hc) Hp) as (d & Hd & Hin).
    split; [by eapply lookup_lt_Some|].
    by rewrite (list_lookup_total_correct _ _ _ Hd).
  - intros l c1 c2 Hl Hc1 Hc2 Hne Hb.
    destruct (Hch' l c1 Hl Hc1) as [Hl1 Heq1].
    destruct (Hch' l c2 Hl Hc2) as [Hl2 Heq2].
    rewrite Hb, <-Heq2 in Heq1. apply split_inj in Heq1.
    apply Hne. by eapply path_inj_loc.
  - intros l Hl.
    rewrite (inv_type _ _ _ Hst l _ (lookup_total_Some _ _ Hl)).
    assert (keyOf fps (FileData.path (h !!! l))) as [a Ha]%firstUse_is_Some.
    { apply (inv_keys _ _ _ Hst). apply list_elem_of_fmap. exists (h !!! l).
      split; [done|]. by apply list_elem_of_lookup_total_2. }
    unfold kindOf. rewrite Ha. case_decide; auto.
Qed.

(** A forest stays one when only ranks and positions change. *)
Lemma Forest_struct h h' : sameStruct h h' → Forest h → Forest h'.
Proof.
  intros [Hlen Hs] [Hch Hu Hnd Hhp Hpar Hb Hty].
  assert (∀ l, FileData.children (h' !!! l) = FileData.children (h !!! l)) as Ec.
  { intros l. specialize (Hs l). by injection Hs. }
  assert (∀ l, FileData.level (h' !!! l) = FileData.level (h !!! l)) as El.
  { intros l. specialize (Hs l). by injection Hs. }
  assert (∀ l, FileData.parent (h' !!! l) = FileData.parent (h !!! l)) as Ep.
  { intros l. specialize (Hs l). by injection Hs. }
  assert (∀ l, FileData.base (h' !!! l) = FileData.base (h !!! l)) as Eb.
  { intros l. specialize (Hs l). by injection Hs. }
  assert (∀ l, FileData.type (h' !!! l) = FileData.type (h !!! l)) as Et.
  { intros l. specialize (Hs l). by injection Hs. }
  split; intros *; rewrite ?Hlen, ?Ec, ?El, ?Ep, ?Eb, ?Et; eauto.
  intros Hc Hnz. destruct (Hhp c Hc Hnz) as (p & Hp & Hin). exists p.
  by rewrite Ec.
Qed.

Lemma sameStruct_refl h : sameStruct h h.
Proof. done. Qed.

Lemma sameStruct_trans h1 h2 h3 :
  sameStruct h1 h2 → sameStruct h2 h3 → sameStruct h1 h3.
Proof.
  intros [L1 S1] [L2 S2]. split; [congruence|]. intros l. by rewrite S2, S1.
Qed.

(** * The ranking loop *)

Lemma insertSorted_ext {A} (cmp cmp' : A → A → Z) a l :
  (∀ b, cmp a b = cmp' a b) → insertSorted cmp a l = insertSorted cmp' a l.
Proof. intros E. induction l as [|b l IH]; simpl; [done|]. by rewrite E, IH. Qed.

Lemma toSorted_ext {A} (cmp cmp' : A → A → Z) l :
  (∀ a b, cmp a b = cmp' a b) → toSorted cmp l = toSorted cmp' l.
Proof.
  intros E. induction l as [|a l IH]; simpl; [done|].
  rewrite IH. by apply insertSorted_ext.
Qed.

Lemma sameStruct_fields h h' l :
  sameStruct h h' →
  FileData.children (h' !!! l) = FileData.children (h !!! l)
  ∧ FileData.level (h' !!! l) = FileData.level (h !!! l)
  ∧ FileData.base (h' !!! l) = FileData.base (h !!! l)
  ∧ FileData.type (h' !!! l) = FileData.type (h !!! l)
  ∧ FileData.parent (h' !!! l) = FileData.parent (h !!! l)
  ∧ FileData.path (h' !!! l) = FileData.path (h !!! l).
Proof. intros [_ Hs]. specialize (Hs l). by injection Hs. Qed.

Lemma sameStruct_sym h h' : sameStruct h h' → sameStruct h' h.
Proof. intros [Hl Hs]. split; [done|]. intros l. by rewrite Hs. Qed.

Lemma cmpChildren_struct h h' a b :
  sameStruct h h' → cmpChildren h' a b = cmpChildren h a b.
Proof.
  intros Hs. unfold cmpChildren.
  destruct (sameStruct_fields h h' a Hs) as (_ & _ & -> & -> & _).
  destruct (sameStruct_fields h h' b Hs) as (_ & _ & -> & -> & _). done.
Qed.

Lemma sortedChildren_struct h h' f :
  sameStruct h h' → sortedChildren h' f = sortedChildren h f.
Proof.
  intros Hs. unfold sortedChildren.
  destruct (sameStruct_fields h h' f Hs) as (-> & _).
  apply toSorted_ext. intros a b. by apply cmpChildren_struct.
Qed.

Lemma isRoot_struct h h' l : sameStruct h h' → isRoot h' l ↔ isRoot h l.
Proof.
  intros Hs. unfold isRoot.
  by destruct (sameStruct_fields h h' l Hs) as (_ & -> & _).
Qed.

Lemma sameStruct_alter_seq h n l :
  sameStruct h (alter (FileData.set_seq n) l h).
Proof.
  split; [by rewrite length_alter|]. intros k.
  rewrite list_lookup_total_alter. case_decide as Hd; [|done].
  by destruct Hd as [-> _].
Qed.

Section AssignSeq.
Implicit Types (h : list FileData) (ics : list (nat * loc)).

Lemma assign_struct ics : ∀ h, sameStruct h (foldl assignStep h ics).
Proof.
  induction ics as [|[i c] ics IH]; intros h; simpl; [done|].
  eapply sameStruct_trans; [|apply IH]. apply sameStruct_alter_seq.
Qed.

Lemma assign_other ics l : ∀ h, l ∉ ics.*2 → foldl assignStep h ics !!! l = h !!! l.
Proof.
  induction ics as [|[i c] ics IH]; intros h; simpl; [done|].
  rewrite not_elem_of_cons. intros [Hne Hl]. rewrite IH by done.
  unfold assignStep. simpl. by rewrite list_lookup_total_alter_ne.
Qed.

Lemma assign_seq ics i l : ∀ h,
  NoDup ics.*2 → (i, l) ∈ ics → l < length h →
  FileData.seq (foldl assignStep h ics !!! l) = i.
Proof.
  induction ics as [|[i0 c0] ics IH]; intros h Hnd Hin Hl; simpl.
  - by apply elem_of_nil in Hin.
  - simpl in Hnd. apply NoDup_cons in Hnd as [Hc0 Hnd].
    apply elem_of_cons in Hin as [[= -> ->]|Hin].
    + rewrite assign_other by done. unfold assignStep. simpl.
      by rewrite list_lookup_total_alter_eq.
    + apply IH; [done|done|]. unfold assignStep. by rewrite length_alter.
Qed.
End AssignSeq.

Lemma imap_pair_snd {A} (l : list A) : (imap pair l).*2 = l.
Proof.
  apply list_eq. intros i. rewrite list_lookup_fmap, list_lookup_imap.
  by destruct (l !! i).
Qed.

Lemma assignSeq_struct sorted h : sameStruct h (assignSeq sorted h).
Proof. apply assign_struct. Qed.

Lemma assignSeq_other sorted h l :
  l ∉ sorted → assignSeq sorted h !!! l = h !!! l.
Proof. intros Hl. apply assign_other. by rewrite imap_pair_snd. Qed.

Lemma assignSeq_seq sorted h i l :
  NoDup sorted → sorted !! i = Some l → l < length h →
  FileData.seq (assignSeq sorted h !!! l) = i.
Proof.
  intros Hnd Hi Hl. apply assign_seq; [by rewrite imap_pair_snd| |done].
  apply list_elem_of_lookup. exists i. by rewrite list_lookup_imap, Hi.
Qed.

Lemma child_not_root h l c :
  Forest h → l < length h → c ∈ FileData.children (h !!! l) → ¬ isRoot h c.
Proof.
  intros Hf Hl Hc. destruct (fo_child h Hf l c Hl Hc) as [_ Hlev].
  unfold isRoot. lia.
Qed.

Lemma child_not_self h l : Forest h → l < length h → l ∉ FileData.children (h !!! l).
Proof.
  intros Hf Hl Hc. destruct (fo_child h Hf l l Hl Hc) as [_ Hlev]. lia.
Qed.

Lemma sortedChildren_elem h f c :
  c ∈ sortedChildren h f ↔ c ∈ FileData.children (h !!! f).
Proof. apply toSorted_elem_of. Qed.

Lemma seqStep_inv h0 done st f :
  Forest h0 → f < length h0 → f ∉ done →
  SeqInv h0 done st → SeqInv h0 (done ++ [f]) (seqStep st f).
Proof.
  intros Hfo Hf Hnew. destruct st as [rs h]. intros (Hs & Hrs & Hch & Hrt).
  simpl in *. unfold seqStep.
  set (h1 := if FileData.level (h !!! f) =? 0
             then alter (FileData.set_seq rs) f h else h).
  assert ((if FileData.level (h !!! f) =? 0
           then (S rs, alter (FileData.set_seq rs) f h) else (rs, h))
          = (if FileData.level (h !!! f) =? 0 then S rs else rs, h1)) as ->.
  { unfold h1. by destruct (_ =? _). }
  assert (sameStruct h h1) as Hs1.
  { unfold h1. destruct (_ =? _); [apply sameStruct_alter_seq|done]. }
  assert (sameStruct h0 h1) as Hs01 by by eapply sameStruct_trans.
  fold (sortedChildren h1 f). rewrite (sortedChildren_struct h0 h1 f Hs01).
  set (sorted := sortedChildren h0 f).
  assert (FileData.level (h !!! f) = FileData.level (h0 !!! f)) as Hlev.
  { by destruct (sameStruct_fields h0 h f Hs) as (_ & -> & _). }
  assert (length h = length h0) as Hlen by apply Hs.
  assert (length h1 = length h0) as Hlen1 by apply Hs01.
  assert (NoDup sorted) as Hnd.
  { apply toSorted_NoDup. by apply (fo_nodup h0 Hfo). }
  assert (∀ c, c ∈ sorted → c < length h0 ∧ ¬ isRoot h0 c ∧ c ≠ f) as Hsorted.
  { intros c Hc%sortedChildren_elem. split_and!.
    - by apply (fo_child h0 Hfo f c).
    - by eapply child_not_root.
    - intros ->. by eapply child_not_self. }
  assert (∀ l, ¬ isRoot h0 l → h1 !!! l = h !!! l) as Hh1.
  { intros l Hl. unfold h1. rewrite Hlev.
    destruct (Nat.eqb_spec (FileData.level (h0 !!! f)) 0) as [Hr|_]; [|done].
    rewrite list_lookup_total_alter_ne; [done|]. by intros ->. }
  split_and!; simpl.
  - eapply sameStruct_trans; [done|]. apply assignSeq_struct.
  - rewrite filter_app, length_app, Hlev.
    destruct (Nat.eqb_spec (FileData.level (h0 !!! f)) 0) as [Hr|Hr].
    + rewrite filter_cons_True by done. simpl. lia.
    + rewrite filter_cons_False by done. simpl. lia.
  - intros f' i c [Hf'| ->%list_elem_of_singleton]%elem_of_app Hi.
    + assert (c ∈ FileData.children (h0 !!! f')) as Hc.
      { apply sortedChildren_elem. by eapply list_elem_of_lookup_2. }
      assert (c ∉ sorted) as Hns.
      { intros Hin%sortedChildren_elem.
        assert (f' < length h0) as Hf'l.
        { destruct (decide (f' < length h0)); [done|].
          rewrite (list_lookup_total_alt h0 f'), (lookup_ge_None_2 h0 f') in Hc
            by lia. by apply elem_of_nil in Hc. }
        assert (f = f') as -> by by eapply (fo_uniq h0 Hfo). done. }
      rewrite assignSeq_other by done.
      destruct (decide (f' < length h0)) as [Hf'l|Hf'l].
      * rewrite Hh1 by by eapply child_not_root. by eapply Hch.
      * rewrite (list_lookup_total_alt h0 f'), (lookup_ge_None_2 h0 f') in Hc
          by lia. by apply elem_of_nil in Hc.
    + apply assignSeq_seq; [done|done|]. rewrite Hlen1.
      apply Hsorted. by eapply list_elem_of_lookup_2.
  - intros d1 r d2 Heq Hr.
    assert (r ∉ sorted) as Hns by (intros Hin; by apply Hsorted in Hin as (_ & ? & _)).
    rewrite assignSeq_other by done.
    destruct d2 as [|a d2 _] using rev_ind.
    + apply app_inj_tail in Heq as [-> ->]. unfold h1. rewrite Hlev.
      rewrite (proj2 (Nat.eqb_eq _ _) Hr).
      rewrite list_lookup_total_alter_eq by lia. done.
    + rewrite app_comm_cons, app_assoc in Heq.
      apply app_inj_tail in Heq as [-> ->].
      assert (h1 !!! r = h !!! r) as ->.
      { unfold h1. destruct (_ =? _); [|done].
        rewrite list_lookup_total_alter_ne; [done|]. intros ->.
        apply Hnew. apply elem_of_app. right. by left. }
      by eapply Hrt.
Qed.

Lemma seqLoop_inv h0 vs : ∀ done st,
  Forest h0 → (∀ f, f ∈ vs → f < length h0) → NoDup (done ++ vs) →
  SeqInv h0 done st → SeqInv h0 (done ++ vs) (foldl seqStep st vs).
Proof.
  induction vs as [|f vs IH]; intros done st Hfo Hvs Hnd Hinv; simpl.
  - by rewrite app_nil_r.
  - rewrite (assoc_L (++) done [f] vs : done ++ f :: vs = (done ++ [f]) ++ vs) in *.
    apply IH; [done| |done|].
    + intros g Hg. apply Hvs. by right.
    + apply seqStep_inv; [done| |  |done].
      * apply Hvs. by left.
      * apply NoDup_app in Hnd as [Hnd _]. apply NoDup_app in Hnd as (_ & Hnd & _).
        intros Hin. apply (Hnd f Hin). by left.
Qed.

Lemma setSeqs_spec fps :
  let s := buildTree fps in
  sameStruct (heap s) (setSeqs s) ∧ Forest (setSeqs s) ∧ Ranked (setSeqs s).
Proof.
  intros s. pose proof (buildTree_inv fps) as Hinv. fold s in Hinv.
  pose proof (TreeInv_Forest fps s Hinv) as Hfo.
  assert (Map_values (filesMap s) = List.seq 0 (length (heap s))) as Hvs.
  { apply (inv_keys2 _ _ _ (tree_static _ _ Hinv)). }
  destruct (seqLoop_inv (heap s) (Map_values (filesMap s)) [] (0, heap s) Hfo)
    as (Hs & Hrs & Hch & Hrt).
  { intros f. rewrite Hvs. intros ?%elem_of_seq. lia. }
  { rewrite Hvs. apply NoDup_seq. }
  { split_and!; simpl; try done.
    - by intros ? ? ? ?%elem_of_nil.
    - by intros [|] ? ? ?. }
  fold (setSeqs s) in Hs, Hch, Hrt. simpl in Hs, Hch, Hrt.
  split_and!; [done|by eapply Forest_struct|]. split.
  - intros f i c Hf. rewrite (sortedChildren_struct _ _ f Hs).
    apply Hch. rewrite Hvs. apply elem_of_seq.
    destruct Hs as [Hlen _]. lia.
  - intros r Hr Hroot. destruct Hs as [Hlen Hst].
    rewrite Hlen in Hr.
    assert (isRoot (heap s) r) as Hroot0 by by apply (isRoot_struct _ _ r (conj Hlen Hst)).
    rewrite (Hrt (List.seq 0 r) r (List.seq (S r) (length (heap s) - S r))).
    + f_equal. apply list_filter_iff. intros l.
      symmetry. apply (isRoot_struct _ _ l (conj Hlen Hst)).
    + rewrite Hvs. replace (length (heap s)) with (r + S (length (heap s) - S r)) at 1 by lia.
      rewrite seq_app. simpl. do 2 f_equal. 
    + done.
Qed.

(** * The table of column widths *)

Lemma arraySet_length lo k v :
  k ≤ length lo → length (arraySet lo k v) = Nat.max (length lo) (S k).
Proof.
  intros Hk. unfold arraySet. destruct (Nat.ltb_spec k (length lo)).
  - rewrite length_insert. lia.
  - rewrite !length_app, length_replicate. simpl. lia.
Qed.

Lemma arraySet_lookup_eq lo k v :
  k ≤ length lo → arraySet lo k v !! k = Some (Some v).
Proof.
  intros Hk. unfold arraySet. destruct (Nat.ltb_spec k (length lo)).
  - by apply list_lookup_insert_eq.
  - assert (k = length lo) as -> by lia. rewrite Nat.sub_diag. simpl.
    by rewrite list_lookup_middle.
Qed.

Lemma arraySet_lookup_ne lo k k' v :
  k ≤ length lo → k' ≠ k → arraySet lo k v !! k' = lo !! k'.
Proof.
  intros Hk Hne. unfold arraySet. destruct (Nat.ltb_spec k (length lo)).
  - by apply list_lookup_insert_ne.
  - assert (k = length lo) as -> by lia. rewrite Nat.sub_diag. simpl.
    destruct (decide (k' < length lo)).
    + by rewrite lookup_app_l.
    + rewrite !lookup_ge_None_2; [done|lia|]. rewrite length_app. simpl. lia.
Qed.

Lemma orZero_nonneg v : (∀ q, v = Some q → (0 <= q)%Q) → (0 <= orZero v)%Q.
Proof.
  intros Hv. destruct v as [q|]; simpl; [|lra].
  destruct (Qeq_bool q 0); [lra|]. by apply Hv.
Qed.

Lemma orZero_Some q : (orZero (Some q) == q)%Q.
Proof.
  simpl. destruct (Qeq_bool q 0) eqn:E; [|reflexivity].
  apply Qeq_bool_iff in E. by rewrite E.
Qed.

Lemma falsy_pos q : (0 < q)%Q → falsy (Some q) = false.
Proof.
  intros Hq. simpl. destruct (Qeq_bool q 0) eqn:E; [|done].
  apply Qeq_bool_iff in E. lra.
Qed.

Lemma cmpLevel_cle h a b :
  cle (cmpLevel h) a b ↔
  FileData.level (h !!! a) < FileData.level (h !!! b)
  ∨ (FileData.level (h !!! a) = FileData.level (h !!! b)
     ∧ length (FileData.children (h !!! b)) ≤ length (FileData.children (h !!! a))).
Proof. unfold cle, cmpLevel. case_bool_decide; lia. Qed.

Lemma cmpLevel_sorted h l :
  NoDup l → StronglySorted (cle (cmpLevel h)) (toSorted (cmpLevel h) l).
Proof.
  intros Hnd. apply toSorted_sorted; [done| |].
  - intros a b _ _ _ Hgt. apply cmpLevel_cle. unfold cmpLevel in Hgt.
    case_bool_decide; lia.
  - intros a b c _ _ _. rewrite !cmpLevel_cle. lia.
Qed.

Lemma isParent_ltb h l :
  (0 <? length (FileData.children (h !!! l))) = true ↔ isParent h l.
Proof.
  unfold isParent. destruct (FileData.children (h !!! l)); simpl; split;
    intros; try done; lia.
Qed.

Lemma arrayGet_Some lo k q : arrayGet lo k = Some q ↔ lo !! k = Some (Some q).
Proof. unfold arrayGet. destruct (lo !! k) as [[?|]|]; naive_solver. Qed.

Section WidthLoop.
Variable measureTextWidth : string → Q.
Variable h : list FileData.

Lemma widthStep_inv done f rest lo :
  StronglySorted (cle (cmpLevel h)) (done ++ f :: rest) →
  (∀ g k, g ∈ done ++ f :: rest → k < FileData.level (h !!! g) →
     ∃ g', g' ∈ done ++ f :: rest ∧ FileData.level (h !!! g') = k) →
  WInv measureTextWidth h done lo →
  WInv measureTextWidth h (done ++ [f]) (widthStep measureTextWidth h lo f).
Proof.
  intros Hsorted Hclosed (I1 & I2 & I3).
  assert (∀ g, g ∈ done → cle (cmpLevel h) g f) as Hbefore.
  { intros g Hg. eapply StronglySorted_app_1_elem_of; [done|done|by left]. }
  assert (∀ g, g ∈ rest → cle (cmpLevel h) f g) as Hafter.
  { intros g Hg. apply StronglySorted_app_1_r in Hsorted.
    apply StronglySorted_cons in Hsorted as [Hall _].
    rewrite Forall_forall in Hall. by apply Hall. }
  set (k := FileData.level (h !!! f)).
  assert (k ≤ length lo) as Hk.
  { destruct k as [|k'] eqn:Ek; [lia|].
    destruct (Hclosed f k') as (g' & Hg' & Hlev).
    { apply elem_of_app. right. by left. }
    { fold k. lia. }
    apply elem_of_app in Hg' as [Hg'|[->|Hg']%elem_of_cons].
    - assert (k' < length lo); [|lia]. apply I1. eauto.
    - fold k in Hlev. lia.
    - apply Hafter, cmpLevel_cle in Hg'. fold k in Hg'. lia. }
  assert (∀ q, arrayGet lo k = Some q → (0 <= q)%Q) as Hcur.
  { intros q Hq%arrayGet_Some.
    destruct (I2 k) as (v & Hv & Hv0); [by eapply lookup_lt_Some|].
    congruence. }
  unfold widthStep. fold k.
  destruct (falsy (arrayGet lo k) || (0 <? length (FileData.children (h !!! f))))
    eqn:Hcond.
  - split_and!.
    + intros k0. rewrite arraySet_length by done. split.
      * intros Hk0. destruct (decide (k0 < length lo)) as [Hlt|Hge].
        -- apply I1 in Hlt as (g & Hg & Hgl). exists g.
           split; [apply elem_of_app; by left|done].
        -- exists f. split; [apply elem_of_app; right; by left|]. fold k. lia.
      * intros (g & [Hg| ->%list_elem_of_singleton]%elem_of_app & Hgl).
        -- assert (k0 < length lo) by (apply I1; eauto). lia.
        -- fold k in Hgl. lia.
    + intros k0. rewrite arraySet_length by done. intros Hk0.
      destruct (decide (k0 = k)) as [->|Hne].
      * eexists. split; [by apply arraySet_lookup_eq|].
        eapply Qle_trans; [|apply Q.le_max_l]. by apply orZero_nonneg.
      * rewrite arraySet_lookup_ne by done. apply I2. lia.
    + intros Hm k0 (g0 & Hg0 & Hg0l & Hg0p).
      destruct (decide (k0 = k)) as [->|Hne].
      * eexists. split; [by apply arraySet_lookup_eq|].
        assert ((40 <= boxWidth measureTextWidth h f)%Q) as Hf40.
        { unfold boxWidth. specialize (Hm (FileData.base (h !!! f))). lra. }
        assert (Decision (∃ g, g ∈ done ∧ FileData.level (h !!! g) = k ∧ isParent h g)) as Hdec.
        { destruct (decide (Exists (λ g, FileData.level (h !!! g) = k ∧ isParent h g) done))
            as [He|He]; [left|right]; by rewrite <-Exists_exists. }
        destruct Hdec as [Hold|Hnone].
        -- destruct (I3 Hm k Hold) as (v & Hv & (g & Hg & Hgl & Hgp & Hgv) & Hub).
           rewrite (proj2 (arrayGet_Some lo k v) Hv).
           assert (isParent h f) as Hfp.
           { rewrite (proj2 (arrayGet_Some lo k v) Hv) in Hcond.
             rewrite falsy_pos in Hcond; [by apply isParent_ltb|].
             rewrite Hgv. unfold boxWidth.
             specialize (Hm (FileData.base (h !!! g))). lra. }
           pose proof (orZero_Some v) as Hoz.
           split.
           ++ destruct (Q.max_spec (orZero (Some v))
                          (boxWidth measureTextWidth h f)) as [[_ E]|[_ E]].
              ** exists f. split_and!; try done.
                 apply elem_of_app. right. by left.
              ** exists g. split_and!; try done.
                 { apply elem_of_app. by left. }
                 { unfold boxWidth in *. rewrite E, Hoz. done. }
           ++ intros g' [Hg'| ->%list_elem_of_singleton]%elem_of_app Hl' Hp'.
              ** eapply Qle_trans; [by apply Hub|]. rewrite <-Hoz at 1. apply Q.le_max_l.
              ** apply Q.le_max_r.
        -- assert (arrayGet lo k = None) as Hnone'.
           { destruct (arrayGet lo k) as [q|] eqn:Hq; [|done]. exfalso.
             apply arrayGet_Some, lookup_lt_Some, I1 in Hq as (g & Hg & Hgl).
             assert (isParent h f) as Hfp.
             { apply elem_of_app in Hg0 as [Hg0| ->%list_elem_of_singleton];
                 [|done]. exfalso. apply Hnone. eauto. }
             apply Hnone. exists g. split_and!; try done.
             apply Hbefore, cmpLevel_cle in Hg. fold k in Hg.
             unfold isParent in *.
             destruct (FileData.children (h !!! g)); [|done].
             destruct (FileData.children (h !!! f)); [done|].
             simpl in Hg. lia. }
           rewrite Hnone'. simpl.
           assert (isParent h f) as Hfp.
           { apply elem_of_app in Hg0 as [Hg0| ->%list_elem_of_singleton];
               [|done]. exfalso. apply Hnone. eauto. }
           split.
           ++ exists f. split_and!; try done.
              { apply elem_of_app. right. by left. }
              { apply Q.max_r. fold (boxWidth measureTextWidth h f). lra. }
           ++ intros g' [Hg'| ->%list_elem_of_singleton]%elem_of_app Hl' Hp'.
              ** exfalso. apply Hnone. eauto.
              ** apply Q.le_max_r.
      * assert (g0 ∈ done) as Hg0d.
        { apply elem_of_app in Hg0 as [?| ->%list_elem_of_singleton]; [done|].
          by fold k in Hg0l. }
        destruct (I3 Hm k0) as (v & Hv & (g & Hg & Hgl & Hgp & Hgv) & Hub);
          [by eauto|].
        exists v. rewrite arraySet_lookup_ne by done. split_and!; [done| |].
        -- exists g. split_and!; try done. apply elem_of_app. by left.
        -- intros g' [Hg'| ->%list_elem_of_singleton]%elem_of_app Hl' Hp'.
           ++ by apply Hub.
           ++ by fold k in Hl'.
  - apply orb_false_iff in Hcond as [Hfalsy Hnochild].
    assert (¬ isParent h f) as Hnp.
    { intros Hp%isParent_ltb. congruence. }
    assert (k < length lo) as Hklt.
    { destruct (arrayGet lo k) as [q|] eqn:Hq; [|done].
      by apply arrayGet_Some, lookup_lt_Some in Hq. }
    split_and!.
    + intros k0. rewrite I1. split.
      * intros (g & Hg & Hgl). exists g. split; [apply elem_of_app; by left|done].
      * intros (g & [Hg| ->%list_elem_of_singleton]%elem_of_app & Hgl);
          [by eauto|]. apply I1. fold k in Hgl. by subst k0.
    + done.
    + intros Hm k0 (g0 & Hg0 & Hg0l & Hg0p).
      assert (g0 ∈ done) as Hg0d.
      { by apply elem_of_app in Hg0 as [?| ->%list_elem_of_singleton]. }
      destruct (I3 Hm k0) as (v & Hv & (g & Hg & Hgl & Hgp & Hgv) & Hub);
        [by eauto|].
      exists v. split_and!; [done| |].
      * exists g. split_and!; try done. apply elem_of_app. by left.
      * intros g' [Hg'| ->%list_elem_of_singleton]%elem_of_app Hl' Hp';
          [by apply Hub|done].
Qed.

Lemma widthLoop_inv rest : ∀ done lo,
  StronglySorted (cle (cmpLevel h)) (done ++ rest) →
  (∀ g k, g ∈ done ++ rest → k < FileData.level (h !!! g) → ∃ g', g' ∈ done ++ rest ∧ FileData.level (h !!! g') = k) →
  WInv measureTextWidth h done lo →
  WInv measureTextWidth h (done ++ rest)
    (foldl (widthStep measureTextWidth h) lo rest).
Proof.
  induction rest as [|f rest IH]; intros done lo Hs Hc Hinv; simpl.
  - by rewrite app_nil_r.
  - rewrite (assoc_L (++) done [f] rest
              : done ++ f :: rest = (done ++ [f]) ++ rest) in *.
    apply IH; [done|done|].
    rewrite <-(assoc_L (++) done [f] rest) in Hs, Hc.
    by eapply widthStep_inv.
Qed.
End WidthLoop.

Lemma level_closed h : Forest h → ∀ n g k,
  FileData.level (h !!! g) = n → g < length h → k ≤ n →
  ∃ g', g' < length h ∧ FileData.level (h !!! g') = k.
Proof.
  intros Hfo. induction n as [|n IH]; intros g k Hlev Hg Hk.
  - exists g. split; [done|lia].
  - destruct (decide (k = S n)) as [->|Hne]; [by exists g|].
    destruct (fo_haspar h Hfo g Hg) as (p & Hp & Hin); [lia|].
    destruct (fo_child h Hfo p g Hp Hin) as [_ Hlp].
    apply (IH p k); [lia|done|lia].
Qed.

Lemma columnWidths_spec m h :
  Forest h →
  let W := columnWidths m h (List.seq 0 (length h)) in
  (∀ k, k < length W ↔ ∃ g, g < length h ∧ FileData.level (h !!! g) = k)
  ∧ (∀ k, k < length W → ∃ v, W !! k = Some (Some v) ∧ (0 <= v)%Q)
  ∧ ((∀ s, (0 <= m s)%Q) →
     ∀ k, (∃ g, g < length h ∧ FileData.level (h !!! g) = k ∧ isParent h g) →
       ∃ v, W !! k = Some (Some v)
         ∧ (∃ g, g < length h ∧ FileData.level (h !!! g) = k ∧ isParent h g
                 ∧ (v == boxWidth m h g)%Q)
         ∧ (∀ g, g < length h → FileData.level (h !!! g) = k → isParent h g →
              (boxWidth m h g <= v)%Q)).
Proof.
  intros Hfo W.
  set (sorted := toSorted (cmpLevel h) (List.seq 0 (length h))).
  assert (∀ g, g ∈ sorted ↔ g < length h) as Hmem.
  { intros g. unfold sorted. rewrite toSorted_elem_of, elem_of_seq. lia. }
  destruct (widthLoop_inv m h sorted [] []) as (I1 & I2 & I3).
  { apply cmpLevel_sorted, NoDup_seq. }
  { simpl. intros g k Hg%Hmem Hk.
    destruct (level_closed h Hfo _ g k eq_refl Hg) as (g' & Hg' & Hl); [lia|].
    exists g'. by rewrite Hmem. }
  { split_and!; simpl.
    - intros k. split; [lia|]. by intros (g & ?%elem_of_nil & _).
    - intros k ?. lia.
    - by intros _ k (g & ?%elem_of_nil & _). }
  simpl in I1, I2, I3. fold sorted in I1, I2, I3.
  change (foldl (widthStep m h) [] sorted) with W in *.
  split_and!.
  - intros k. rewrite I1. by setoid_rewrite Hmem.
  - done.
  - intros Hm k (g & Hg & Hl & Hp).
    destruct (I3 Hm k) as (v & Hv & (g' & Hg' & ?) & Hub).
    { exists g. by rewrite Hmem. }
    exists v. split_and!; [done| |].
    + exists g'. by rewrite <-Hmem.
    + intros g'' Hg''. apply Hub. by rewrite Hmem.
Qed.

(** * The table of offsets *)

Lemma prefixLoop rest : ∀ done0 acc,
  foldl prefixStep (done0 ++ acc :: rest) (List.seq (S (length done0)) (length rest))
  = done0 ++ acc :: runningFrom acc rest.
Proof.
  induction rest as [|w rest IH]; intros done0 acc; simpl; [done|].
  unfold prefixStep at 2.
  replace (S (length done0) - 1) with (length done0) by lia.
  assert ((done0 ++ acc :: w :: rest) !!! length done0 = acc) as ->.
  { apply list_lookup_total_correct. by rewrite list_lookup_middle. }
  assert ((done0 ++ acc :: w :: rest) !!! S (length done0) = w) as ->.
  { apply list_lookup_total_correct.
    rewrite (assoc_L (++) done0 [acc] (w :: rest)
              : done0 ++ acc :: w :: rest = (done0 ++ [acc]) ++ w :: rest).
    rewrite list_lookup_middle; [done|]. rewrite length_app. simpl. lia. }
  replace (<[S (length done0):=(acc + w)%Q]> (done0 ++ acc :: w :: rest))
    with ((done0 ++ [acc]) ++ Qplus acc w :: rest).
  - replace (S (S (length done0))) with (S (length (done0 ++ [acc])))
      by (rewrite length_app; simpl; lia).
    rewrite IH. by rewrite <-app_assoc.
  - rewrite <-(assoc_L (++) done0 [acc]). simpl.
    replace (S (length done0)) with (length done0 + 1) by lia.
    rewrite insert_app_r. done.
Qed.

Lemma gapLoop rest : ∀ pre,
  foldl gapStep (pre ++ rest) (List.seq (length pre) (length rest))
  = pre ++ imap (λ i v, Qplus v (inject_Z (Z.of_nat (length pre + i + 1)) * 60)%Q) rest.
Proof.
  induction rest as [|w rest IH]; intros pre; simpl; [done|].
  unfold gapStep at 2.
  assert ((pre ++ w :: rest) !!! length pre = w) as ->.
  { apply list_lookup_total_correct. by rewrite list_lookup_middle. }
  replace (<[length pre:=(w + inject_Z (Z.of_nat (length pre + 1)) * 60)%Q]>
             (pre ++ w :: rest))
    with ((pre ++ [Qplus w (inject_Z (Z.of_nat (length pre + 1)) * 60)%Q]) ++ rest).
  - replace (S (length pre))
      with (length (pre ++ [Qplus w (inject_Z (Z.of_nat (length pre + 1)) * 60)%Q]))
      by (rewrite length_app; simpl; lia).
    rewrite IH, <-app_assoc. simpl. rewrite Nat.add_0_r. do 2 f_equal.
    apply imap_ext. intros i v _. simpl. rewrite length_app. simpl.
    do 4 f_equal. lia.
  - rewrite <-app_assoc. simpl.
    replace (length pre) with (length pre + 0) at 2 by lia.
    by rewrite insert_app_r.
Qed.

Lemma length_runningFrom l : ∀ acc, length (runningFrom acc l) = length l.
Proof. induction l as [|w l IH]; intros acc; simpl; [done|]. by rewrite IH. Qed.

Lemma prefixLoop0 w ws :
  foldl prefixStep (w :: ws) (List.seq 1 (length ws)) = w :: runningFrom w ws.
Proof. exact (prefixLoop ws [] w). Qed.

Lemma gapLoop0 l :
  foldl gapStep l (List.seq 0 (length l))
  = imap (λ i v, Qplus v (inject_Z (Z.of_nat (i + 1)) * 60)%Q) l.
Proof. exact (gapLoop l []). Qed.

Lemma offsetsOf_eq widths :
  offsetsOf widths =
  0%Q :: imap (λ i v, Qplus v (inject_Z (Z.of_nat (i + 1)) * 60)%Q)
           (match widths with [] => [] | w :: ws => w :: runningFrom w ws end).
Proof.
  unfold offsetsOf. destruct widths as [|w ws]; [done|].
  replace (length (w :: ws) - 1) with (length ws) by (simpl; lia).
  by rewrite prefixLoop0, gapLoop0.
Qed.

Lemma length_offsetsOf widths : length (offsetsOf widths) = S (length widths).
Proof.
  rewrite offsetsOf_eq. simpl. rewrite length_imap.
  destruct widths; simpl; [done|]. by rewrite length_runningFrom.
Qed.

Lemma running_refine ws : ∀ acc k prev f,
  (prev == acc + inject_Z (Z.of_nat k) * 60)%Q →
  (∀ i v, f i v = Qplus v (inject_Z (Z.of_nat (k + i + 1)) * 60)%Q) →
  Forall2 Qeq (imap f (runningFrom acc ws)) (offsetsFrom prev ws).
Proof.
  induction ws as [|w ws IH]; intros acc k prev f Hprev Hf; simpl.
  - constructor.
  - constructor.
    + rewrite Hf, Hprev. rewrite Nat.add_0_r, Nat2Z.inj_add, inject_Z_plus.
      simpl. ring.
    + apply (IH _ (S k)).
      * rewrite Hprev. rewrite Nat2Z.inj_succ, <-Z.add_1_r, inject_Z_plus.
        simpl. ring.
      * intros i v. simpl. rewrite Hf. do 4 f_equal. lia.
Qed.

Lemma offsets_refine widths : Forall2 Qeq (offsetsOf widths) (specOffsets widths).
Proof.
  rewrite offsetsOf_eq. unfold specOffsets. constructor; [reflexivity|].
  destruct widths as [|w ws]; simpl; [constructor|]. constructor.
  - simpl. ring.
  - apply (running_refine ws w 1).
    + simpl. ring.
    + intros i v. simpl. done.
Qed.

Lemma specOffsets_step ws : ∀ prev i o o',
  (prev :: offsetsFrom prev ws) !! i = Some o →
  (prev :: offsetsFrom prev ws) !! S i = Some o' →
  ∃ w, ws !! i = Some w ∧ o' = (o + w + 60)%Q.
Proof.
  induction ws as [|w ws IH]; intros prev i o o'; simpl.
  - by destruct i.
  - destruct i as [|i]; simpl.
    + intros [= <-] [= <-]. by exists w.
    + apply IH.
Qed.

Lemma offsetsOf_step ws i o o' :
  offsetsOf ws !! i = Some o → offsetsOf ws !! S i = Some o' →
  ∃ w, ws !! i = Some w ∧ (o' == o + w + 60)%Q.
Proof.
  intros Ho Ho'. pose proof (offsets_refine ws) as Href.
  destruct (Forall2_lookup_l _ _ _ _ _ Href Ho) as (so & Hso & Eo).
  destruct (Forall2_lookup_l _ _ _ _ _ Href Ho') as (so' & Hso' & Eo').
  destruct (specOffsets_step ws 0%Q i so so' Hso Hso') as (w & Hw & ->).
  exists w. split; [done|]. by rewrite Eo, Eo'.
Qed.

Lemma calcLevelOffset_spec m h :
  Forest h →
  let W := columnWidths m h (List.seq 0 (length h)) in
  ∃ ws, mapM id (pop W) = Some ws
    ∧ calcLevelOffset m h (List.seq 0 (length h)) = Some (offsetsOf ws)
    ∧ Forall (λ w, (0 <= w)%Q) ws
    ∧ length ws = length W - 1
    ∧ (∀ k w, ws !! k = Some w → W !! k = Some (Some w))
    ∧ (∀ g, g < length h → FileData.level (h !!! g) < length (offsetsOf ws)).
Proof.
  intros Hfo W. destruct (columnWidths_spec m h Hfo) as (I1 & I2 & _).
  fold W in I1, I2.
  assert (is_Some (mapM id (pop W))) as [ws Hws].
  { apply mapM_is_Some, Forall_forall. intros e He.
    apply list_elem_of_lookup in He as [k Hk]. unfold pop in Hk.
    apply lookup_take_Some in Hk as [Hk _].
    destruct (I2 k) as (v & Hv & _); [by eapply lookup_lt_Some|].
    rewrite Hk in Hv. injection Hv as ->. by eexists. }
  pose proof (mapM_Some_1 _ _ _ Hws) as Hall.
  assert (length ws = length W - 1) as Hlen.
  { rewrite <-(Forall2_length _ _ _ Hall). unfold pop. rewrite length_take. lia. }
  assert (∀ k w, ws !! k = Some w → W !! k = Some (Some w)) as Hlook.
  { intros k w Hk. destruct (Forall2_lookup_r _ _ _ _ _ Hall Hk) as (e & He & Hid).
    simpl in Hid. subst e. unfold pop in He. by apply lookup_take_Some in He as [? _]. }
  exists ws. split_and!; try done.
  - unfold calcLevelOffset. fold W. by rewrite Hws.
  - apply Forall_forall. intros w Hw. apply list_elem_of_lookup in Hw as [k Hk].
    apply Hlook in Hk. destruct (I2 k) as (v & Hv & Hv0); [by eapply lookup_lt_Some|].
    congruence.
  - intros g Hg. rewrite length_offsetsOf, Hlen.
    assert (FileData.level (h !!! g) < length W); [|lia]. apply I1. eauto.
Qed.

(** * Subtrees *)

Lemma sameRank_struct h h' : sameRank h h' → sameStruct h h'.
Proof.
  intros [Hl Hr]. split; [done|]. intros l. specialize (Hr l).
  unfold rankOf in Hr. congruence.
Qed.

Lemma sameRank_seq h h' l :
  sameRank h h' → FileData.seq (h' !!! l) = FileData.seq (h !!! l).
Proof. intros [_ Hr]. specialize (Hr l). unfold rankOf in Hr. congruence. Qed.

Lemma sameRank_refl h : sameRank h h.
Proof. done. Qed.

Lemma sameRank_trans h1 h2 h3 : sameRank h1 h2 → sameRank h2 h3 → sameRank h1 h3.
Proof.
  intros [L1 S1] [L2 S2]. split; [congruence|]. intros l. by rewrite S2, S1.
Qed.

Lemma sameRank_sym h h' : sameRank h h' → sameRank h' h.
Proof. intros [Hl Hs]. split; [done|]. intros l. by rewrite Hs. Qed.

Lemma sameRank_children h h' l :
  sameRank h h' → FileData.children (h' !!! l) = FileData.children (h !!! l).
Proof. intros Hs%sameRank_struct. by apply sameStruct_fields. Qed.

Lemma sameRank_level h h' l :
  sameRank h h' → FileData.level (h' !!! l) = FileData.level (h !!! l).
Proof. intros Hs%sameRank_struct. by apply (sameStruct_fields h h' l). Qed.

Lemma desc_rank h h' a d : sameRank h h' → desc h a d → desc h' a d.
Proof.
  intros Hs. induction 1 as [f|f c d Hc _ IH]; [constructor|].
  eapply desc_step; [|done]. by rewrite (sameRank_children h h').
Qed.

Lemma desc_trans h a b c : desc h a b → desc h b c → desc h a c.
Proof. induction 1; [done|]. intros. eapply desc_step; eauto. Qed.

Lemma desc_inv_last h a d :
  desc h a d → a = d ∨ ∃ p, desc h a p ∧ d ∈ FileData.children (h !!! p).
Proof.
  induction 1 as [f|f c d Hc Hd IH]; [by left|]. right.
  destruct IH as [->|(p & Hp & Hin)].
  - exists f. split; [constructor|done].
  - exists p. split; [by eapply desc_step|done].
Qed.

Lemma children_valid (h : list FileData) f c :
  c ∈ FileData.children (h !!! f) → f < length h.
Proof.
  intros Hc. destruct (decide (f < length h)); [done|].
  rewrite list_lookup_total_alt, lookup_ge_None_2 in Hc by lia.
  by apply elem_of_nil in Hc.
Qed.

Lemma desc_level h a d :
  Forest h → desc h a d →
  a = d ∨ (FileData.level (h !!! a) < FileData.level (h !!! d) ∧ d < length h).
Proof.
  intros Hfo. induction 1 as [f|f c d Hc Hd IH]; [by left|]. right.
  pose proof (children_valid h f c Hc) as Hf.
  destruct (fo_child h Hfo f c Hf Hc) as [Hcl Hlev].
  destruct IH as [<-|[Hlt Hdl]]; split; try done; lia.
Qed.

Lemma desc_valid h a d : Forest h → a < length h → desc h a d → d < length h.
Proof. intros Hfo Ha [->|[_ ?]]%desc_level; done. Qed.

Lemma desc_comparable h a b d :
  Forest h → desc h a d → desc h b d → desc h a b ∨ desc h b a.
Proof.
  intros Hfo Ha. revert b. induction Ha as [f|f c d Hc Hd IH]; intros b Hb.
  - by right.
  - destruct (IH b Hb) as [Hcb|Hbc].
    + left. by eapply desc_step.
    + apply desc_inv_last in Hbc as [->|(p & Hbp & Hin)].
      * left. eapply desc_step; [done|constructor].
      * assert (p = f) as ->.
        { eapply (fo_uniq h Hfo); [by eapply children_valid
                                   |by eapply children_valid|done..]. }
        by right.
Qed.

Lemma desc_same_level h a b d :
  Forest h → desc h a d → desc h b d →
  FileData.level (h !!! a) = FileData.level (h !!! b) → a = b.
Proof.
  intros Hfo Ha Hb Hlev.
  destruct (desc_comparable h a b d Hfo Ha Hb) as [H|H];
    apply desc_level in H as [?|[? _]]; try done; lia.
Qed.

Lemma siblings_apart h f c1 c2 d :
  Forest h → c1 ∈ FileData.children (h !!! f) → c2 ∈ FileData.children (h !!! f) →
  desc h c1 d → desc h c2 d → c1 = c2.
Proof.
  intros Hfo H1 H2 Hd1 Hd2. pose proof (children_valid h f c1 H1) as Hf.
  destruct (fo_child h Hfo f c1 Hf H1) as [_ L1].
  destruct (fo_child h Hfo f c2 Hf H2) as [_ L2].
  eapply desc_same_level; [done..|lia].
Qed.

Lemma child_desc_not_parent h f c :
  Forest h → c ∈ FileData.children (h !!! f) → ¬ desc h c f.
Proof.
  intros Hfo Hc Hd. pose proof (children_valid h f c Hc) as Hf.
  destruct (fo_child h Hfo f c Hf Hc) as [_ L1].
  apply desc_level in Hd as [->|[? _]]; [lia|lia|done].
Qed.

Lemma root_of h : Forest h → ∀ n g,
  FileData.level (h !!! g) = n → g < length h →
  ∃ r, r < length h ∧ isRoot h r ∧ desc h r g.
Proof.
  intros Hfo. induction n as [|n IH]; intros g Hlev Hg.
  - exists g. split_and!; [done|done|constructor].
  - destruct (fo_haspar h Hfo g Hg) as (p & Hp & Hin); [lia|].
    destruct (fo_child h Hfo p g Hp Hin) as [_ Hlp].
    destruct (IH p) as (r & Hr & Hroot & Hd); [lia|done|].
    exists r. split_and!; [done|done|].
    eapply desc_trans; [done|]. eapply desc_step; [done|constructor].
Qed.

(** * Ranks and visiting order *)

Lemma cmpSeq_cle h a b :
  cle (cmpSeq h) a b ↔ FileData.seq (h !!! a) ≤ FileData.seq (h !!! b).
Proof. unfold cle, cmpSeq. lia. Qed.

Lemma cmpSeq_sorted h l :
  NoDup l → StronglySorted (cle (cmpSeq h)) (toSorted (cmpSeq h) l).
Proof.
  intros Hnd. apply toSorted_sorted; [done| |].
  - intros a b _ _ _ Hgt. apply cmpSeq_cle. unfold cmpSeq in Hgt. lia.
  - intros a b c _ _ _. rewrite !cmpSeq_cle. lia.
Qed.

Lemma sorted_seq_first h l pre c post :
  NoDup l → goodRanks h l → toSorted (cmpSeq h) l = pre ++ c :: post →
  (pre = [] → FileData.seq (h !!! c) = 0)
  ∧ (pre ≠ [] → 1 ≤ FileData.seq (h !!! c)).
Proof.
  intros Hnd [Hinj Hzero] Heq.
  pose proof (cmpSeq_sorted h l Hnd) as Hs. rewrite Heq in Hs.
  pose proof (toSorted_NoDup (cmpSeq h) l Hnd) as Hnd'. rewrite Heq in Hnd'.
  assert (∀ a, a ∈ pre ++ c :: post → a ∈ l) as Hin.
  { intros a. rewrite <-Heq. apply toSorted_elem_of. }
  split.
  - intros ->. simpl in *. destruct Hzero as (z & Hz & Hz0).
    { intros ->. by apply (elem_of_nil c), Hin; left. }
    rewrite <-(toSorted_elem_of (cmpSeq h)), Heq in Hz.
    apply elem_of_cons in Hz as [->|Hz]; [done|].
    apply StronglySorted_cons in Hs as [Hall _].
    rewrite Forall_forall in Hall. apply Hall, cmpSeq_cle in Hz. lia.
  - intros Hpre. destruct pre as [|p pre]; [done|].
    assert (cle (cmpSeq h) p c) as Hpc%cmpSeq_cle.
    { eapply (StronglySorted_app_1_elem_of _ (p :: pre) (c :: post));
        [done|by left|by left]. }
    assert (p ≠ c) as Hne.
    { intros ->. apply NoDup_app in Hnd' as (_ & Hd & _).
      apply (Hd c); by left. }
    assert (FileData.seq (h !!! p) ≠ FileData.seq (h !!! c)); [|lia].
    intros E. apply Hne, Hinj; [apply Hin; by left| |done].
    apply Hin, elem_of_app. right. by left.
Qed.

(** * [setFilePos] *)

Lemma cmpSeq_rank h h' a b : sameRank h h' → cmpSeq h' a b = cmpSeq h a b.
Proof.
  intros Hs. unfold cmpSeq.
  by rewrite (sameRank_seq h h' a), (sameRank_seq h h' b).
Qed.

Lemma kids_rank h h' f : sameRank h h' → kids h' f = kids h f.
Proof.
  intros Hs. unfold kids. rewrite (sameRank_children h h') by done.
  apply toSorted_ext. intros a b. by apply cmpSeq_rank.
Qed.

Lemma kids_elem h f c : c ∈ kids h f ↔ c ∈ FileData.children (h !!! f).
Proof. apply toSorted_elem_of. Qed.

Lemma rowShift_rank h h' f : sameRank h h' → rowShift h' f = rowShift h f.
Proof. intros Hs. unfold rowShift. by rewrite (sameRank_seq h h'). Qed.

Lemma rowShift_cases h f :
  (FileData.seq (h !!! f) = 0 ∧ rowShift h f = 0%Z)
  ∨ (1 ≤ FileData.seq (h !!! f) ∧ rowShift h f = 48%Z).
Proof. unfold rowShift. destruct (FileData.seq (h !!! f)); [left|right]; split; lia. Qed.

Lemma goodRanks_rank h h' l : sameRank h h' → goodRanks h l → goodRanks h' l.
Proof.
  intros Hs [Hinj Hz]. split.
  - intros a b. rewrite !(sameRank_seq h h') by done. apply Hinj.
  - intros Hne. destruct (Hz Hne) as (z & ? & ?). exists z.
    by rewrite (sameRank_seq h h').
Qed.

Lemma Ready_rank lo h h' : sameRank h h' → Ready lo h → Ready lo h'.
Proof.
  intros Hs [Hfo Hrk Hlv]. pose proof Hs as [Hlen _]. split.
  - eapply Forest_struct; [|done]. by apply sameRank_struct.
  - intros f. rewrite Hlen, (sameRank_children h h') by done.
    intros Hf. eapply goodRanks_rank; eauto.
  - intros g. rewrite Hlen, (sameRank_level h h') by done. apply Hlv.
Qed.

Lemma Placed_stable lo h h' g :
  sameRank h h' → (∀ d, desc h g d → h' !!! d = h !!! d) →
  Placed lo h g → Placed lo h' g.
Proof.
  intros Hs Heq [Hx Hb Hf Ha].
  assert (h' !!! g = h !!! g) as Eg by (apply Heq; constructor).
  assert (∀ c, c ∈ FileData.children (h !!! g) → h' !!! c = h !!! c) as Ec.
  { intros c Hc. apply Heq. eapply desc_step; [done|constructor]. }
  split; rewrite ?Eg.
  - done.
  - intros c Hc. rewrite Ec by done. by apply Hb.
  - intros Hne. destruct (Hf Hne) as (c & Hc & Hc0 & Hcy). exists c.
    by rewrite Ec.
  - intros c1 c2 d1 d2 H1 H2 Hne Hd1 Hd2.
    apply (desc_rank h' h) in Hd1, Hd2; try by apply sameRank_sym.
    rewrite (Heq d1) by by eapply (desc_step h g c1).
    rewrite (Heq d2) by by eapply (desc_step h g c2).
    by apply (Ha c1 c2).
Qed.

Lemma sameRank_set_pos h xv yv f : sameRank h (alter (FileData.set_pos xv yv) f h).
Proof.
  split; [by rewrite length_alter|]. intros k.
  rewrite list_lookup_total_alter. case_decide as Hd; [|done].
  by destruct Hd as [-> _].
Qed.

Lemma visit_children n lo h f yf :
  (∀ c baseY hc, Ready lo hc → c < length hc →
     length lo ≤ FileData.level (hc !!! c) + n →
     ∃ last h', setFilePos n lo c baseY hc = Some (last, h')
                ∧ Post lo hc c baseY last h') →
  Ready lo h → f < length h → length lo ≤ FileData.level (h !!! f) + S n →
  ∀ post pre last hc,
    kids h f = pre ++ post →
    LoopInv lo h f yf pre last hc →
    ∃ last' h',
      foldl (visitChild (setFilePos n lo)) (Some (last, hc)) post = Some (last', h')
      ∧ LoopInv lo h f yf (pre ++ post) last' h'.
Proof.
  intros IHn Hrd Hf Hfuel. pose proof (rd_forest lo h Hrd) as Hfo.
  induction post as [|c post IH]; intros pre last hc Hkids Hinv.
  - exists last, hc. by rewrite app_nil_r.
  - simpl. destruct Hinv as [Hrk Hout Hlast Hlast0 Hy Hx Hspan Hpl Hfirst Hapart].
    assert (c ∈ FileData.children (h !!! f)) as Hc.
    { apply kids_elem. rewrite Hkids. apply elem_of_app. right. by left. }
    destruct (fo_child h Hfo f c Hf Hc) as [Hcl Hclev].
    assert (NoDup (pre ++ c :: post)) as Hnd.
    { rewrite <-Hkids. apply toSorted_NoDup. by apply (fo_nodup h Hfo). }
    assert (∀ c0, c0 ∈ pre → c0 ∈ FileData.children (h !!! f) ∧ c0 ≠ c) as Hpre.
    { intros c0 Hc0. split.
      - apply kids_elem. rewrite Hkids. apply elem_of_app. by left.
      - intros ->. apply NoDup_app in Hnd as (_ & Hd & _).
        apply (Hd c Hc0). by left. }
    pose proof (Ready_rank lo h hc Hrk Hrd) as Hrdc.
    pose proof Hrk as [Hlenc _].
    destruct (IHn c (FileData.y (hc !!! last)) hc Hrdc) as (last' & h' & Hcall & Hpost).
    { lia. }
    { rewrite (sameRank_level h hc) by done. lia. }
    rewrite Hcall.
    destruct Hpost as [Qrk Qout Qlast Qy Qspan Qpl].
    assert (∀ d, desc hc c d ↔ desc h c d) as Hdc.
    { intros d. split; apply desc_rank; [by apply sameRank_sym|done]. }
    assert (∀ c0 d, c0 ∈ pre → desc h c0 d → h' !!! d = hc !!! d) as Hkeep.
    { intros c0 d Hc0 Hd. apply Qout. rewrite Hdc. intros Hd'.
      destruct (Hpre c0 Hc0) as [Hin Hne]. apply Hne.
      by eapply siblings_apart. }
    assert (h' !!! f = hc !!! f) as Hkeepf.
    { apply Qout. rewrite Hdc. by apply child_desc_not_parent. }
    pose proof (rowShift_cases hc c) as Hshift.
    rewrite (rowShift_rank h hc c Hrk) in Qy.
    rewrite (sameRank_seq h hc c Hrk), (rowShift_rank h hc c Hrk) in Hshift.
    assert ((yf ≤ FileData.y (hc !!! last))%Z) as Hyl.
    { pose proof (Hspan f (or_introl eq_refl)). lia. }
    assert ((FileData.y (h' !!! c) ≤ FileData.y (h' !!! last'))%Z) as Hcl'.
    { apply Qspan. constructor. }
    destruct (sorted_seq_first h (FileData.children (h !!! f)) pre c post)
      as [Hseq0 Hseq1]; [by apply (fo_nodup h Hfo)|by apply (rd_ranks lo h Hrd)|done|].
    rewrite (assoc_L (++) pre [c] post : pre ++ c :: post = (pre ++ [c]) ++ post) in *.
    apply IH; [done|]. split.
    + by eapply sameRank_trans.
    + intros d Hd. rewrite Qout, Hout; [done|done|].
      rewrite Hdc. intros Hd'. apply Hd. by eapply desc_step.
    + eapply desc_step; [done|]. by apply Hdc.
    + by intros ?%app_eq_nil%proj2.
    + by rewrite Hkeepf.
    + by rewrite Hkeepf.
    + intros d [->|(c0 & [Hc0| ->%list_elem_of_singleton]%elem_of_app & Hd)].
      * rewrite Hkeepf, Hy. lia.
      * rewrite (Hkeep c0 d Hc0 Hd).
        assert ((yf ≤ FileData.y (hc !!! d) ≤ FileData.y (hc !!! last))%Z)
          by (apply Hspan; eauto). lia.
      * apply Hdc in Hd. specialize (Qspan d Hd). lia.
    + intros c0 g [Hc0| ->%list_elem_of_singleton]%elem_of_app Hg.
      * apply (Placed_stable lo hc h' g Qrk); [|by eapply Hpl].
        intros d Hd%(desc_rank hc h); [|by apply sameRank_sym].
        apply (Hkeep c0 d Hc0). by eapply desc_trans.
      * apply Qpl. by apply Hdc.
    + intros _. destruct pre as [|p pre].
      * exists c. split_and!; [by left|by apply Hseq0|].
        rewrite Qy, (Hlast0 eq_refl), Hy.
        destruct Hshift as [[_ ->]|[Hs1 _]]; [lia|].
        rewrite (Hseq0 eq_refl) in Hs1. lia.
      * destruct Hfirst as (c0 & Hc0 & Hc00 & Hc0y); [done|].
        exists c0. split_and!; [apply elem_of_app; by left|done|].
        rewrite (Hkeep c0 c0 Hc0); [done|constructor].
    + assert (∀ c1 d1 d2, c1 ∈ pre → desc h c1 d1 → desc h c d2 →
                (FileData.y (h' !!! d1) < FileData.y (h' !!! d2))%Z) as Hlt.
      { intros c1 d1 d2 Hc1 Hd1 Hd2. rewrite (Hkeep c1 d1 Hc1 Hd1).
        assert ((FileData.y (hc !!! d1) ≤ FileData.y (hc !!! last))%Z)
          by (apply Hspan; eauto).
        apply Hdc in Hd2. specialize (Qspan d2 Hd2).
        assert (pre ≠ []) as Hne by (intros ->; by apply elem_of_nil in Hc1).
        destruct Hshift as [[Hs0 _]|[_ Hs48]]; [specialize (Hseq1 Hne); lia|].
        lia. }
      intros c1 c2 d1 d2 [H1| ->%list_elem_of_singleton]%elem_of_app
        [H2| ->%list_elem_of_singleton]%elem_of_app Hne Hd1 Hd2.
      * rewrite (Hkeep c1 d1 H1 Hd1), (Hkeep c2 d2 H2 Hd2).
        by apply (Hapart c1 c2).
      * specialize (Hlt c1 d1 d2 H1 Hd1 Hd2). lia.
      * specialize (Hlt c2 d2 d1 H2 Hd2 Hd1). lia.
      * done.
Qed.

Lemma setFilePos_S n lo f baseY h :
  setFilePos (S n) lo f baseY h =
  xv ← lo !! FileData.level (h !!! f);
  foldl (visitChild (setFilePos n lo))
    (Some (f, alter (FileData.set_pos xv (baseY + rowShift h f)) f h))
    (kids (alter (FileData.set_pos xv (baseY + rowShift h f)) f h) f).
Proof. done. Qed.

Lemma setFilePos_spec lo : ∀ n f baseY h,
  Ready lo h → f < length h → length lo ≤ FileData.level (h !!! f) + n →
  ∃ last h', setFilePos n lo f baseY h = Some (last, h')
             ∧ Post lo h f baseY last h'.
Proof.
  induction n as [|n IHn]; intros f baseY h Hrd Hf Hfuel.
  - pose proof (rd_levels lo h Hrd f Hf). lia.
  - pose proof (rd_forest lo h Hrd) as Hfo.
    destruct (lookup_lt_is_Some_2 lo (FileData.level (h !!! f))) as [xv Hxv].
    { by apply (rd_levels lo h Hrd). }
    rewrite setFilePos_S, Hxv. simpl.
    set (yv := (baseY + rowShift h f)%Z).
    set (h1 := alter (FileData.set_pos xv yv) f h).
    pose proof (sameRank_set_pos h xv yv f) as Hrk1. fold h1 in Hrk1.
    rewrite (kids_rank h h1 f Hrk1).
    assert (h1 !!! f = FileData.set_pos xv yv (h !!! f)) as Hh1f.
    { unfold h1. by rewrite list_lookup_total_alter_eq. }
    destruct (visit_children n lo h f yv IHn Hrd Hf Hfuel (kids h f) [] f h1 eq_refl)
      as (last & h' & Hloop & Hinv).
    { split; try done.
      - intros d Hd. unfold h1. rewrite list_lookup_total_alter_ne; [done|].
        intros ->. apply Hd. constructor.
      - constructor.
      - by rewrite Hh1f.
      - by rewrite Hh1f.
      - intros d [->|(c & ?%elem_of_nil & _)]; [|done]. rewrite Hh1f. simpl. lia.
      - by intros c g ?%elem_of_nil.
      - by intros c1 c2 d1 d2 ?%elem_of_nil. }
    exists last, h'. split; [done|]. simpl in Hinv.
    destruct Hinv as [Hrk Hout Hlast _ Hy Hx Hspan Hpl Hfirst Hapart].
    assert (∀ d, desc h f d → d = f ∨ ∃ c, c ∈ kids h f ∧ desc h c d) as Hcases.
    { intros d Hd. inversion Hd as [|? c ? Hc Hcd]; subst; [by left|].
      right. exists c. by rewrite kids_elem. }
    split; try done.
    + intros d Hd%Hcases. rewrite Hy. by apply Hspan.
    + intros g [->|(c & Hc & Hg)]%Hcases; [|by eapply Hpl].
      split.
      * done.
      * intros c Hc. rewrite (sameRank_children h h') in Hc by done.
        rewrite Hy. apply Hspan. right. exists c. rewrite kids_elem.
        split; [done|constructor].
      * rewrite (sameRank_children h h') by done. intros Hne.
        destruct Hfirst as (c & Hc & Hc0 & Hcy).
        { intros E. apply Hne. apply Permutation_nil_r.
          unfold kids in E. by rewrite <-E, toSorted_perm. }
        exists c. rewrite <-kids_elem, (sameRank_seq h h'), Hy by done. done.
      * intros c1 c2 d1 d2. rewrite (sameRank_children h h') by done.
        intros H1 H2 Hne Hd1 Hd2.
        apply (desc_rank h' h) in Hd1, Hd2; try by apply sameRank_sym.
        apply (Hapart c1 c2); try done; by apply kids_elem.
Qed.

(** * The loop over the roots *)

Lemma ranked_children h f :
  Forest h → Ranked h → f < length h → goodRanks h (FileData.children (h !!! f)).
Proof.
  intros Hfo [Hrk _] Hf. split.
  - intros a b Ha Hb Heq.
    apply sortedChildren_elem, list_elem_of_lookup in Ha as [i Hi].
    apply sortedChildren_elem, list_elem_of_lookup in Hb as [j Hj].
    rewrite (Hrk f i a Hf Hi), (Hrk f j b Hf Hj) in Heq. subst j. congruence.
  - intros Hne. destruct (sortedChildren h f) as [|z l] eqn:E.
    + exfalso. apply Hne. apply Permutation_nil_r.
      unfold sortedChildren in E. by rewrite <-E, toSorted_perm.
    + exists z. split.
      * apply sortedChildren_elem. rewrite E. by left.
      * apply (Hrk f 0 z Hf). by rewrite E.
Qed.

Lemma Ready_intro lo h :
  Forest h → Ranked h →
  (∀ g, g < length h → FileData.level (h !!! g) < length lo) → Ready lo h.
Proof. intros Hfo Hrk Hlv. split; [done| |done]. intros f. by apply ranked_children. Qed.

Lemma seq_split_at n a : a < n → List.seq 0 n = List.seq 0 a ++ a :: List.seq (S a) (n - S a).
Proof.
  intros Ha. replace n with (a + S (n - S a)) at 1 by lia.
  by rewrite seq_app.
Qed.

Lemma least_root h n :
  (∃ a, a < n ∧ isRoot h a) →
  ∃ z, z < n ∧ isRoot h z ∧ ∀ x, x < z → ¬ isRoot h x.
Proof.
  induction n as [|n IH]; intros (a & Ha & Hpa); [lia|].
  destruct (decide (Exists (isRoot h) (List.seq 0 n))) as [Hex|Hnex].
  - apply Exists_exists in Hex as (b & Hb%elem_of_seq & Hpb).
    destruct IH as (z & Hz & Hpz & Hmin); [exists b; split; [lia|done]|].
    exists z. split; [lia|done].
  - rewrite Exists_exists in Hnex.
    assert (∀ b, b < n → ¬ isRoot h b) as Hno.
    { intros b Hb Hpb. apply Hnex. exists b. split; [|done].
      apply elem_of_seq. lia. }
    assert (a = n) as ->.
    { destruct (decide (a = n)); [done|]. exfalso. apply (Hno a); [lia|done]. }
    exists n. split_and!; [lia|done|done].
Qed.

Lemma ranked_roots h :
  Ranked h →
  goodRanks h (filter (λ f, FileData.level (h !!! f) = 0) (List.seq 0 (length h))).
Proof.
  intros [_ Hrt].
  set (group := filter (λ f, FileData.level (h !!! f) = 0) (List.seq 0 (length h))).
  assert (∀ a b, a < b → b < length h → isRoot h a →
            length (filter (isRoot h) (List.seq 0 a))
            < length (filter (isRoot h) (List.seq 0 b))) as Hlt.
  { intros a b Hab Hb Ha. rewrite (seq_split_at b a Hab), filter_app, length_app.
    rewrite filter_cons_True by done. simpl. lia. }
  assert (∀ a, a ∈ group ↔ a < length h ∧ isRoot h a) as Hmem.
  { intros a. unfold group. rewrite list_elem_of_filter, elem_of_seq. split.
    - intros [? [_ ?]]. split; [lia|done].
    - intros [? ?]. split; [done|lia]. }
  split.
  - intros a b [Ha Hpa]%Hmem [Hb Hpb]%Hmem.
    rewrite (Hrt a Ha Hpa), (Hrt b Hb Hpb). intros Heq.
    destruct (Nat.lt_trichotomy a b) as [Hab|[->|Hba]]; [|done|].
    + specialize (Hlt a b Hab Hb Hpa). lia.
    + specialize (Hlt b a Hba Ha Hpb). lia.
  - intros Hne. destruct (least_root h (length h)) as (z & Hz & Hpz & Hmin).
    { assert (∃ a, a ∈ group) as [a Ha].
      { clear Hmem. destruct group as [|a l]; [done|]. exists a. by left. }
      exists a. by apply Hmem. }
    exists z. split; [by apply Hmem|]. rewrite (Hrt z Hz Hpz).
    destruct (filter (isRoot h) (List.seq 0 z)) as [|x l] eqn:E; [done|].
    exfalso. assert (x ∈ filter (isRoot h) (List.seq 0 z)) as Hin
      by (rewrite E; by left).
    apply list_elem_of_filter in Hin as [Hpx Hin%elem_of_seq].
    apply (Hmin x); [lia|done].
Qed.

Lemma roots_apart h r1 r2 d :
  Forest h → isRoot h r1 → isRoot h r2 → desc h r1 d → desc h r2 d → r1 = r2.
Proof.
  intros Hfo H1 H2 Hd1 Hd2. eapply desc_same_level; [done..|].
  unfold isRoot in *. congruence.
Qed.

Lemma visitRoot_Some fuel lo lastChild hc r last h' :
  setFilePos fuel lo r
    (match lastChild with Some l => FileData.y (hc !!! l) | None => 0%Z end) hc
  = Some (last, h') →
  visitRoot fuel lo (Some (lastChild, hc)) r = Some (Some last, h').
Proof. intros Hcall. unfold visitRoot. simpl. by rewrite Hcall. Qed.

Lemma visit_roots lo h :
  Ready lo h → Ranked h →
  ∀ post pre lastChild hc,
    rootsOf h (List.seq 0 (length h)) = pre ++ post →
    RootInv lo h pre lastChild hc →
    ∃ lastChild' h',
      foldl (visitRoot (length lo) lo) (Some (lastChild, hc)) post
      = Some (lastChild', h')
      ∧ RootInv lo h (pre ++ post) lastChild' h'.
Proof.
  intros Hrd Hranked. pose proof (rd_forest lo h Hrd) as Hfo.
  set (group := filter (λ f, FileData.level (h !!! f) = 0) (List.seq 0 (length h))).
  assert (NoDup group) as Hndg by apply NoDup_filter, NoDup_seq.
  assert (∀ r, r ∈ rootsOf h (List.seq 0 (length h)) → r < length h ∧ isRoot h r)
    as Hroots.
  { intros r. unfold rootsOf. rewrite toSorted_elem_of, list_elem_of_filter,
      elem_of_seq. intros [? [_ ?]]. split; [lia|done]. }
  induction post as [|r post IH]; intros pre lastChild hc Hsplit Hinv.
  - exists lastChild, hc. by rewrite app_nil_r.
  - change (foldl (visitRoot (length lo) lo) (Some (lastChild, hc)) (r :: post))
      with (foldl (visitRoot (length lo) lo)
              (visitRoot (length lo) lo (Some (lastChild, hc)) r) post).
    destruct Hinv as [Hrk Hout Hnone Hspan Hpl Hapart Hfirst].
    assert (r < length h ∧ isRoot h r) as [Hr Hroot].
    { apply Hroots. rewrite Hsplit. apply elem_of_app. right. by left. }
    assert (NoDup (pre ++ r :: post)) as Hnd.
    { rewrite <-Hsplit. by apply toSorted_NoDup. }
    assert (∀ r0, r0 ∈ pre → isRoot h r0 ∧ r0 ≠ r) as Hpre.
    { intros r0 Hr0. split.
      - apply Hroots. rewrite Hsplit. apply elem_of_app. by left.
      - intros ->. apply NoDup_app in Hnd as (_ & Hd & _).
        apply (Hd r Hr0). by left. }
    pose proof (Ready_rank lo h hc Hrk Hrd) as Hrdc.
    pose proof Hrk as [Hlenc _].
    set (baseY := match lastChild with
                  | Some l => FileData.y (hc !!! l) | None => 0%Z end).
    destruct (setFilePos_spec lo (length lo) r baseY hc Hrdc)
      as (last' & h' & Hcall & Hpost); [lia|lia|].
    rewrite (visitRoot_Some _ _ _ _ _ _ _ Hcall).
    destruct Hpost as [Qrk Qout Qlast Qy Qspan Qpl].
    assert (∀ d, desc hc r d ↔ desc h r d) as Hdc.
    { intros d. split; apply desc_rank; [by apply sameRank_sym|done]. }
    assert (∀ r0 d, r0 ∈ pre → desc h r0 d → h' !!! d = hc !!! d) as Hkeep.
    { intros r0 d Hr0 Hd. apply Qout. rewrite Hdc. intros Hd'.
      destruct (Hpre r0 Hr0) as [Hroot0 Hne]. apply Hne.
      by eapply roots_apart. }
    pose proof (rowShift_cases hc r) as Hshift.
    rewrite (rowShift_rank h hc r Hrk) in Qy.
    rewrite (sameRank_seq h hc r Hrk), (rowShift_rank h hc r Hrk) in Hshift.
    destruct (sorted_seq_first h group pre r post Hndg (ranked_roots h Hranked) Hsplit)
      as [Hseq0 Hseq1].
    assert ((0 ≤ baseY)%Z ∧ ∀ r0 d, r0 ∈ pre → desc h r0 d →
              (FileData.y (hc !!! d) ≤ baseY)%Z) as [Hb0 Hbub].
    { unfold baseY. destruct lastChild as [l|].
      - split.
        + destruct pre as [|p pre]; [by apply proj1 in Hnone; specialize (Hnone eq_refl)|].
          assert ((0 ≤ FileData.y (hc !!! p) ≤ FileData.y (hc !!! l))%Z)
            by (apply (Hspan l p p); [done|by left|constructor]). lia.
        + intros r0 d Hr0 Hd. by apply (Hspan l r0 d).
      - split; [done|]. intros r0 d Hr0. apply proj2 in Hnone.
        rewrite (Hnone eq_refl) in Hr0. by apply elem_of_nil in Hr0. }
    rewrite (assoc_L (++) pre [r] post : pre ++ r :: post = (pre ++ [r]) ++ post) in *.
    apply IH; [done|]. split.
    + by eapply sameRank_trans.
    + intros d Hd. rewrite Qout, Hout; [done| |].
      * intros r0 Hr0. apply Hd, elem_of_app. by left.
      * rewrite Hdc. apply Hd, elem_of_app. right. by left.
    + split; [by intros ?%app_eq_nil%proj2|done].
    + intros last r0 d [= <-] [Hr0| ->%list_elem_of_singleton]%elem_of_app Hd.
      * rewrite (Hkeep r0 d Hr0 Hd).
        assert ((0 ≤ FileData.y (hc !!! d))%Z).
        { destruct lastChild as [l|].
          - by apply (Hspan l r0 d).
          - apply proj2 in Hnone. rewrite (Hnone eq_refl) in Hr0.
            by apply elem_of_nil in Hr0. }
        specialize (Hbub r0 d Hr0 Hd).
        assert ((FileData.y (h' !!! r) ≤ FileData.y (h' !!! last'))%Z)
          by (apply Qspan; constructor). lia.
      * apply Hdc in Hd. specialize (Qspan d Hd). lia.
    + intros r0 g [Hr0| ->%list_elem_of_singleton]%elem_of_app Hg.
      * apply (Placed_stable lo hc h' g Qrk); [|by eapply Hpl].
        intros d Hd%(desc_rank hc h); [|by apply sameRank_sym].
        apply (Hkeep r0 d Hr0). by eapply desc_trans.
      * apply Qpl. by apply Hdc.
    + assert (∀ r1 d1 d2, r1 ∈ pre → desc h r1 d1 → desc h r d2 →
                (FileData.y (h' !!! d1) < FileData.y (h' !!! d2))%Z) as Hlt.
      { intros r1 d1 d2 Hr1 Hd1 Hd2. rewrite (Hkeep r1 d1 Hr1 Hd1).
        specialize (Hbub r1 d1 Hr1 Hd1).
        apply Hdc in Hd2. specialize (Qspan d2 Hd2).
        assert (pre ≠ []) as Hne by (intros ->; by apply elem_of_nil in Hr1).
        destruct Hshift as [[Hs0 _]|[_ Hs48]]; [specialize (Hseq1 Hne); lia|].
        lia. }
      intros r1 r2 d1 d2 [H1| ->%list_elem_of_singleton]%elem_of_app
        [H2| ->%list_elem_of_singleton]%elem_of_app Hne Hd1 Hd2.
      * rewrite (Hkeep r1 d1 H1 Hd1), (Hkeep r2 d2 H2 Hd2).
        by apply (Hapart r1 r2).
      * specialize (Hlt r1 d1 d2 H1 Hd1 Hd2). lia.
      * specialize (Hlt r2 d2 d1 H2 Hd2 Hd1). lia.
      * done.
    + intros r0 Hhead. destruct pre as [|p pre]; simpl in Hhead.
      * injection Hhead as <-. rewrite Qy.
        destruct lastChild as [l|];
          [by apply proj1 in Hnone; specialize (Hnone eq_refl)|].
        unfold baseY. destruct Hshift as [[_ ->]|[Hs1 _]]; [lia|].
        rewrite (Hseq0 eq_refl) in Hs1. lia.
      * injection Hhead as <-. rewrite (Hkeep p p); [|by left|constructor].
        by apply Hfirst.
Qed.

Lemma placeRoots_spec lo h :
  Ready lo h → Ranked h →
  ∃ lastChild H,
    placeRoots (length lo) lo h (List.seq 0 (length h)) = Some (lastChild, H)
    ∧ sameRank h H
    ∧ (∀ g, g < length h → Placed lo H g ∧ (0 ≤ FileData.y (H !!! g))%Z)
    ∧ (∀ r1 r2 d1 d2, isRoot h r1 → isRoot h r2 → r1 < length h → r2 < length h →
         r1 ≠ r2 → desc h r1 d1 → desc h r2 d2 →
         FileData.y (H !!! d1) ≠ FileData.y (H !!! d2))
    ∧ (∀ r, head (rootsOf h (List.seq 0 (length h))) = Some r →
         FileData.y (H !!! r) = 0%Z).
Proof.
  intros Hrd Hranked. pose proof (rd_forest lo h Hrd) as Hfo.
  destruct (visit_roots lo h Hrd Hranked (rootsOf h (List.seq 0 (length h)))
              [] None h eq_refl) as (lc & H & Hrun & Hinv).
  { split; try done.
    - by intros r g ?%elem_of_nil.
    - by intros r1 r2 d1 d2 ?%elem_of_nil. }
  simpl in Hinv. destruct Hinv as [Hrk Hout Hnone Hspan Hpl Hapart Hfirst].
  assert (∀ r, r < length h → isRoot h r → r ∈ rootsOf h (List.seq 0 (length h)))
    as Hroots.
  { intros r Hr Hroot. unfold rootsOf.
    rewrite toSorted_elem_of, list_elem_of_filter, elem_of_seq. split; [done|lia]. }
  exists lc, H. split_and!; try done.
  - intros g Hg. destruct (root_of h Hfo _ g eq_refl Hg) as (r & Hr & Hroot & Hd).
    pose proof (Hroots r Hr Hroot) as Hin. split; [by eapply Hpl|].
    destruct lc as [l|].
    + by apply (Hspan l r g).
    + apply proj2 in Hnone. rewrite (Hnone eq_refl) in Hin.
      by apply elem_of_nil in Hin.
  - intros r1 r2 d1 d2 H1 H2 L1 L2 Hne Hd1 Hd2.
    apply (Hapart r1 r2); auto.
Qed.

(** * The whole of [createFileDatas] *)

Lemma cmpLevel_struct h h' a b : sameStruct h h' → cmpLevel h' a b = cmpLevel h a b.
Proof.
  intros Hs. unfold cmpLevel.
  destruct (sameStruct_fields h h' a Hs) as (-> & -> & _).
  destruct (sameStruct_fields h h' b Hs) as (-> & -> & _). done.
Qed.

Lemma widthStep_struct m h h' lo f :
  sameStruct h h' → widthStep m h' lo f = widthStep m h lo f.
Proof.
  intros Hs. unfold widthStep.
  by destruct (sameStruct_fields h h' f Hs) as (-> & -> & -> & _).
Qed.

Lemma foldl_ext' {A B} (f g : A → B → A) l : ∀ a,
  (∀ a b, f a b = g a b) → foldl f a l = foldl g a l.
Proof. induction l as [|b l IH]; intros a E; simpl; [done|]. by rewrite E, IH. Qed.

Lemma columnWidths_struct m h h' vs :
  sameStruct h h' → columnWidths m h' vs = columnWidths m h vs.
Proof.
  intros Hs. unfold columnWidths.
  rewrite (toSorted_ext (cmpLevel h') (cmpLevel h))
    by (intros; by apply cmpLevel_struct).
  apply foldl_ext'. intros. by apply widthStep_struct.
Qed.

Lemma rootsOf_rank h h' vs : sameRank h h' → rootsOf h' vs = rootsOf h vs.
Proof.
  intros Hs. unfold rootsOf.
  rewrite (toSorted_ext (cmpSeq h') (cmpSeq h)) by (intros; by apply cmpSeq_rank).
  f_equal. apply list_filter_iff. intros l. by rewrite (sameRank_level h h').
Qed.

Lemma Ranked_rank h h' : sameRank h h' → Ranked h → Ranked h'.
Proof.
  intros Hs [Hc Hr]. pose proof (sameRank_struct _ _ Hs) as Hst.
  destruct Hs as [Hlen Hrk]. split.
  - intros f i c. rewrite Hlen, (sortedChildren_struct h h' f Hst).
    rewrite (sameRank_seq h h' c (conj Hlen Hrk)). apply Hc.
  - intros r. rewrite Hlen, (isRoot_struct h h' r Hst).
    rewrite (sameRank_seq h h' r (conj Hlen Hrk)). intros Hr1 Hr2.
    rewrite (Hr r Hr1 Hr2). f_equal. apply list_filter_iff.
    intros l. symmetry. by apply isRoot_struct.
Qed.

Lemma createFileDatas_eq m fps lo lc H :
  calcLevelOffset m (setSeqs (buildTree fps))
    (Map_values (filesMap (buildTree fps))) = Some lo →
  placeRoots (length lo) lo (setSeqs (buildTree fps))
    (Map_values (filesMap (buildTree fps))) = Some (lc, H) →
  createFileDatas m fps
  = Some (mkLayout (Map_values (filesMap (buildTree fps))) H lo).
Proof. unfold createFileDatas. intros ->. simpl. by intros ->. Qed.

Theorem layout_laid m fps : ∃ r, createFileDatas m fps = Some r ∧ Laid m fps r.
Proof.
  set (s := buildTree fps). set (h := setSeqs s).
  destruct (setSeqs_spec fps) as (Hst & Hfo & Hrk). fold s h in Hst, Hfo, Hrk.
  pose proof (buildTree_inv fps) as Hinv. fold s in Hinv.
  assert (Map_values (filesMap s) = List.seq 0 (length h)) as Hvs.
  { rewrite (proj1 Hst). apply (inv_keys2 _ _ _ (tree_static _ _ Hinv)). }
  destruct (calcLevelOffset_spec m h Hfo) as (ws & Hws & Hcalc & Hpos & Hlen & Hlook & Hlev).
  set (lo := offsetsOf ws) in *.
  pose proof (Ready_intro lo h Hfo Hrk Hlev) as Hrd.
  destruct (placeRoots_spec lo h Hrd Hrk)
    as (lc & H & Hrun & Hrank & Hplaced & Hroots & Hfirst).
  exists (mkLayout (List.seq 0 (length h)) H lo). split.
  - rewrite <-Hvs in *. by apply (createFileDatas_eq m fps lo lc H).
  - pose proof (sameRank_struct _ _ Hrank) as HstH.
    pose proof Hrank as [HlenH _].
    split; simpl.
    + by rewrite HlenH.
    + by eapply sameStruct_trans.
    + by eapply Forest_struct.
    + by eapply Ranked_rank.
    + exists ws. split_and!; [|done|done].
      by rewrite (columnWidths_struct m h H).
    + intros g. rewrite HlenH. apply Hplaced.
    + intros g. rewrite HlenH. apply Hplaced.
    + intros r1 r2 d1 d2. rewrite HlenH, !(isRoot_struct h H) by done.
      intros L1 L2 R1 R2 Hne D1 D2.
      apply (Hroots r1 r2); try done; eapply desc_rank; eauto using sameRank_sym.
    + intros r0. rewrite (rootsOf_rank h H) by done. apply Hfirst.
Qed.

Lemma createFileDatas_laid m fps r : createFileDatas m fps = Some r → Laid m fps r.
Proof.
  intros Hr. destruct (layout_laid m fps) as (r' & Hr' & Hlaid). congruence.
Qed.

(** * Order of the names *)

Lemma ascii_compare_lt_trans a b c :
  Ascii.compare a b = Lt → Ascii.compare b c = Lt → Ascii.compare a c = Lt.
Proof.
  unfold Ascii.compare. rewrite !N.compare_lt_iff. apply N.lt_trans.
Qed.

Lemma string_compare_lt_trans a : ∀ b c,
  String.compare a b = Lt → String.compare b c = Lt → String.compare a c = Lt.
Proof.
  induction a as [|x a IH]; intros [|y b] [|z c]; simpl; try done.
  destruct (Ascii.compare x y) eqn:Exy; try done;
    destruct (Ascii.compare y z) eqn:Eyz; try done.
  - apply Ascii.compare_eq_iff in Exy, Eyz. subst.
    rewrite (proj2 (N.compare_eq_iff _ _) eq_refl : Ascii.compare z z = Eq).
    apply IH.
  - apply Ascii.compare_eq_iff in Exy. subst. by rewrite Eyz.
  - apply Ascii.compare_eq_iff in Eyz. subst. by rewrite Exy.
  - by rewrite (ascii_compare_lt_trans x y z).
Qed.

Lemma string_ltb_trans a b c :
  String.ltb a b = true → String.ltb b c = true → String.ltb a c = true.
Proof.
  unfold String.ltb. intros Hab Hbc.
  destruct (String.compare a b) eqn:E1; try done.
  destruct (String.compare b c) eqn:E2; try done.
  by rewrite (string_compare_lt_trans a b c).
Qed.

Lemma string_ltb_total a b :
  a ≠ b → String.ltb a b = false → String.ltb b a = true.
Proof.
  unfold String.ltb. intros Hne. rewrite (String.compare_antisym b a).
  destruct (String.compare a b) eqn:E; try done.
  by apply String.compare_eq_iff in E.
Qed.

Lemma string_ltb_asym a b : String.ltb a b = true → String.ltb b a = false.
Proof.
  unfold String.ltb. rewrite (String.compare_antisym b a).
  by destruct (String.compare a b).
Qed.

Lemma sorted_lookup {A} (R : A → A → Prop) l : ∀ i j a b,
  StronglySorted R l → i < j → l !! i = Some a → l !! j = Some b → R a b.
Proof.
  induction l as [|x l IH]; intros i j a b Hs Hij Hi Hj; [done|].
  apply StronglySorted_cons in Hs as [Hall Hs].
  destruct j as [|j]; [lia|]. simpl in Hj. destruct i as [|i]; simpl in Hi.
  - injection Hi as <-. rewrite Forall_forall in Hall.
    apply Hall. by eapply list_elem_of_lookup_2.
  - apply (IH i j); [done|lia|done|done].
Qed.

(** The comparator of the children, on nodes whose kind is known. *)
Lemma cmpChildren_cle h a b :
  (FileData.type (h !!! a) = Dir ∨ FileData.type (h !!! a) = Js) →
  (FileData.type (h !!! b) = Dir ∨ FileData.type (h !!! b) = Js) →
  cle (cmpChildren h) a b ↔
  (FileData.type (h !!! a) = Dir ∧ FileData.type (h !!! b) = Js)
  ∨ (FileData.type (h !!! a) = FileData.type (h !!! b)
     ∧ String.ltb (FileData.base (h !!! a)) (FileData.base (h !!! b)) = true).
Proof.
  intros Ha Hb. unfold cle, cmpChildren.
  destruct Ha as [-> | ->], Hb as [-> | ->]; simpl;
    destruct (String.ltb _ _); split; intros; try lia; try tauto;
    intuition congruence.
Qed.

Lemma sortedChildren_sorted h f :
  Forest h → f < length h →
  StronglySorted (cle (cmpChildren h)) (sortedChildren h f).
Proof.
  intros Hfo Hf.
  assert (∀ c, c ∈ FileData.children (h !!! f) →
            FileData.type (h !!! c) = Dir ∨ FileData.type (h !!! c) = Js) as Hty.
  { intros c Hc. apply (fo_type h Hfo). by apply (fo_child h Hfo f c). }
  apply toSorted_sorted.
  - by apply (fo_nodup h Hfo).
  - intros a b Ha Hb Hne Hgt.
    pose proof (fo_bases h Hfo f a b Hf Ha Hb Hne) as Hbase.
    apply cmpChildren_cle; [by apply Hty|by apply Hty|].
    assert (¬ cle (cmpChildren h) a b) as Hn by (unfold cle; lia).
    rewrite cmpChildren_cle in Hn by by apply Hty.
    destruct (Hty a Ha) as [Ea|Ea], (Hty b Hb) as [Eb|Eb]; rewrite Ea, Eb in *.
    + right. split; [done|]. apply string_ltb_total; [done|].
      destruct (String.ltb _ _) eqn:E; [|done]. exfalso. apply Hn. by right.
    + exfalso. apply Hn. by left.
    + by left.
    + right. split; [done|]. apply string_ltb_total; [done|].
      destruct (String.ltb _ _) eqn:E; [|done]. exfalso. apply Hn. by right.
  - intros a b c Ha Hb Hc.
    rewrite !cmpChildren_cle by by apply Hty.
    intros [[E1 E2]|[E1 L1]] [[E3 E4]|[E3 L2]]; try congruence.
    + left. split; congruence.
    + left. split; congruence.
    + right. split; [congruence|]. by eapply string_ltb_trans.
Qed.

(** * The claims *)

(** The run of the engine always produces a layout: the recursion of
    [setFilePos] is given enough fuel, and no [undefined] or [NaN] arises. *)
Theorem createFileDatas_total m fps : ∃ r, createFileDatas m fps = Some r.
Proof. destruct (layout_laid m fps) as (r & Hr & _). eauto. Qed.

(** C1: after layout, the rows (y) taken by the subtrees of two distinct
    children of one node are disjoint, and so are the rows taken by the
    subtrees of two distinct depth-0 nodes. *)
Theorem C1_sibling_subtrees_disjoint m fps r c1 c2 d1 d2 :
  createFileDatas m fps = Some r →
  ((∃ f, c1 ∈ FileData.children (objects r !!! f)
         ∧ c2 ∈ FileData.children (objects r !!! f))
   ∨ (c1 < length (objects r) ∧ c2 < length (objects r)
      ∧ FileData.level (objects r !!! c1) = 0
      ∧ FileData.level (objects r !!! c2) = 0)) →
  c1 ≠ c2 →
  desc (objects r) c1 d1 → desc (objects r) c2 d2 →
  FileData.y (objects r !!! d1) ≠ FileData.y (objects r !!! d2).
Proof.
  intros Hr%createFileDatas_laid Hcase Hne Hd1 Hd2.
  destruct Hcase as [(f & H1 & H2)|(L1 & L2 & R1 & R2)].
  - pose proof (children_valid _ f c1 H1) as Hf.
    by apply (pl_apart _ _ _ (ld_placed _ _ _ Hr f Hf) c1 c2 d1 d2).
  - by apply (ld_roots _ _ _ Hr c1 c2 d1 d2).
Qed.

Lemma C1_witness :
  ∃ r, createFileDatas measure8 scenarioA = Some r
       ∧ FileData.y (objects r !!! 1) ≠ FileData.y (objects r !!! 2).
Proof.
  eexists. split; [vm_compute; reflexivity|].
  apply (C1_sibling_subtrees_disjoint measure8 scenarioA _ 1 2 1 2).
  - vm_compute; reflexivity.
  - left. exists 0. split; vm_compute; repeat constructor.
  - lia.
  - apply desc_refl.
  - apply desc_refl.
Defined.

(** C2 as stated fails: the depth-0 nodes are not sorted.  For the input
    ["b.js"; "a/x.js"] the leaf [b.js] gets rank 0 and the directory [a]
    rank 1. *)
Lemma C2_counterexample :
  ∃ r, createFileDatas measure8 leafFirst = Some r
       ∧ ¬ rootsRankedAsSiblings (objects r).
Proof.
  eexists. split; [vm_compute; reflexivity|]. intros Hclaim.
  destruct (Hclaim 1 0) as [Hdir _];
    [vm_compute; lia|vm_compute; lia|vm_compute; reflexivity
    |vm_compute; reflexivity|].
  specialize (Hdir eq_refl eq_refl). vm_compute in Hdir. lia.
Qed.

(** C2, amended: the rank of a depth-0 node is the number of depth-0 nodes
    that precede it in the iteration order of the map, which is the order
    in which the roots first occur in the input; so an earlier root always
    ranks before a later one, whatever their kinds and names. *)
Theorem C2_roots_ranked_by_insertion m fps r r1 :
  createFileDatas m fps = Some r →
  r1 < length (objects r) → FileData.level (objects r !!! r1) = 0 →
  FileData.seq (objects r !!! r1)
  = length (filter (isRoot (objects r)) (take r1 (files r)))
  ∧ ∀ r2, r2 < length (objects r) → FileData.level (objects r !!! r2) = 0 →
      r1 < r2 → FileData.seq (objects r !!! r1) < FileData.seq (objects r !!! r2).
Proof.
  intros Hr%createFileDatas_laid H1 Hroot1.
  pose proof (ld_ranked _ _ _ Hr) as [_ Hrt].
  assert (∀ a, a < length (objects r) →
            take a (files r) = List.seq 0 a) as Htake.
  { intros a Ha. rewrite (ld_files _ _ _ Hr), take_seq. f_equal. lia. }
  rewrite (Htake r1 H1). split; [by apply Hrt|].
  intros r2 H2 Hroot2 Hlt. rewrite (Hrt r1 H1 Hroot1), (Hrt r2 H2 Hroot2).
  rewrite (seq_split_at r2 r1 Hlt), filter_app, length_app.
  rewrite filter_cons_True by done. simpl. lia.
Qed.

Lemma C2_witness :
  ∃ r, createFileDatas measure8 scenarioA = Some r
       ∧ FileData.seq (objects r !!! 0) < FileData.seq (objects r !!! 3).
Proof.
  eexists. split; [vm_compute; reflexivity|].
  apply (C2_roots_ranked_by_insertion measure8 scenarioA _ 0);
    [vm_compute; reflexivity|vm_compute; lia|vm_compute; reflexivity
    |vm_compute; lia|vm_compute; reflexivity|lia].
Defined.

(** Minimum and maximum of a non-empty list. *)
Lemma foldl_min_spec l : ∀ a,
  (foldl Z.min a l ∈ a :: l) ∧ ∀ z, z ∈ a :: l → (foldl Z.min a l ≤ z)%Z.
Proof.
  induction l as [|b l IH]; intros a; simpl.
  - split; [by left|]. intros z Hz%list_elem_of_singleton. lia.
  - destruct (IH (Z.min a b)) as [Hin Hle]. split.
    + apply elem_of_cons in Hin as [Heq|Hin]; [|by do 2 right].
      rewrite Heq. destruct (Z.min_spec a b) as [[_ ->]|[_ ->]];
        [by left|right; by left].
    + intros z Hz.
      assert (z = a ∨ z = b ∨ z ∈ l) as [E|[E|E]]
        by (rewrite !elem_of_cons in Hz; tauto).
      * specialize (Hle (Z.min a b) (list_elem_of_here _ _)). lia.
      * specialize (Hle (Z.min a b) (list_elem_of_here _ _)). lia.
      * apply Hle. by right.
Qed.

Lemma foldl_max_spec l : ∀ a,
  (foldl Z.max a l ∈ a :: l) ∧ ∀ z, z ∈ a :: l → (z ≤ foldl Z.max a l)%Z.
Proof.
  induction l as [|b l IH]; intros a; simpl.
  - split; [by left|]. intros z Hz%list_elem_of_singleton. lia.
  - destruct (IH (Z.max a b)) as [Hin Hle]. split.
    + apply elem_of_cons in Hin as [Heq|Hin]; [|by do 2 right].
      rewrite Heq. destruct (Z.max_spec a b) as [[_ ->]|[_ ->]];
        [right; by left|by left].
    + intros z Hz.
      assert (z = a ∨ z = b ∨ z ∈ l) as [E|[E|E]]
        by (rewrite !elem_of_cons in Hz; tauto).
      * specialize (Hle (Z.max a b) (list_elem_of_here _ _)). lia.
      * specialize (Hle (Z.max a b) (list_elem_of_here _ _)). lia.
      * apply Hle. by right.
Qed.

Lemma minOf_spec l :
  l ≠ [] → minOf l ∈ l ∧ ∀ z, z ∈ l → (minOf l ≤ z)%Z.
Proof. destruct l as [|a l]; [done|]. intros _. apply foldl_min_spec. Qed.

Lemma maxOf_spec l :
  l ≠ [] → maxOf l ∈ l ∧ ∀ z, z ∈ l → (z ≤ maxOf l)%Z.
Proof. destruct l as [|a l]; [done|]. intros _. apply foldl_max_spec. Qed.

(** C3 as stated fails: the row of a parent is not the middle of the rows
    of its children.  For ["a/x.js"; "a/y.js"] the children of [a] lie at
    y = 0 and y = 48 and [a] lies at y = 0, not at 24. *)
Lemma C3_counterexample :
  ∃ r, createFileDatas measure8 twoLeaves = Some r
       ∧ FileData.children (objects r !!! 0) ≠ []
       ∧ ¬ centeredOnChildren (objects r) 0.
Proof.
  eexists. split; [vm_compute; reflexivity|]. split; [by vm_compute|].
  unfold centeredOnChildren. vm_compute. discriminate.
Qed.

(** C3, amended: the row of a parent is the row of its first child in
    display order (the child of rank 0), which is the smallest row among
    its children. *)
Theorem C3_parent_on_first_child_row m fps r f :
  createFileDatas m fps = Some r →
  FileData.children (objects r !!! f) ≠ [] →
  FileData.y (objects r !!! f) = minOf (childRows (objects r) f)
  ∧ ∃ c, c ∈ FileData.children (objects r !!! f)
         ∧ FileData.seq (objects r !!! c) = 0
         ∧ FileData.y (objects r !!! c) = FileData.y (objects r !!! f).
Proof.
  intros Hr%createFileDatas_laid Hne.
  assert (f < length (objects r)) as Hf.
  { destruct (FileData.children (objects r !!! f)) as [|c l] eqn:E; [done|].
    apply (children_valid _ f c). rewrite E. by left. }
  destruct (ld_placed _ _ _ Hr f Hf) as [_ Hbelow Hfirst _].
  destruct (Hfirst Hne) as (c & Hc & Hc0 & Hcy). split; [|by eauto].
  destruct (minOf_spec (childRows (objects r) f)) as [Hin Hle].
  { unfold childRows. by destruct (FileData.children (objects r !!! f)). }
  unfold childRows in Hin at 2. apply list_elem_of_fmap in Hin as (c' & Hc' & Hin).
  specialize (Hbelow c' Hin).
  assert ((minOf (childRows (objects r) f) ≤ FileData.y (objects r !!! c))%Z).
  { apply Hle. unfold childRows. apply list_elem_of_fmap. eauto. }
  lia.
Qed.

Lemma C3_witness :
  ∃ r, createFileDatas measure8 twoLeaves = Some r
       ∧ FileData.y (objects r !!! 0) = minOf (childRows (objects r) 0).
Proof.
  eexists. split; [vm_compute; reflexivity|].
  apply (C3_parent_on_first_child_row measure8 twoLeaves _ 0);
    [vm_compute; reflexivity|by vm_compute].
Defined.

(** C4 as stated fails: a node whose path is an input path need not be a
    leaf.  For ["a/b"; "a"] the node [a] is created as a directory by the
    first path and keeps that kind when [a] itself is read. *)
Lemma C4_counterexample :
  ∃ r, createFileDatas measure8 dirThenLeaf = Some r
       ∧ 0 < length (objects r)
       ∧ ¬ leafIffInput dirThenLeaf (objects r) 0.
Proof.
  eexists. split; [vm_compute; reflexivity|]. split; [vm_compute; lia|].
  unfold leafIffInput. intros [_ Hback].
  assert (dirThenLeaf !! 1 = Some "a"%string) as Hin%list_elem_of_lookup_2
    by reflexivity.
  apply Hback in Hin. by vm_compute in Hin.
Qed.

(** C4, amended: the kind of a node is fixed by the first input path, in
    processing order, that has the path of the node among its prefixes: the
    node is a leaf exactly when that first path is the path of the node
    itself.  A leaf is therefore always a complete input path; the converse
    depends on the order of the input. *)
Theorem C4_kind_set_by_first_use m fps r l :
  createFileDatas m fps = Some r → l < length (objects r) →
  (FileData.type (objects r !!! l) = Js
   ↔ firstUse (FileData.path (objects r !!! l)) fps
     = Some (FileData.path (objects r !!! l)))
  ∧ (FileData.type (objects r !!! l) = Js → FileData.path (objects r !!! l) ∈ fps).
Proof.
  intros Hr%createFileDatas_laid Hl.
  pose proof (ld_struct _ _ _ Hr) as Hs. pose proof Hs as [Hlen _].
  destruct (sameStruct_fields _ _ l Hs) as (_ & _ & _ & -> & _ & ->).
  rewrite Hlen in Hl. set (s := buildTree fps) in *.
  pose proof (tree_static _ _ (buildTree_inv fps)) as Hst. fold s in Hst.
  rewrite (inv_type _ _ _ Hst l _ (lookup_total_Some _ _ Hl)).
  set (p := FileData.path (heap s !!! l)). unfold kindOf.
  assert (∀ fp, firstUse p fps = Some fp → fp ∈ fps) as Hin.
  { unfold firstUse. intros fp Hhead.
    assert (fp ∈ filter (λ filePath, p ∈ prefixes filePath) fps) as Hf.
    { destruct (filter _ fps) as [|a t]; [done|]. injection Hhead as ->. by left. }
    by apply list_elem_of_filter in Hf as [_ ?]. }
  destruct (firstUse p fps) as [fp|] eqn:E; [|split; [split|]; done].
  specialize (Hin fp eq_refl). case_decide as Hd.
  - subst fp. done.
  - split; [split|]; try done. intros [= ->]. done.
Qed.

Lemma C4_witness :
  ∃ r, createFileDatas measure8 dirThenLeaf = Some r
       ∧ (FileData.type (objects r !!! 1) = Js
          → FileData.path (objects r !!! 1) ∈ dirThenLeaf).
Proof.
  eexists. split; [vm_compute; reflexivity|].
  apply (C4_kind_set_by_first_use measure8 dirThenLeaf _ 1);
    [vm_compute; reflexivity|vm_compute; lia].
Defined.

(** C5: the ranks of the children of a node put every directory before
    every leaf, and within one kind the names never decrease under the
    plain less-than comparison of strings. *)
Theorem C5_children_order m fps r f c1 c2 :
  createFileDatas m fps = Some r →
  c1 ∈ FileData.children (objects r !!! f) →
  c2 ∈ FileData.children (objects r !!! f) →
  FileData.seq (objects r !!! c1) < FileData.seq (objects r !!! c2) →
  ¬ (FileData.type (objects r !!! c1) = Js ∧ FileData.type (objects r !!! c2) = Dir)
  ∧ (FileData.type (objects r !!! c1) = FileData.type (objects r !!! c2) →
     String.ltb (FileData.base (objects r !!! c2)) (FileData.base (objects r !!! c1))
     = false).
Proof.
  intros Hr%createFileDatas_laid H1 H2 Hlt. set (h := objects r) in *.
  pose proof (ld_forest _ _ _ Hr) as Hfo. fold h in Hfo.
  pose proof (ld_ranked _ _ _ Hr) as [Hrk _]. fold h in Hrk.
  pose proof (children_valid h f c1 H1) as Hf.
  pose proof H1 as [i Hi]%sortedChildren_elem%list_elem_of_lookup.
  pose proof H2 as [j Hj]%sortedChildren_elem%list_elem_of_lookup.
  rewrite (Hrk f i c1 Hf Hi), (Hrk f j c2 Hf Hj) in Hlt.
  pose proof (sorted_lookup _ _ i j c1 c2 (sortedChildren_sorted h f Hfo Hf) Hlt Hi Hj)
    as Hcle.
  assert (∀ c, c ∈ FileData.children (h !!! f) →
            FileData.type (h !!! c) = Dir ∨ FileData.type (h !!! c) = Js) as Hty.
  { intros c Hc. apply (fo_type h Hfo). by apply (fo_child h Hfo f c). }
  apply cmpChildren_cle in Hcle; [|by apply Hty..].
  destruct Hcle as [[E1 E2]|[E L]].
  - split; [intros [? ?]; congruence|]. intros ?. congruence.
  - split; [intros [? ?]; congruence|]. intros _. by apply string_ltb_asym.
Qed.

Lemma C5_witness :
  ∃ r, createFileDatas measure8 scenarioA = Some r
       ∧ String.ltb (FileData.base (objects r !!! 2)) (FileData.base (objects r !!! 1))
         = false.
Proof.
  eexists. split; [vm_compute; reflexivity|].
  apply (C5_children_order measure8 scenarioA _ 0 1 2).
  - vm_compute; reflexivity.
  - vm_compute. repeat constructor.
  - vm_compute. repeat constructor.
  - vm_compute. lia.
  - vm_compute; reflexivity.
Defined.



Lemma offsetsFrom_nonneg ws : ∀ prev,
  (0 <= prev)%Q → Forall (λ w, (0 <= w)%Q) ws →
  Forall (λ o, (0 <= o)%Q) (offsetsFrom prev ws).
Proof.
  induction ws as [|w ws IH]; intros prev Hp Hall; simpl; [constructor|].
  apply Forall_cons in Hall as [Hw Hall]. constructor; [lra|].
  apply IH; [lra|done].
Qed.

Lemma offsetsOf_nonneg ws i o :
  Forall (λ w, (0 <= w)%Q) ws → offsetsOf ws !! i = Some o → (0 <= o)%Q.
Proof.
  intros Hall Ho. pose proof (offsets_refine ws) as Href.
  destruct (Forall2_lookup_l _ _ _ _ _ Href Ho) as (so & Hso & Eo).
  rewrite Eo. unfold specOffsets in Hso.
  assert (Forall (λ o, (0 <= o)%Q) (0%Q :: offsetsFrom 0 ws)) as Hnn.
  { constructor; [lra|]. apply offsetsFrom_nonneg; [lra|done]. }
  rewrite Forall_forall in Hnn. apply Hnn. by eapply list_elem_of_lookup_2.
Qed.

Lemma foldl_addPath_static post : ∀ done s,
  TreeInv done s →
  ∃ ext, staticOf <$> heap (foldl addPath s post) = (staticOf <$> heap s) ++ ext.
Proof.
  induction post as [|fp post IH]; intros pre s Hinv; simpl.
  - exists []. by rewrite app_nil_r.
  - destruct (addPath_inv pre s fp Hinv) as (Hinv1 & [ext1 He1] & _).
    destruct (IH _ _ Hinv1) as [ext2 He2].
    exists (ext1 ++ ext2). by rewrite He2, He1, app_assoc.
Qed.

(** C8: the map built from the input paths has exactly the slash-joined
    prefixes of the paths as keys, each key once and with one node of its
    own, whose path is the key; and the node that the processing of an
    input path uses for one of its prefixes is the node the final map holds
    for that prefix, so that paths sharing a prefix share the node. *)
Theorem C8_one_node_per_prefix fps :
  let s := buildTree fps in
  (∀ p, p ∈ (filesMap s).*1 ↔ ∃ fp, fp ∈ fps ∧ p ∈ prefixes fp)
  ∧ NoDup (filesMap s).*1
  ∧ NoDup (filesMap s).*2
  ∧ length (heap s) = length (filesMap s)
  ∧ (∀ p l, Map_get (filesMap s) p = Some l
            ↔ ∃ d, heap s !! l = Some d ∧ FileData.path d = p)
  ∧ (∀ pre fp post j l,
       fps = pre ++ fp :: post →
       filesOf (buildTree pre) fp !! j = Some l →
       Map_get (filesMap s) (join (take (S j) (split fp))) = Some l).
Proof.
  intros s. pose proof (tree_static _ _ (buildTree_inv fps)) as Hst. fold s in Hst.
  pose proof Hst as [H1 H2 Hnd _ _ Hkeys _].
  split_and!.
  - intros p. rewrite H1. apply Hkeys.
  - by rewrite H1.
  - rewrite H2. apply NoDup_seq.
  - by rewrite <-(length_fmap FileData.path (heap s)), <-H1, length_fmap.
  - intros p l. by eapply static_get.
  - intros pre fp post j l -> Hfiles.
    destruct (addPath_inv pre (buildTree pre) fp (buildTree_inv pre))
      as (Hinv1 & _ & Hf).
    destruct (Hf j l Hfiles) as (d & Hd & Hp).
    destruct (foldl_addPath_static post _ _ Hinv1) as [ext Hext].
    assert (s = foldl addPath (addPath (buildTree pre) fp) post) as Es.
    { unfold s, buildTree. by rewrite foldl_app. }
    rewrite <-Es in Hext.
    assert ((staticOf <$> heap s) !! l = Some (staticOf d)) as Hl.
    { rewrite Hext. apply lookup_app_l_Some. by rewrite list_lookup_fmap, Hd. }
    rewrite list_lookup_fmap in Hl.
    destruct (heap s !! l) as [d'|] eqn:Hd'; [|done].
    apply (static_get _ _ s _ l Hst). exists d'. split; [done|].
    simpl in Hl. injection Hl as Hl _ _ _. congruence.
Qed.

(** C10: for a non-empty input every node has non-negative coordinates, the
    root that is placed first lies at (0, 0), and no node lies above its
    parent. *)
Theorem C10_coordinates m fps r :
  createFileDatas m fps = Some r → fps ≠ [] →
  (∀ l, l < length (objects r) →
     (0 <= FileData.x (objects r !!! l))%Q ∧ (0 ≤ FileData.y (objects r !!! l))%Z)
  ∧ (∃ r0, head (rootsOf (objects r) (files r)) = Some r0
           ∧ FileData.x (objects r !!! r0) = 0%Q
           ∧ FileData.y (objects r !!! r0) = 0%Z)
  ∧ (∀ l p, l < length (objects r) → FileData.parent (objects r !!! l) = Some p →
       (FileData.y (objects r !!! p) ≤ FileData.y (objects r !!! l))%Z).
Proof.
  intros Hr%createFileDatas_laid Hne. set (h := objects r) in *.
  pose proof (ld_forest _ _ _ Hr) as Hfo. fold h in Hfo.
  destruct (ld_widths _ _ _ Hr) as (ws & _ & Hlo & Hpos).
  split_and!.
  - intros l Hl. split; [|by apply (ld_ypos _ _ _ Hr)].
    pose proof (pl_x _ _ _ (ld_placed _ _ _ Hr l Hl)) as Hx. rewrite Hlo in Hx.
    by eapply offsetsOf_nonneg.
  - assert (0 < length h) as Hlen.
    { destruct fps as [|fp fps']; [done|].
      pose proof (tree_static _ _ (buildTree_inv (fp :: fps'))) as Hst.
      assert (join (take 1 (split fp)) ∈ FileData.path <$> heap (buildTree (fp :: fps')))
        as Hin.
      { apply (inv_keys _ _ _ Hst). exists fp. split; [by left|].
        apply elem_of_prefixes. exists 0. split; [|done].
        pose proof (split_nonempty fp). destruct (split fp); [done|simpl; lia]. }
      destruct (ld_struct _ _ _ Hr) as [Hl _]. fold h in Hl. rewrite Hl.
      rewrite <-(length_fmap FileData.path).
      destruct (FileData.path <$> _) eqn:E; [by apply elem_of_nil in Hin|simpl; lia]. }
    destruct (root_of h Hfo _ 0 eq_refl Hlen) as (rt & Hrt & Hroot & _).
    assert (∀ a, a ∈ rootsOf h (files r) → a < length h ∧ isRoot h a) as Hmem.
    { intros a. unfold rootsOf. rewrite toSorted_elem_of, list_elem_of_filter.
      rewrite (ld_files _ _ _ Hr), elem_of_seq. fold h. intros [? [_ ?]].
      split; [lia|done]. }
    assert (rt ∈ rootsOf h (files r)) as Hin.
    { unfold rootsOf. rewrite toSorted_elem_of, list_elem_of_filter.
      rewrite (ld_files _ _ _ Hr), elem_of_seq. fold h. split; [done|lia]. }
    destruct (rootsOf h (files r)) as [|r0 rest] eqn:E;
      [by apply elem_of_nil in Hin|].
    exists r0. split; [done|].
    destruct (Hmem r0) as [Hr0 Hroot0]; [by left|].
    split.
    + pose proof (pl_x _ _ _ (ld_placed _ _ _ Hr r0 Hr0)) as Hx. fold h in Hx.
      rewrite Hroot0, Hlo, offsetsOf_eq in Hx. simpl in Hx. congruence.
    + apply (ld_first _ _ _ Hr). fold h. by rewrite E.
  - intros l p Hl Hp.
    destruct (fo_parent h Hfo l p Hl Hp) as [Hpl Hin].
    by apply (pl_below _ _ _ (ld_placed _ _ _ Hr p Hpl)).
Qed.

Lemma C10_witness :
  ∃ r, createFileDatas measure8 scenarioA = Some r
       ∧ (0 ≤ FileData.y (objects r !!! 3%nat))%Z.
Proof.
  eexists. split; [vm_compute; reflexivity|].
  match goal with
  | |- context [objects ?r] =>
      destruct (C10_coordinates measure8 scenarioA r) as (Hall & _)
  end; [vm_compute; reflexivity|done|].
  apply Hall. vm_compute. lia.
Defined.

(** * More on the tree builder *)

Lemma string_app_assoc (a b c : string) : (a +:+ b) +:+ c = a +:+ (b +:+ c).
Proof.
  induction a as [|x a IH]; [done|].
  change (String x ((a +:+ b) +:+ c) = String x (a +:+ (b +:+ c))).
  by f_equal.
Qed.

Lemma join_snoc l b : l ≠ [] → join (l ++ [b]) = join l +:+ "/" +:+ b.
Proof.
  assert (∀ x y r, join (x :: y :: r) = x +:+ "/" +:+ join (y :: r)) as Hj by done.
  induction l as [|a l IH]; [done|]. intros _.
  destruct l as [|a' l]; [done|].
  change ((a :: a' :: l) ++ [b]) with (a :: a' :: (l ++ [b])).
  rewrite !Hj. change (a' :: (l ++ [b])) with ((a' :: l) ++ [b]).
  rewrite IH by done. by rewrite !string_app_assoc.
Qed.

Lemma child_path fps s l c :
  TreeInv fps s → l < length (heap s) →
  c ∈ FileData.children (heap s !!! l) →
  c < length (heap s)
  ∧ split (FileData.path (heap s !!! c))
    = split (FileData.path (heap s !!! l)) ++ [FileData.base (heap s !!! c)].
Proof.
  intros [_ [Hch _ _ _]] Hl Hc.
  destruct (Hch l _ c (lookup_total_Some _ _ Hl) Hc) as (dc & Hdc & Heq).
  rewrite (list_lookup_total_correct _ _ _ Hdc).
  split; [by eapply lookup_lt_Some|done].
Qed.

(** X1: the depth of a node is the number of segments of its path less
    one, its name is the last segment, and a child lies one level below its
    parent with the path of the parent, a slash and its own name as path. *)
Theorem X1_depth_and_paths m fps r l :
  createFileDatas m fps = Some r → l < length (objects r) →
  length (split (FileData.path (objects r !!! l)))
  = S (FileData.level (objects r !!! l))
  ∧ last (split (FileData.path (objects r !!! l)))
    = Some (FileData.base (objects r !!! l))
  ∧ ∀ c, c ∈ FileData.children (objects r !!! l) →
      FileData.level (objects r !!! c) = S (FileData.level (objects r !!! l))
      ∧ FileData.path (objects r !!! c)
        = FileData.path (objects r !!! l) +:+ "/" +:+ FileData.base (objects r !!! c).
Proof.
  intros Hr%createFileDatas_laid Hl.
  pose proof (ld_struct _ _ _ Hr) as Hs. pose proof Hs as [Hlen _].
  pose proof (ld_forest _ _ _ Hr) as Hfo.
  pose proof (buildTree_inv fps) as Hinv. set (s := buildTree fps) in *.
  pose proof (tree_static _ _ Hinv) as Hst.
  assert (l < length (heap s)) as Hl' by lia.
  destruct (sameStruct_fields _ _ l Hs) as (Ec & El & Eb & _ & _ & Ep).
  rewrite Ec, El, Eb, Ep. split_and!.
  - by apply (inv_level _ _ _ Hst l), lookup_total_Some.
  - by apply (inv_base _ _ _ Hst l), lookup_total_Some.
  - intros c Hc. destruct (child_path fps s l c Hinv Hl' Hc) as [Hcl Hsplit].
    destruct (sameStruct_fields _ _ c Hs) as (_ & Elc & Ebc & _ & _ & Epc).
    rewrite Elc, Ebc, Epc. split.
    + rewrite <-Ec in Hc. destruct (fo_child _ Hfo l c Hl Hc) as [_ Hlev].
      by rewrite Elc, El in Hlev.
    + rewrite <-(join_split (FileData.path (heap s !!! c))), Hsplit.
      rewrite join_snoc by apply split_nonempty. by rewrite join_split.
Qed.

Lemma X1_witness :
  ∃ r, createFileDatas measure8 scenarioA = Some r
       ∧ length (split (FileData.path (objects r !!! 1)))
         = S (FileData.level (objects r !!! 1)).
Proof.
  eexists. split; [vm_compute; reflexivity|].
  apply (X1_depth_and_paths measure8 scenarioA _ 1);
    [vm_compute; reflexivity|vm_compute; lia].
Defined.

(** * The [parent] field *)

Lemma ParentOK_extend L h news :
  Forall childless news → LinkInv L h → ParentOK h → ParentOK (h ++ news).
Proof.
  intros Hnews Hinv Hok p dp c dc Hp Hc Hdc.
  apply lookup_app_Some in Hp as [Hp|[_ Hp]].
  - destruct (inv_child _ _ Hinv p dp c Hp Hc) as (dc' & Hdc' & _).
    rewrite (lookup_app_l_Some _ _ _ _ Hdc') in Hdc. injection Hdc as <-.
    by eapply Hok.
  - rewrite Forall_forall in Hnews.
    destruct (Hnews dp) as [E _]; [by eapply list_elem_of_lookup_2|].
    rewrite E in Hc. by apply elem_of_nil in Hc.
Qed.

Lemma linkStep_parent L fp files h i :
  LinkCtx fp files h → 1 ≤ i < length (split fp) → LinkInv L h →
  NoDup (FileData.path <$> h) → ParentOK h → ParentOK (linkStep files h i).
Proof.
  intros Hctx Hi Hinv Hnd Hok.
  destruct (LinkCtx_pair fp files h i Hctx Hi)
    as (c & p & dc & dp & Hc & Hp & Hdc & Hdp & Hne & Hpc & Hpp & Hsplit).
  pose proof (linkStep_lookup files h i c p dc dp Hc Hp Hdc Hdp Hne) as Hlk.
  set (cs := FileData.children dp) in *.
  intros p0 dp0' c0 dc0'. rewrite !Hlk.
  destruct (h !! p0) as [dp0|] eqn:Hp0; [|done].
  destruct (h !! c0) as [dc0|] eqn:Hc0; [|by intros _ _ ?].
  simpl. intros [= <-] Hin [= <-].
  assert (c0 ∈ FileData.children dp0 ∨ (c0 = c ∧ p0 = p)) as [Hold|[-> ->]].
  { revert Hin. unfold linkUpd. simpl. repeat case_decide; auto.
    intros [?|Ha%list_elem_of_singleton]%elem_of_app; auto. }
  - unfold linkUpd. simpl. case_decide as Hcc; [|by eapply Hok].
    subst c0. f_equal. rewrite Hdc in Hc0. injection Hc0 as <-.
    destruct (inv_child _ _ Hinv p0 dp0 c Hp0 Hold) as (dc' & Hdc' & Heq).
    rewrite Hdc in Hdc'. injection Hdc' as <-.
    rewrite Hsplit in Heq. apply app_inj_tail in Heq as [Heq _].
    apply split_inj in Heq. eapply NoDup_lookup; [exact Hnd| |].
    + by rewrite list_lookup_fmap, Hdp.
    + rewrite list_lookup_fmap, Hp0. simpl. by rewrite Heq.
  - unfold linkUpd. simpl. by rewrite decide_True.
Qed.

Lemma linkLoop_parent fp files (idx : list nat) : ∀ L h,
  LinkCtx fp files h → (∀ i, i ∈ idx → 1 ≤ i < length (split fp)) →
  LinkInv L h → NoDup (FileData.path <$> h) → ParentOK h →
  ParentOK (foldl (linkStep files) h idx).
Proof.
  induction idx as [|i idx IH]; intros L h Hctx Hidx Hinv Hnd Hok; simpl; [done|].
  destruct (linkStep_inv L fp files h i Hctx) as [Hinv1 Hst1]; [|done|].
  { apply Hidx. by left. }
  eapply IH.
  - by apply (LinkCtx_static _ _ _ _ Hst1).
  - intros j Hj. apply Hidx. by right.
  - exact Hinv1.
  - by rewrite (static_path _ _ Hst1).
  - eapply linkStep_parent; try done. apply Hidx. by left.
Qed.

Lemma addPath_parent fps s fp :
  TreeInv fps s → ParentOK (heap s) → ParentOK (heap (addPath s fp)).
Proof.
  intros [Hst Hlk] Hok.
  assert (StaticInv (keyOf fps) (kindOf (fps ++ [fp])) s) as Hst'.
  { destruct Hst as [? ? ? ? ? Hkeys Hty]. split; try done.
    intros l d Hd. rewrite (Hty l d Hd). symmetry. apply kindOf_app_old.
    apply Hkeys. apply list_elem_of_fmap. exists d. split; [done|].
    by eapply list_elem_of_lookup_2. }
  destruct (mapFrom_spec (kindOf (fps ++ [fp])) fp (split fp) _ s 0 Hst' eq_refl)
    as (files & s1 & news & Hmap & Hst1 & Hheap & Hnews & Hlen & Hfiles).
  { intros j Hj Hnk. by apply kindOf_app_new. }
  rewrite addPath_unfold. unfold filesOf. rewrite Hmap. simpl.
  eapply (linkLoop_parent fp files _ (linkOf fps)).
  - split_and!; [done|done|]. intros l d Hd. by eapply (inv_base _ _ _ Hst1).
  - intros i Hi%elem_of_seq. lia.
  - rewrite Hheap. by apply LinkInv_extend.
  - apply (inv_nodup _ _ _ Hst1).
  - rewrite Hheap. by eapply ParentOK_extend.
Qed.

Lemma foldl_addPath_parent fps : ∀ done s,
  TreeInv done s → ParentOK (heap s) → ParentOK (heap (foldl addPath s fps)).
Proof.
  induction fps as [|fp fps IH]; intros pre s Hinv Hok; simpl; [done|].
  apply (IH (pre ++ [fp])); [by apply addPath_inv|by eapply addPath_parent].
Qed.

Lemma buildTree_parent fps : ParentOK (heap (buildTree fps)).
Proof.
  apply (foldl_addPath_parent fps [] _ TreeInv_empty).
  by intros p dp c dc ?.
Qed.

(** X2: the [parent] field and the [children] arrays describe the same
    tree: a node names [p] as its parent exactly when it is among the
    children of [p], and it has no parent exactly when its depth is 0. *)
Theorem X2_parent_matches_children m fps r c :
  createFileDatas m fps = Some r → c < length (objects r) →
  (∀ p, FileData.parent (objects r !!! c) = Some p
        ↔ p < length (objects r) ∧ c ∈ FileData.children (objects r !!! p))
  ∧ (FileData.parent (objects r !!! c) = None
     ↔ FileData.level (objects r !!! c) = 0).
Proof.
  intros Hr%createFileDatas_laid Hc.
  pose proof (ld_struct _ _ _ Hr) as Hs. pose proof Hs as [Hlen _].
  pose proof (ld_forest _ _ _ Hr) as Hfo.
  pose proof (buildTree_parent fps) as Hok.
  assert (∀ p, p < length (objects r) →
            c ∈ FileData.children (objects r !!! p) →
            FileData.parent (objects r !!! c) = Some p) as Hback.
  { intros p Hp Hin.
    destruct (sameStruct_fields _ _ p Hs) as (Ecp & _).
    destruct (sameStruct_fields _ _ c Hs) as (_ & _ & _ & _ & Epc & _).
    rewrite Epc. rewrite Ecp in Hin.
    apply (Hok p (heap (buildTree fps) !!! p) c (heap (buildTree fps) !!! c));
      [apply lookup_total_Some; lia|done|apply lookup_total_Some; lia]. }
  split.
  - intros p. split; [by apply (fo_parent _ Hfo)|]. intros [Hp Hin]. by apply Hback.
  - split.
    + intros Hnone. destruct (FileData.level (objects r !!! c)) eqn:E; [done|].
      destruct (fo_haspar _ Hfo c Hc) as (p & Hp & Hin); [lia|].
      rewrite (Hback p Hp Hin) in Hnone. done.
    + intros Hl0. destruct (FileData.parent (objects r !!! c)) as [p|] eqn:E; [|done].
      destruct (fo_parent _ Hfo c p Hc E) as [Hp Hin].
      destruct (fo_child _ Hfo p c Hp Hin) as [_ Hlev]. lia.
Qed.

Lemma X2_witness :
  ∃ r, createFileDatas measure8 scenarioA = Some r
       ∧ (FileData.parent (objects r !!! 1) = Some 0
          ↔ 0 < length (objects r) ∧ 1 ∈ FileData.children (objects r !!! 0)).
Proof.
  eexists. split; [vm_compute; reflexivity|].
  match goal with
  | |- context [objects ?r] =>
      destruct (X2_parent_matches_children measure8 scenarioA r 1) as [Hp _]
  end; [vm_compute; reflexivity|vm_compute; lia|].
  apply Hp.
Defined.

(** * Paths that are already known *)

Lemma alter_lookup_id {A} (f : A → A) (l : list A) i x :
  l !! i = Some x → f x = x → alter f i l = l.
Proof.
  intros Hi Hx. apply list_eq. intros k.
  destruct (decide (k = i)) as [->|Hne].
  - by rewrite list_lookup_alter_eq, Hi; simpl; rewrite Hx.
  - by rewrite list_lookup_alter_ne.
Qed.

Lemma mapFrom_found paths rest : ∀ s index,
  drop index paths = rest →
  (∀ j, index ≤ j < length paths →
     is_Some (Map_get (filesMap s) (join (take (S j) paths)))) →
  ∃ files, mapFrom paths s index rest = (files, s)
    ∧ length files = length rest
    ∧ ∀ j l, files !! j = Some l →
        Map_get (filesMap s) (join (take (S (index + j)) paths)) = Some l.
Proof.
  induction rest as [|base rest IH]; intros s index Hdrop Hall.
  - exists []. by split_and!.
  - assert (index < length paths) as Hi.
    { apply (f_equal length) in Hdrop. rewrite length_drop in Hdrop.
      simpl in Hdrop. lia. }
    assert (drop (S index) paths = rest) as Hdrop'.
    { rewrite <-Nat.add_1_l, Nat.add_comm, <-drop_drop, Hdrop. done. }
    destruct (Hall index) as [l Hl]; [lia|].
    destruct (IH s (S index) Hdrop') as (files & Hmap & Hlen & Hfiles).
    { intros j Hj. apply Hall. lia. }
    exists (l :: files). simpl.
    rewrite (mapStep_found _ _ _ _ l) by (by rewrite Nat.add_1_r).
    rewrite Hmap. split_and!; [done|by rewrite Hlen|].
    intros [|j] l' Hl'; simpl in Hl'.
    + simplify_eq. by rewrite Nat.add_0_r.
    + rewrite <-(Hfiles j l' Hl'). do 3 f_equal. lia.
Qed.

Lemma foldl_id {A B} (f : A → B → A) (l : list B) a :
  (∀ b, b ∈ l → f a b = a) → foldl f a l = a.
Proof.
  induction l as [|b l IH]; intros Hall; simpl; [done|].
  rewrite (Hall b) by by left. apply IH. intros b' Hb'. apply Hall. by right.
Qed.

Lemma addPath_known fps s fp :
  TreeInv fps s → ParentOK (heap s) → keyOf fps fp → addPath s fp = s.
Proof.
  intros [Hst Hlk] Hok (fp' & Hfp' & Hpre).
  apply elem_of_prefixes in Hpre as (i0 & Hi0 & Hfp).
  assert (split fp = take (S i0) (split fp')) as Hsplit
    by (by rewrite Hfp, split_join_take).
  assert (length (split fp) = S i0) as Hlen
    by (rewrite Hsplit, length_take; lia).
  assert (∀ j, j < S i0 → take (S j) (split fp) = take (S j) (split fp')) as Htake.
  { intros j Hj. rewrite Hsplit, take_take. f_equal. lia. }
  assert (∀ j l, j < S i0 →
            Map_get (filesMap s) (join (take (S j) (split fp))) = Some l ↔
            ∃ d, heap s !! l = Some d
                 ∧ FileData.path d = join (take (S j) (split fp'))) as Hget.
  { intros j l Hj. rewrite (static_get _ _ s _ l Hst), Htake by done. done. }
  destruct (mapFrom_found (split fp) (split fp) s 0 eq_refl) as (files & Hmap & Hfl & Hfiles).
  { intros j Hj.
    assert (keyOf fps (join (take (S j) (split fp')))) as Hkey.
    { exists fp'. split; [done|]. apply elem_of_prefixes. exists j. split; [lia|done]. }
    apply (inv_keys _ _ _ Hst), list_elem_of_fmap in Hkey as (d & Hd & Hin).
    apply list_elem_of_lookup in Hin as [l Hl]. exists l.
    apply Hget; [lia|]. by exists d. }
  rewrite addPath_unfold. unfold filesOf. rewrite Hmap. simpl.
  rewrite foldl_id; [by destruct s|].
  intros i Hi%elem_of_seq.
  destruct (lookup_lt_is_Some_2 files i) as [c Hc]; [lia|].
  destruct (lookup_lt_is_Some_2 files (i - 1)) as [p Hp]; [lia|].
  pose proof (Hfiles _ _ Hc) as Hgc. pose proof (Hfiles _ _ Hp) as Hgp.
  simpl in Hgc, Hgp.
  apply Hget in Hgc as (dc & Hdc & Hpc); [|lia].
  apply Hget in Hgp as (dp & Hdp & Hpp); [|lia].
  replace (S (i - 1)) with i in Hpp by lia.
  destruct (inv_linked _ _ Hlk fp' i)
    as (p0 & c0 & dp0 & dc0 & Hdp0 & Hdc0 & Hpp0 & Hpc0 & Hin).
  { split; [done|lia]. }
  assert (p0 = p) as ->.
  { eapply NoDup_lookup; [apply (inv_nodup _ _ _ Hst)| |].
    - by rewrite list_lookup_fmap, Hdp0.
    - rewrite list_lookup_fmap, Hdp. simpl. congruence. }
  assert (c0 = c) as ->.
  { eapply NoDup_lookup; [apply (inv_nodup _ _ _ Hst)| |].
    - by rewrite list_lookup_fmap, Hdc0.
    - rewrite list_lookup_fmap, Hdc. simpl. congruence. }
  rewrite Hdp in Hdp0. injection Hdp0 as <-.
  pose proof (Hok p dp c dc Hdp Hin Hdc) as Hparent.
  unfold linkStep. rewrite Hc, Hp.
  rewrite (alter_lookup_id _ _ _ dc Hdc) by (destruct dc; unfold FileData.set_parent; simpl in *; congruence).
  rewrite (list_lookup_total_correct _ _ _ Hdp).
  by rewrite bool_decide_eq_true_2.
Qed.

(** X3: an input path that repeats an earlier one, or that is a proper
    prefix of an earlier one, changes nothing: the tree, the map and the
    whole layout are those of the input without it. *)
Theorem X3_known_path_ignored m pre fp post :
  keyOf pre fp →
  buildTree (pre ++ fp :: post) = buildTree (pre ++ post)
  ∧ createFileDatas m (pre ++ fp :: post) = createFileDatas m (pre ++ post).
Proof.
  intros Hkey.
  assert (buildTree (pre ++ fp :: post) = buildTree (pre ++ post)) as Heq.
  { unfold buildTree. rewrite !foldl_app. simpl. f_equal.
    apply (addPath_known pre); [apply buildTree_inv|apply buildTree_parent|done]. }
  split; [done|]. unfold createFileDatas. by rewrite Heq.
Qed.

Lemma X3_witness :
  createFileDatas measure8 (["a/x.js"%string; "b"%string] ++ "a"%string :: ["a/x.js"%string; "c"%string])
  = createFileDatas measure8 (["a/x.js"%string; "b"%string] ++ ["a/x.js"%string; "c"%string]).
Proof.
  apply (X3_known_path_ignored measure8
           ["a/x.js"%string; "b"%string] "a"%string ["a/x.js"%string; "c"%string]).
  exists "a/x.js"%string. split; [by left|]. vm_compute. by left.
Defined.

(** * The order of the nodes *)

Lemma fmap_alter_id {A B} (g : A → B) (f : A → A) i (l : list A) :
  (∀ x, g (f x) = g x) → g <$> alter f i l = g <$> l.
Proof.
  intros Hg. apply list_eq. intros k. rewrite !list_lookup_fmap.
  destruct (decide (k = i)) as [->|Hne].
  - rewrite list_lookup_alter_eq. destruct (l !! i); simpl; [|done]. by rewrite Hg.
  - by rewrite list_lookup_alter_ne.
Qed.

Lemma mapStep_paths paths s i base :
  keysOK s →
  keysOK (mapStep paths s i base).2
  ∧ FileData.path <$> heap (mapStep paths s i base).2
    = addOnce (FileData.path <$> heap s) (join (take (S i) paths)).
Proof.
  unfold keysOK. intros Hk. unfold addOnce.
  destruct (Map_get (filesMap s) (join (take (S i) paths))) as [l|] eqn:Hget.
  - rewrite (mapStep_found _ _ _ _ l) by (by rewrite Nat.add_1_r). simpl.
    split; [done|]. rewrite decide_True; [done|]. rewrite <-Hk.
    apply Map_get_Some_elem in Hget. apply list_elem_of_fmap. by exists (join (take (S i) paths), l).
  - rewrite mapStep_new by (by rewrite Nat.add_1_r). simpl.
    rewrite !fmap_app, Hk, Nat.add_1_r. simpl. split; [done|].
    rewrite decide_False; [done|]. rewrite <-Hk. by apply Map_get_None.
Qed.

Lemma mapFrom_paths paths rest : ∀ s index,
  keysOK s →
  keysOK (mapFrom paths s index rest).2
  ∧ FileData.path <$> heap (mapFrom paths s index rest).2
    = foldl addOnce (FileData.path <$> heap s)
        ((λ j, join (take (S j) paths)) <$> List.seq index (length rest)).
Proof.
  induction rest as [|base rest IH]; intros s index Hk; simpl; [done|].
  destruct (mapStep_paths paths s index base Hk) as [Hk1 Hp1].
  destruct (mapStep paths s index base) as [data s1]. simpl in *.
  destruct (IH s1 (S index) Hk1) as [Hk2 Hp2].
  destruct (mapFrom paths s1 (S index) rest) as [files s2]. simpl in *.
  split; [done|]. by rewrite Hp2, Hp1.
Qed.

Lemma linkStep_paths files h i :
  FileData.path <$> linkStep files h i = FileData.path <$> h.
Proof.
  unfold linkStep. destruct (files !! i) as [c|]; [|done].
  destruct (files !! (i - 1)) as [p|]; [|done]. simpl.
  case_bool_decide; rewrite ?fmap_alter_id; done.
Qed.

Lemma linkLoop_paths files idx : ∀ h,
  FileData.path <$> foldl (linkStep files) h idx = FileData.path <$> h.
Proof.
  induction idx as [|i idx IH]; intros h; simpl; [done|].
  by rewrite IH, linkStep_paths.
Qed.

Lemma addPath_paths s fp :
  keysOK s →
  keysOK (addPath s fp)
  ∧ FileData.path <$> heap (addPath s fp)
    = foldl addOnce (FileData.path <$> heap s) (prefixes fp).
Proof.
  intros Hk. rewrite addPath_unfold. unfold keysOK. simpl.
  rewrite linkLoop_paths.
  destruct (mapFrom_paths (split fp) (split fp) s 0 Hk) as [Hk2 Hp2].
  split; [done|]. by rewrite Hp2.
Qed.

Lemma foldl_addPath_paths fps : ∀ s,
  keysOK s →
  keysOK (foldl addPath s fps)
  ∧ FileData.path <$> heap (foldl addPath s fps)
    = foldl addOnce (FileData.path <$> heap s) (fps ≫= prefixes).
Proof.
  induction fps as [|fp fps IH]; intros s Hk; simpl; [done|].
  destruct (addPath_paths s fp Hk) as [Hk1 Hp1].
  destruct (IH _ Hk1) as [Hk2 Hp2]. split; [done|].
  by rewrite Hp2, Hp1, foldl_app.
Qed.

(** X4: the nodes are returned in the order in which the input first
    mentions them: reading the input paths in order, and the prefixes of
    each from the shortest to the full path, every prefix gives a node the
    first time it is met.  Hence there are as many nodes as distinct
    prefixes. *)
Theorem X4_nodes_in_first_use_order m fps r :
  createFileDatas m fps = Some r →
  (λ l, FileData.path (objects r !!! l)) <$> files r
  = firstOccs (fps ≫= prefixes).
Proof.
  intros Hr%createFileDatas_laid.
  pose proof (ld_struct _ _ _ Hr) as Hs. pose proof Hs as [Hlen _].
  destruct (foldl_addPath_paths fps (mkStore [] [])) as [_ Hp]; [done|].
  unfold firstOccs. simpl in Hp. fold (buildTree fps) in Hp. rewrite <-Hp.
  rewrite (ld_files _ _ _ Hr). apply list_eq. intros l.
  rewrite !list_lookup_fmap. destruct (decide (l < length (objects r))) as [Hl|Hl].
  - rewrite lookup_seq_lt by done. simpl.
    rewrite lookup_total_Some by lia. simpl. f_equal.
    by destruct (sameStruct_fields _ _ l Hs) as (_ & _ & _ & _ & _ & ->).
  - rewrite lookup_seq_ge by lia. rewrite lookup_ge_None_2 by lia. done.
Qed.

Lemma X4_witness :
  ∃ r, createFileDatas measure8 scenarioA = Some r
       ∧ (λ l, FileData.path (objects r !!! l)) <$> files r
         = ["a"; "a/x.js"; "a/y.js"; "b.js"]%string.
Proof.
  eexists. split; [vm_compute; reflexivity|].
  match goal with
  | |- context [objects ?r] =>
      rewrite (X4_nodes_in_first_use_order measure8 scenarioA r)
  end; [|vm_compute; reflexivity].
  vm_compute. reflexivity.
Defined.

(** * Kinds and children *)

Lemma firstUse_Some p fps fp :
  firstUse p fps = Some fp → fp ∈ fps ∧ p ∈ prefixes fp.
Proof.
  unfold firstUse. intros Hhead.
  assert (fp ∈ filter (λ filePath, p ∈ prefixes filePath) fps) as Hf.
  { destruct (filter _ fps) as [|a t]; [done|]. injection Hhead as ->. by left. }
  by apply list_elem_of_filter in Hf as [? ?].
Qed.

Lemma dir_has_child fps s l :
  TreeInv fps s → l < length (heap s) →
  FileData.type (heap s !!! l) = Dir → FileData.children (heap s !!! l) ≠ [].
Proof.
  intros [Hst Hlk] Hl.
  rewrite (inv_type _ _ _ Hst l _ (lookup_total_Some _ _ Hl)).
  set (p := FileData.path (heap s !!! l)). unfold kindOf.
  destruct (firstUse p fps) as [fp|] eqn:E; [|done].
  apply firstUse_Some in E as [Hfp Hp]. case_decide as Hd; [done|]. intros _.
  apply elem_of_prefixes in Hp as (i & Hi & Hp).
  assert (S i < length (split fp)) as HSi.
  { destruct (decide (i = length (split fp) - 1)) as [Hlast|]; [|lia].
    apply (prefix_full fp i Hi) in Hlast. congruence. }
  destruct (inv_linked _ _ Hlk fp (S i))
    as (p0 & c0 & dp0 & dc0 & Hdp0 & Hdc0 & Hpp0 & Hpc0 & Hin).
  { split; [done|lia]. }
  assert (p0 = l) as ->.
  { eapply NoDup_lookup; [apply (inv_nodup _ _ _ Hst)| |].
    - by rewrite list_lookup_fmap, Hdp0.
    - rewrite list_lookup_fmap, (lookup_total_Some _ _ Hl). simpl.
      fold p. congruence. }
  rewrite (list_lookup_total_correct _ _ _ Hdp0). intros E.
  rewrite E in Hin. by apply elem_of_nil in Hin.
Qed.

(** X5: every node is a directory or a leaf, never of the unknown kind;
    every directory has at least one child; and a node without children is
    a leaf whose path is one of the input paths. *)
Theorem X5_directories_have_children m fps r l :
  createFileDatas m fps = Some r → l < length (objects r) →
  (FileData.type (objects r !!! l) = Dir ∨ FileData.type (objects r !!! l) = Js)
  ∧ (FileData.type (objects r !!! l) = Dir →
     FileData.children (objects r !!! l) ≠ [])
  ∧ (FileData.children (objects r !!! l) = [] →
     FileData.type (objects r !!! l) = Js ∧ FileData.path (objects r !!! l) ∈ fps).
Proof.
  intros Hr%createFileDatas_laid Hl.
  pose proof (ld_struct _ _ _ Hr) as Hs. pose proof Hs as [Hlen _].
  pose proof (fo_type _ (ld_forest _ _ _ Hr) l Hl) as Hty.
  pose proof (buildTree_inv fps) as Hinv.
  destruct (sameStruct_fields _ _ l Hs) as (Ec & _ & _ & Et & _ & Ep).
  assert (FileData.type (objects r !!! l) = Dir →
          FileData.children (objects r !!! l) ≠ []) as Hdir.
  { rewrite Ec, Et. apply (dir_has_child fps); [done|lia]. }
  split_and!; [done|done|]. intros Hnil.
  destruct Hty as [Hd|Hj]; [by apply Hdir in Hd|]. split; [done|].
  rewrite Ep. rewrite Et in Hj.
  rewrite (inv_type _ _ _ (tree_static _ _ Hinv) l _) in Hj
    by (apply lookup_total_Some; lia).
  unfold kindOf in Hj.
  destruct (firstUse _ fps) as [fp|] eqn:E; [|done].
  apply firstUse_Some in E as [Hfp _]. case_decide; [by subst|done].
Qed.

Lemma X5_witness :
  ∃ r, createFileDatas measure8 scenarioA = Some r
       ∧ FileData.children (objects r !!! 0) ≠ [].
Proof.
  eexists. split; [vm_compute; reflexivity|].
  match goal with
  | |- context [objects ?r] =>
      destruct (X5_directories_have_children measure8 scenarioA r 0)
        as (_ & Hdir & _)
  end; [vm_compute; reflexivity|vm_compute; lia|].
  apply Hdir. vm_compute. reflexivity.
Defined.

(** * Ranks enumerate the siblings *)

Lemma StronglySorted_impl_elem {A} (R1 R2 : A → A → Prop) l :
  (∀ x y, x ∈ l → y ∈ l → R1 x y → R2 x y) →
  StronglySorted R1 l → StronglySorted R2 l.
Proof.
  intros Himpl Hs. induction Hs as [|a l Hs IH Hall]; [constructor|].
  constructor.
  - apply IH. intros x y Hx Hy. apply Himpl; by right.
  - rewrite Forall_forall in Hall. apply Forall_forall. intros y Hy.
    apply Himpl; [by left|by right|by apply Hall].
Qed.

Lemma filter_seq_sorted (P : nat → Prop) `{∀ x, Decision (P x)} n :
  StronglySorted lt (filter P (List.seq 0 n)).
Proof.
  induction n as [|n IH]; [constructor|].
  rewrite seq_S, filter_app. apply StronglySorted_app_2; [|done|].
  - intros x1 x2 [_ H1%elem_of_seq]%list_elem_of_filter
      [_ H2%list_elem_of_singleton]%list_elem_of_filter. lia.
  - simpl. destruct (decide (P n)).
    + rewrite filter_cons_True by done. repeat constructor.
    + rewrite filter_cons_False by done. constructor.
Qed.

Lemma filter_seq_index (P : nat → Prop) `{∀ x, Decision (P x)} n i a :
  filter P (List.seq 0 n) !! i = Some a →
  length (filter P (List.seq 0 a)) = i.
Proof.
  intros Hi.
  assert (a ∈ filter P (List.seq 0 n)) as [Hpa Ha%elem_of_seq]%list_elem_of_filter
    by by eapply list_elem_of_lookup_2.
  assert (NoDup (filter P (List.seq 0 n))) as Hnd
    by apply NoDup_filter, NoDup_seq.
  rewrite (seq_split_at n a) in Hi, Hnd by lia.
  rewrite filter_app, filter_cons_True in Hi, Hnd by done.
  eapply NoDup_lookup; [exact Hnd| |exact Hi].
  by rewrite list_lookup_middle.
Qed.

Lemma keyed_sorted {A} (key : A → nat) (l : list A) : ∀ k,
  (∀ i c, l !! i = Some c → key c = k + i) →
  StronglySorted (λ a b, key a ≤ key b) l.
Proof.
  induction l as [|a l IH]; intros k Hkey; [constructor|]. constructor.
  - apply (IH (S k)). intros i c Hc. rewrite (Hkey (S i) c Hc). lia.
  - apply Forall_forall. intros b [j Hj]%list_elem_of_lookup.
    rewrite (Hkey 0 a eq_refl), (Hkey (S j) b Hj). lia.
Qed.

Lemma keyed_seq {A} (key : A → nat) (l : list A) :
  (∀ i c, l !! i = Some c → key c = i) → key <$> l = List.seq 0 (length l).
Proof.
  intros Hkey. apply list_eq. intros i. rewrite list_lookup_fmap.
  destruct (l !! i) as [c|] eqn:Hc; simpl.
  - rewrite (Hkey i c Hc). symmetry. apply lookup_seq. split; [done|].
    by eapply lookup_lt_Some.
  - symmetry. apply lookup_seq_ge. by apply lookup_ge_None.
Qed.

Lemma sorted_by_seq_unique h (l1 l2 : list loc) :
  (∀ a b, a ∈ l1 → b ∈ l1 →
     FileData.seq (h !!! a) = FileData.seq (h !!! b) → a = b) →
  StronglySorted (cle (cmpSeq h)) l1 → StronglySorted (cle (cmpSeq h)) l2 →
  l1 ≡ₚ l2 → l1 = l2.
Proof.
  intros Hinj H1 H2 Hp. apply (StronglySorted_unique_strong (cle (cmpSeq h))); try done.
  intros a b Ha Hb Hab%cmpSeq_cle Hba%cmpSeq_cle. rewrite <-Hp in Hb.
  apply Hinj; [done|done|lia].
Qed.

Lemma kids_sortedChildren h f :
  Forest h → Ranked h → f < length h → kids h f = sortedChildren h f.
Proof.
  intros Hfo Hrk Hf. pose proof (fo_nodup h Hfo f Hf) as Hnd.
  destruct (ranked_children h f Hfo Hrk Hf) as [Hinj _].
  apply (sorted_by_seq_unique h).
  - intros a b Ha%kids_elem Hb%kids_elem. by apply Hinj.
  - by apply cmpSeq_sorted.
  - eapply StronglySorted_impl_elem;
      [|apply (keyed_sorted (λ c, FileData.seq (h !!! c)) _ 0)].
    + intros x y _ _ Hxy. by apply cmpSeq_cle.
    + intros i c Hc. by apply (rk_child h Hrk f).
  - unfold kids, sortedChildren. by rewrite !toSorted_perm.
Qed.

Lemma root_rank_index h i a :
  Ranked h →
  filter (λ f, FileData.level (h !!! f) = 0) (List.seq 0 (length h)) !! i = Some a →
  FileData.seq (h !!! a) = i.
Proof.
  intros Hrk Hi.
  assert (a ∈ filter (λ f, FileData.level (h !!! f) = 0) (List.seq 0 (length h)))
    as [Hpa Ha%elem_of_seq]%list_elem_of_filter by by eapply list_elem_of_lookup_2.
  rewrite (rk_root h Hrk a) by (done || lia).
  by apply (filter_seq_index _ (length h)).
Qed.

Lemma rootsOf_filter h :
  Ranked h →
  rootsOf h (List.seq 0 (length h))
  = filter (λ f, FileData.level (h !!! f) = 0) (List.seq 0 (length h)).
Proof.
  intros Hrk. symmetry. apply (sorted_by_seq_unique h).
  - apply (ranked_roots h Hrk).
  - eapply StronglySorted_impl_elem;
      [|apply (keyed_sorted (λ c, FileData.seq (h !!! c)) _ 0)].
    + intros x y _ _ Hxy. by apply cmpSeq_cle.
    + intros i c Hc. by apply root_rank_index.
  - apply cmpSeq_sorted, NoDup_filter, NoDup_seq.
  - unfold rootsOf. by rewrite toSorted_perm.
Qed.

(** X6: ranks enumerate each group.  The ranks of the children of a node
    are 0, 1, ..., n - 1, each once; the placement, which sorts the children
    by rank, visits them in the display order of the ranking loop.  The
    ranks of the depth-0 nodes are 0, 1, ..., k - 1 in the order of the map,
    so that sorting them by rank before the placement changes nothing. *)
Theorem X6_ranks_enumerate m fps r :
  createFileDatas m fps = Some r →
  (∀ f, f < length (objects r) →
     kids (objects r) f = sortedChildren (objects r) f
     ∧ (λ c, FileData.seq (objects r !!! c)) <$> kids (objects r) f
       = List.seq 0 (length (FileData.children (objects r !!! f))))
  ∧ rootsOf (objects r) (files r)
    = filter (λ f, FileData.level (objects r !!! f) = 0) (files r)
  ∧ (λ c, FileData.seq (objects r !!! c)) <$> rootsOf (objects r) (files r)
    = List.seq 0 (length (rootsOf (objects r) (files r))).
Proof.
  intros Hr%createFileDatas_laid. set (h := objects r) in *.
  pose proof (ld_forest _ _ _ Hr) as Hfo. pose proof (ld_ranked _ _ _ Hr) as Hrk.
  rewrite (ld_files _ _ _ Hr). fold h in Hfo, Hrk |- *. split_and!.
  - intros f Hf. rewrite (kids_sortedChildren h f Hfo Hrk Hf). split; [done|].
    rewrite <-(toSorted_length (cmpChildren h)). fold (sortedChildren h f).
    apply keyed_seq. intros i c Hc. by apply (rk_child h Hrk f).
  - by apply rootsOf_filter.
  - apply keyed_seq. intros i c. rewrite rootsOf_filter by done.
    by apply root_rank_index.
Qed.

Lemma X6_witness :
  ∃ r, createFileDatas measure8 scenarioA = Some r
       ∧ (λ c, FileData.seq (objects r !!! c)) <$> kids (objects r) 0
         = List.seq 0 (length (FileData.children (objects r !!! 0))).
Proof.
  eexists. split; [vm_compute; reflexivity|].
  match goal with
  | |- context [objects ?r] =>
      destruct (X6_ranks_enumerate measure8 scenarioA r) as (Hkids & _)
  end; [vm_compute; reflexivity|].
  apply Hkids. vm_compute. lia.
Defined.

(** * Columns *)

(** ** Whole numbers *)

Lemma whole_nonneg q : whole q → (0 <= q)%Q.
Proof.
  intros (n & Hn & ->). change 0%Q with (inject_Z 0). by rewrite <-Zle_Qle.
Qed.




Lemma exactRun_nonneg m r : exactRun m r → ∀ s, (0 <= m s)%Q.
Proof. intros [Hm _] s. apply whole_nonneg, Hm. Qed.

Lemma laid_widths m fps r :
  Laid m fps r →
  let W := columnWidths m (objects r) (List.seq 0 (length (objects r))) in
  ∃ ws, levelOffset r = offsetsOf ws
    ∧ Forall (λ w, (0 <= w)%Q) ws
    ∧ length ws = length W - 1
    ∧ ∀ k w, ws !! k = Some w → W !! k = Some (Some w).
Proof.
  intros Hr W. destruct (ld_widths _ _ _ Hr) as (ws & Hws & Hlo & Hpos).
  rewrite (ld_files _ _ _ Hr) in Hws. fold W in Hws.
  pose proof (mapM_Some_1 _ _ _ Hws) as Hall.
  exists ws. split_and!; try done.
  - rewrite <-(Forall2_length _ _ _ Hall). unfold pop. rewrite length_take. lia.
  - intros k w Hk. destruct (Forall2_lookup_r _ _ _ _ _ Hall Hk) as (e & He & Hid).
    simpl in Hid. subst e. unfold pop in He. by apply lookup_take_Some in He as [? _].
Qed.

Lemma offsets_mono ws :
  Forall (λ w, (0 <= w)%Q) ws →
  ∀ j i o o', i ≤ j →
    offsetsOf ws !! i = Some o → offsetsOf ws !! j = Some o' → (o <= o')%Q.
Proof.
  intros Hpos. induction j as [|j IH]; intros i o o' Hij Ho Ho'.
  - replace i with 0 in Ho by lia. rewrite Ho in Ho'. injection Ho' as <-. lra.
  - destruct (decide (i = S j)) as [->|Hne].
    + rewrite Ho in Ho'. injection Ho' as <-. lra.
    + destruct (lookup_lt_is_Some_2 (offsetsOf ws) j) as [o1 Ho1].
      { apply lookup_lt_Some in Ho'. lia. }
      assert ((o <= o1)%Q) as Hle by (apply (IH i); [lia|done|done]).
      destruct (offsetsOf_step ws j o1 o' Ho1 Ho') as (w & Hw & Heq).
      assert ((0 <= w)%Q) as Hw0.
      { rewrite Forall_forall in Hpos. apply Hpos. by eapply list_elem_of_lookup_2. }
      lra.
Qed.

Lemma offsets_next ws i j o o' :
  Forall (λ w, (0 <= w)%Q) ws → i < j →
  offsetsOf ws !! i = Some o → offsetsOf ws !! j = Some o' →
  ∃ w o1, ws !! i = Some w ∧ offsetsOf ws !! S i = Some o1
          ∧ (o1 == o + w + 60)%Q ∧ (o1 <= o')%Q.
Proof.
  intros Hpos Hij Ho Ho'.
  destruct (lookup_lt_is_Some_2 (offsetsOf ws) (S i)) as [o1 Ho1].
  { apply lookup_lt_Some in Ho'. lia. }
  destruct (offsetsOf_step ws i o o1 Ho Ho1) as (w & Hw & Heq).
  exists w, o1. split_and!; try done.
  apply (offsets_mono ws Hpos j (S i)); [lia|done|done].
Qed.

(** X7: the table of offsets has one entry per depth that occurs (and the
    single entry 0 for an empty input); the x of a node is the entry of its
    depth, so that the nodes of one depth share one x, the depth-0 nodes lie
    at x = 0, and a deeper node never lies farther left. *)
Theorem X7_columns m fps r :
  createFileDatas m fps = Some r →
  levelOffset r !! 0 = Some 0%Q
  ∧ (∀ k, 0 < k →
       k < length (levelOffset r)
       ↔ ∃ g, g < length (objects r) ∧ FileData.level (objects r !!! g) = k)
  ∧ (∀ g, g < length (objects r) →
       levelOffset r !! FileData.level (objects r !!! g)
       = Some (FileData.x (objects r !!! g)))
  ∧ (∀ a b, a < length (objects r) → b < length (objects r) →
       FileData.level (objects r !!! a) < FileData.level (objects r !!! b) →
       (FileData.x (objects r !!! a) <= FileData.x (objects r !!! b))%Q).
Proof.
  intros Hr%createFileDatas_laid. set (h := objects r) in *.
  pose proof (ld_forest _ _ _ Hr) as Hfo. fold h in Hfo.
  destruct (laid_widths _ _ _ Hr) as (ws & Hlo & Hpos & Hlen & Hlook).
  destruct (columnWidths_spec m h Hfo) as (I1 & _ & _). fold h in Hlen.
  assert (∀ g, g < length h →
            levelOffset r !! FileData.level (h !!! g) = Some (FileData.x (h !!! g)))
    as Hx.
  { intros g Hg. apply (pl_x _ _ _ (ld_placed _ _ _ Hr g Hg)). }
  split_and!.
  - rewrite Hlo, offsetsOf_eq. done.
  - intros k Hk. rewrite Hlo, length_offsetsOf, Hlen, <-I1. lia.
  - done.
  - intros a b Ha Hb Hlt. pose proof (Hx a Ha) as Hxa. pose proof (Hx b Hb) as Hxb.
    rewrite Hlo in Hxa, Hxb.
    apply (offsets_mono ws Hpos _ _ _ _ (Nat.lt_le_incl _ _ Hlt) Hxa Hxb).
Qed.

Lemma X7_witness :
  ∃ r, createFileDatas measure8 scenarioA = Some r
       ∧ levelOffset r !! FileData.level (objects r !!! 1)
         = Some (FileData.x (objects r !!! 1)).
Proof.
  eexists. split; [vm_compute; reflexivity|].
  match goal with
  | |- context [objects ?r] =>
      destruct (X7_columns measure8 scenarioA r) as (_ & _ & Hx & _)
  end; [vm_compute; reflexivity|].
  apply Hx. vm_compute. lia.
Defined.

(** * Rows: the grid *)

Lemma mapStep_origin paths s i base :
  Forall atOrigin (heap s) → Forall atOrigin (heap (mapStep paths s i base).2).
Proof.
  intros Hall.
  destruct (Map_get (filesMap s) (join (take (i + 1) paths))) as [l|] eqn:Hget.
  - by rewrite (mapStep_found _ _ _ _ l).
  - rewrite mapStep_new by done. simpl. apply Forall_app. split; [done|].
    by repeat constructor.
Qed.

Lemma mapFrom_origin paths rest : ∀ s index,
  Forall atOrigin (heap s) → Forall atOrigin (heap (mapFrom paths s index rest).2).
Proof.
  induction rest as [|base rest IH]; intros s index Hall; simpl; [done|].
  pose proof (mapStep_origin paths s index base Hall) as H1.
  destruct (mapStep paths s index base) as [data s1]. simpl in *.
  specialize (IH s1 (S index) H1).
  by destruct (mapFrom paths s1 (S index) rest).
Qed.

Lemma alter_origin (f : FileData → FileData) i h :
  (∀ d, FileData.y (f d) = FileData.y d) →
  Forall atOrigin h → Forall atOrigin (alter f i h).
Proof.
  intros Hf Hall. apply Forall_alter; [done|]. intros d _. unfold atOrigin.
  by rewrite Hf.
Qed.

Lemma linkStep_origin files h i :
  Forall atOrigin h → Forall atOrigin (linkStep files h i).
Proof.
  intros Hall. unfold linkStep. destruct (files !! i) as [c|]; [|done].
  destruct (files !! (i - 1)) as [p|]; [|done]. simpl.
  case_bool_decide; repeat apply alter_origin; done.
Qed.

Lemma linkLoop_origin files idx : ∀ h,
  Forall atOrigin h → Forall atOrigin (foldl (linkStep files) h idx).
Proof.
  induction idx as [|i idx IH]; intros h Hall; simpl; [done|].
  by apply IH, linkStep_origin.
Qed.

Lemma buildTree_origin fps : Forall atOrigin (heap (buildTree fps)).
Proof.
  unfold buildTree.
  assert (∀ s, Forall atOrigin (heap s) →
            Forall atOrigin (heap (foldl addPath s fps))) as Hgen.
  { induction fps as [|fp fps IH]; intros s Hall; simpl; [done|].
    apply IH. rewrite addPath_unfold. simpl.
    by apply linkLoop_origin, mapFrom_origin. }
  apply Hgen. constructor.
Qed.

Lemma assignSeq_origin sorted h :
  Forall atOrigin h → Forall atOrigin (assignSeq sorted h).
Proof.
  unfold assignSeq. generalize (imap pair sorted). intros l. revert h.
  induction l as [|ic l IH]; intros h Hall; simpl; [done|].
  apply IH. unfold assignStep. by apply alter_origin.
Qed.

Lemma setSeqs_origin s : Forall atOrigin (heap s) → Forall atOrigin (setSeqs s).
Proof.
  unfold setSeqs. generalize (Map_values (filesMap s)), 0, (heap s).
  intros l. induction l as [|f l IH]; intros k h Hall; simpl; [done|].
  destruct (FileData.level (h !!! f) =? 0); apply IH;
    apply assignSeq_origin; [by apply alter_origin|done].
Qed.

Lemma origin_onGrid h : Forall atOrigin h → onGrid h.
Proof.
  intros Hall l. destruct (decide (l < length h)) as [Hl|Hl].
  - rewrite Forall_forall in Hall.
    rewrite (Hall (h !!! l)) by by apply list_elem_of_lookup_total_2.
    by exists 0%Z.
  - rewrite list_lookup_total_alt, lookup_ge_None_2 by lia. by exists 0%Z.
Qed.

Lemma onGrid_set_pos h xv yv f :
  onGrid h → (48 | yv)%Z → onGrid (alter (FileData.set_pos xv yv) f h).
Proof.
  intros Hg Hy l. rewrite list_lookup_total_alter.
  case_decide; [done|apply Hg].
Qed.

Lemma foldl_visitChild_None place l :
  foldl (visitChild place) None l = None.
Proof. induction l as [|c l IH]; simpl; [done|]. exact IH. Qed.

Lemma foldl_visitRoot_None fuel lo l :
  foldl (visitRoot fuel lo) None l = None.
Proof. induction l as [|c l IH]; simpl; [done|]. exact IH. Qed.

Lemma rowShift_grid h f : (48 | rowShift h f)%Z.
Proof.
  destruct (rowShift_cases h f) as [[_ ->]|[_ ->]]; [by exists 0%Z|by exists 1%Z].
Qed.

Lemma setFilePos_grid lo : ∀ n f baseY h last h',
  setFilePos n lo f baseY h = Some (last, h') →
  onGrid h → (48 | baseY)%Z → onGrid h'.
Proof.
  induction n as [|n IHn]; intros f baseY h last h' Hrun Hg Hb; [done|].
  rewrite setFilePos_S in Hrun.
  destruct (lo !! FileData.level (h !!! f)) as [xv|]; [|done]. simpl in Hrun.
  set (h1 := alter (FileData.set_pos xv (baseY + rowShift h f)) f h) in *.
  assert (onGrid h1) as Hg1.
  { apply onGrid_set_pos; [done|]. apply Z.divide_add_r; [done|apply rowShift_grid]. }
  revert Hrun. generalize (kids h1 f). intros l. generalize f h1 Hg1. clear -IHn.
  induction l as [|c l IH]; intros lc hc Hgc; simpl.
  - intros Heq. by simplify_eq.
  - destruct (setFilePos n lo c (FileData.y (hc !!! lc)) hc) as [[l1 h1]|] eqn:E.
    + apply IH. by eapply IHn.
    + by rewrite foldl_visitChild_None.
Qed.

Lemma placeRoots_grid fuel lo h values lc h' :
  placeRoots fuel lo h values = Some (lc, h') → onGrid h → onGrid h'.
Proof.
  unfold placeRoots.
  match goal with |- foldl _ _ ?l = _ → _ => generalize l end.
  intros l. generalize (@None loc). revert h.
  induction l as [|c l IH]; intros hc lc0 Hrun Hg; simpl in Hrun.
  - by simplify_eq.
  - destruct (setFilePos fuel lo c _ hc) as [[l1 h1]|] eqn:E; simpl in Hrun.
    + eapply IH; [done|]. eapply setFilePos_grid; [done|done|].
      destruct lc0; [apply Hg|by exists 0%Z].
    + by rewrite foldl_visitRoot_None in Hrun.
Qed.

(** * Rows: the stacking order *)

Lemma StackedGroup_stable h h' group :
  sameRank h h' →
  (∀ c d, c ∈ group → desc h c d → h' !!! d = h !!! d) →
  StackedGroup h group → StackedGroup h' group.
Proof.
  intros Hs Heq [Hord Hnext].
  assert (∀ c, c ∈ group → h' !!! c = h !!! c) as Eg.
  { intros c Hc. apply (Heq c c Hc). constructor. }
  split.
  - intros c1 c2 d1 H1 H2. rewrite !(sameRank_seq h h') by done.
    intros Hlt Hd%(desc_rank h' h); [|by apply sameRank_sym].
    rewrite (Heq c1 d1), (Eg c2) by done. by apply (Hord c1 c2).
  - intros c Hc. rewrite (sameRank_seq h h') by done. intros Hseq.
    destruct (Hnext c Hc Hseq) as (c0 & e & Hc0 & Hlt & Hd & Hy).
    exists c0, e. rewrite !(sameRank_seq h h') by done.
    split_and!; [done|done|by eapply desc_rank|].
    by rewrite (Eg c), (Heq c0 e).
Qed.

Lemma StackedGroup_ext h l1 l2 :
  (∀ x, x ∈ l1 ↔ x ∈ l2) → StackedGroup h l1 → StackedGroup h l2.
Proof.
  intros Hmem [Hord Hnext]. split.
  - intros c1 c2 d1 H1%Hmem H2%Hmem. by apply Hord.
  - intros c Hc%Hmem Hseq. destruct (Hnext c Hc Hseq) as (c0 & e & Hc0%Hmem & ?).
    by exists c0, e.
Qed.

Lemma Stacked_stable h h' g :
  sameRank h h' → (∀ d, desc h g d → h' !!! d = h !!! d) →
  Stacked h g → Stacked h' g.
Proof.
  intros Hs Heq Hst. unfold Stacked. rewrite (sameRank_children h h') by done.
  apply (StackedGroup_stable h h'); [done| |done].
  intros c d Hc Hd. apply Heq. by eapply desc_step.
Qed.

Lemma group_step lo h group pre c post base hc last' h' :
  NoDup group → goodRanks h group →
  toSorted (cmpSeq h) group = pre ++ c :: post →
  (∀ c1 c2 d, c1 ∈ group → c2 ∈ group → desc h c1 d → desc h c2 d → c1 = c2) →
  GroupRows h pre base hc →
  Post lo hc c base last' h' →
  (∀ g, desc hc c g → Stacked h' g) →
  GroupRows h (pre ++ [c]) (FileData.y (h' !!! last')) h'.
Proof.
  intros Hndg Hgood Hsplit Hapart [Hrk Hbase Hub Hgroup Hinner]
    [Qrk Qout Qlast Qy Qspan _] Hnew.
  pose proof (cmpSeq_sorted h group Hndg) as Hsorted. rewrite Hsplit in Hsorted.
  pose proof (toSorted_NoDup (cmpSeq h) group Hndg) as Hnd. rewrite Hsplit in Hnd.
  assert (∀ a, a ∈ pre ++ c :: post → a ∈ group) as Hin.
  { intros a. rewrite <-Hsplit. apply toSorted_elem_of. }
  assert (c ∈ group) as Hcg by (apply Hin, elem_of_app; right; by left).
  assert (∀ c0, c0 ∈ pre →
            c0 ∈ group ∧ c0 ≠ c
            ∧ FileData.seq (h !!! c0) < FileData.seq (h !!! c)) as Hpre.
  { intros c0 Hc0.
    assert (c0 ∈ group) as Hc0g by (apply Hin, elem_of_app; by left).
    assert (c0 ≠ c) as Hne.
    { intros ->. apply NoDup_app in Hnd as (_ & Hd & _). apply (Hd c Hc0). by left. }
    split_and!; [done|done|].
    assert (cle (cmpSeq h) c0 c) as Hle%cmpSeq_cle.
    { eapply (StronglySorted_app_1_elem_of _ pre (c :: post)); [done|done|by left]. }
    assert (FileData.seq (h !!! c0) ≠ FileData.seq (h !!! c)); [|lia].
    intros E. by apply Hne, (proj1 Hgood). }
  assert (∀ d, desc hc c d ↔ desc h c d) as Hdc.
  { intros d. split; apply desc_rank; [by apply sameRank_sym|done]. }
  assert (∀ c0 d, c0 ∈ pre → desc h c0 d → h' !!! d = hc !!! d) as Hkeep.
  { intros c0 d Hc0 Hd. apply Qout. rewrite Hdc. intros Hd'.
    destruct (Hpre c0 Hc0) as (Hc0g & Hne & _). apply Hne. by eapply Hapart. }
  pose proof (rowShift_cases hc c) as Hshift.
  rewrite (sameRank_seq h hc c Hrk) in Hshift.
  destruct (sorted_seq_first h group pre c post Hndg Hgood Hsplit) as [Hseq0 Hseq1].
  assert ((FileData.y (h' !!! c) ≤ FileData.y (h' !!! last'))%Z) as Hcl
    by (apply Qspan; constructor).
  assert (sameRank h h') as Hrk' by by eapply sameRank_trans.
  assert (StackedGroup h' pre) as [Hord Hnext].
  { apply (StackedGroup_stable hc h'); [done| |done].
    intros c0 d Hc0 Hd. apply (Hkeep c0 d Hc0). eapply desc_rank; [|done].
    by apply sameRank_sym. }
  assert (∀ c1 d1, c1 ∈ pre → desc h c1 d1 →
            (FileData.y (h' !!! d1) < FileData.y (h' !!! c))%Z) as Hlt.
  { intros c1 d1 Hc1 Hd1. rewrite (Hkeep c1 d1 Hc1 Hd1).
    specialize (Hub c1 d1 Hc1 Hd1).
    assert (pre ≠ []) as Hne by (intros ->; by apply elem_of_nil in Hc1).
    specialize (Hseq1 Hne). destruct Hshift as [[Hs0 _]|[_ Hs48]]; lia. }
  split.
  - done.
  - intros _. exists c, last'. split_and!; [apply elem_of_app; right; by left| |done].
    by apply Hdc.
  - intros c0 d [Hc0| ->%list_elem_of_singleton]%elem_of_app Hd.
    + specialize (Hlt c0 d Hc0 Hd). lia.
    + apply Qspan. by apply Hdc.
  - split.
    + intros c1 c2 d1 [H1| ->%list_elem_of_singleton]%elem_of_app
        [H2| ->%list_elem_of_singleton]%elem_of_app.
      * by apply Hord.
      * intros _ Hd%(desc_rank h' h); [|by apply sameRank_sym]. by apply (Hlt c1).
      * rewrite !(sameRank_seq h h') by done.
        destruct (Hpre c2 H2) as (_ & _ & ?). lia.
      * lia.
    + intros c' [Hc'| ->%list_elem_of_singleton]%elem_of_app Hseq.
      * destruct (Hnext c' Hc' Hseq) as (c0 & e & Hc0 & ?).
        exists c0, e. split; [apply elem_of_app; by left|done].
      * rewrite (sameRank_seq h h') in Hseq by done.
        destruct Hbase as (c0 & e & Hc0 & Hd & Hy).
        { intros ->. specialize (Hseq0 eq_refl). lia. }
        exists c0, e. rewrite !(sameRank_seq h h') by done.
        destruct (Hpre c0 Hc0) as (_ & _ & Hlt0).
        split_and!; [apply elem_of_app; by left|done|by eapply desc_rank|].
        rewrite Qy, (Hkeep c0 e Hc0 Hd), Hy.
        destruct Hshift as [[Hs0 _]|[_ ->]]; [lia|done].
  - intros c0 g [Hc0| ->%list_elem_of_singleton]%elem_of_app Hg.
    + apply (Stacked_stable hc h' g Qrk); [|by eapply Hinner].
      intros d Hd%(desc_rank hc h); [|by apply sameRank_sym].
      apply (Hkeep c0 d Hc0). by eapply desc_trans.
    + apply Hnew. by apply Hdc.
Qed.

Lemma GroupRows_nil h base hc : sameRank h hc → GroupRows h [] base hc.
Proof.
  intros Hrk. split; [done|done| | |].
  - by intros c d ?%elem_of_nil.
  - split; [by intros c1 c2 d1 ?%elem_of_nil|by intros c ?%elem_of_nil].
  - by intros c g ?%elem_of_nil.
Qed.

Lemma visit_children_rows n lo h f :
  (∀ c baseY hc last h', Ready lo hc → c < length hc →
     length lo ≤ FileData.level (hc !!! c) + n →
     setFilePos n lo c baseY hc = Some (last, h') →
     ∀ g, desc hc c g → Stacked h' g) →
  Ready lo h → f < length h → length lo ≤ FileData.level (h !!! f) + S n →
  ∀ post pre last hc last' h',
    kids h f = pre ++ post →
    GroupRows h pre (FileData.y (hc !!! last)) hc →
    foldl (visitChild (setFilePos n lo)) (Some (last, hc)) post = Some (last', h') →
    GroupRows h (pre ++ post) (FileData.y (h' !!! last')) h'.
Proof.
  intros IHn Hrd Hf Hfuel. pose proof (rd_forest lo h Hrd) as Hfo.
  induction post as [|c post IH]; intros pre last hc last' h' Hkids Hinv Hrun.
  - simpl in Hrun. simplify_eq. by rewrite app_nil_r.
  - simpl in Hrun. pose proof (gr_rank _ _ _ _ Hinv) as Hrk.
    assert (c ∈ FileData.children (h !!! f)) as Hc.
    { apply kids_elem. rewrite Hkids. apply elem_of_app. right. by left. }
    destruct (fo_child h Hfo f c Hf Hc) as [Hcl Hclev].
    pose proof (Ready_rank lo h hc Hrk Hrd) as Hrdc.
    pose proof Hrk as [Hlenc _].
    destruct (setFilePos_spec lo n c (FileData.y (hc !!! last)) hc Hrdc)
      as (last1 & h1 & Hcall & Hpost).
    { lia. }
    { rewrite (sameRank_level h hc) by done. lia. }
    rewrite Hcall in Hrun.
    rewrite (assoc_L (++) pre [c] post : pre ++ c :: post = (pre ++ [c]) ++ post).
    apply (IH (pre ++ [c]) last1 h1); [by rewrite <-(assoc_L (++))| |done].
    apply (group_step lo h (FileData.children (h !!! f)) pre c post
             (FileData.y (hc !!! last)) hc last1 h1); try done.
    + by apply (fo_nodup h Hfo).
    + by apply (rd_ranks lo h Hrd).
    + intros c1 c2 d. by apply siblings_apart.
    + eapply IHn; [done| | |done].
      * lia.
      * rewrite (sameRank_level h hc) by done. lia.
Qed.

Lemma setFilePos_rows lo : ∀ n f baseY h last h',
  Ready lo h → f < length h → length lo ≤ FileData.level (h !!! f) + n →
  setFilePos n lo f baseY h = Some (last, h') →
  ∀ g, desc h f g → Stacked h' g.
Proof.
  induction n as [|n IHn]; intros f baseY h last h' Hrd Hf Hfuel Hrun; [done|].
  pose proof (rd_forest lo h Hrd) as Hfo.
  rewrite setFilePos_S in Hrun.
  destruct (lo !! FileData.level (h !!! f)) as [xv|]; [|done]. simpl in Hrun.
  set (h1 := alter (FileData.set_pos xv (baseY + rowShift h f)) f h) in *.
  pose proof (sameRank_set_pos h xv (baseY + rowShift h f) f) as Hrk1. fold h1 in Hrk1.
  rewrite (kids_rank h h1 f Hrk1) in Hrun.
  pose proof (visit_children_rows n lo h f IHn Hrd Hf Hfuel (kids h f) [] f h1
                last h' eq_refl (GroupRows_nil h _ h1 Hrk1) Hrun) as Hinv.
  simpl in Hinv. destruct Hinv as [Hrk _ _ Hgroup Hinner].
  intros g Hg. inversion Hg as [|? c ? Hc Hcd]; subst.
  - unfold Stacked. eapply StackedGroup_ext; [|done].
    intros x. by rewrite kids_elem, (sameRank_children h h').
  - apply (Hinner c); [by apply kids_elem|done].
Qed.

Lemma visit_roots_rows lo h :
  Ready lo h → Ranked h →
  ∀ post pre lastChild hc lastChild' h',
    rootsOf h (List.seq 0 (length h)) = pre ++ post →
    GroupRows h pre (rootBase lastChild hc) hc →
    foldl (visitRoot (length lo) lo) (Some (lastChild, hc)) post
    = Some (lastChild', h') →
    GroupRows h (pre ++ post) (rootBase lastChild' h') h'.
Proof.
  intros Hrd Hranked. pose proof (rd_forest lo h Hrd) as Hfo.
  set (group := filter (λ f, FileData.level (h !!! f) = 0) (List.seq 0 (length h))).
  assert (NoDup group) as Hndg by apply NoDup_filter, NoDup_seq.
  assert (∀ r, r ∈ group → r < length h ∧ isRoot h r) as Hroots.
  { intros r. unfold group. rewrite list_elem_of_filter, elem_of_seq.
    intros [? [_ ?]]. split; [lia|done]. }
  induction post as [|r post IH]; intros pre lastChild hc lastChild' h' Hsplit Hinv Hrun.
  - simpl in Hrun. simplify_eq. by rewrite app_nil_r.
  - change (foldl (visitRoot (length lo) lo) (Some (lastChild, hc)) (r :: post))
      with (foldl (visitRoot (length lo) lo)
              (visitRoot (length lo) lo (Some (lastChild, hc)) r) post) in Hrun.
    pose proof (gr_rank _ _ _ _ Hinv) as Hrk.
    assert (r < length h ∧ isRoot h r) as [Hr Hroot].
    { apply Hroots. unfold group. rewrite <-(toSorted_elem_of (cmpSeq h)).
      fold (rootsOf h (List.seq 0 (length h))). rewrite Hsplit.
      apply elem_of_app. right. by left. }
    pose proof (Ready_rank lo h hc Hrk Hrd) as Hrdc.
    pose proof Hrk as [Hlenc _].
    destruct (setFilePos_spec lo (length lo) r (rootBase lastChild hc) hc Hrdc)
      as (last1 & h1 & Hcall & Hpost); [lia|lia|].
    rewrite (visitRoot_Some _ _ _ _ _ _ _ Hcall) in Hrun.
    rewrite (assoc_L (++) pre [r] post : pre ++ r :: post = (pre ++ [r]) ++ post).
    apply (IH (pre ++ [r]) (Some last1) h1); [by rewrite <-(assoc_L (++))| |done].
    apply (group_step lo h group pre r post (rootBase lastChild hc) hc last1 h1);
      try done.
    + by apply ranked_roots.
    + intros r1 r2 d [_ H1]%Hroots [_ H2]%Hroots. by apply roots_apart.
    + eapply (setFilePos_rows lo (length lo)); [done| | |done]; lia.
Qed.

Lemma placeRoots_rows lo h lc H :
  Ready lo h → Ranked h →
  placeRoots (length lo) lo h (List.seq 0 (length h)) = Some (lc, H) →
  (∀ g, g < length h → Stacked H g)
  ∧ StackedGroup H (rootsOf h (List.seq 0 (length h))).
Proof.
  intros Hrd Hranked Hrun. pose proof (rd_forest lo h Hrd) as Hfo.
  pose proof (visit_roots_rows lo h Hrd Hranked (rootsOf h (List.seq 0 (length h)))
                [] None h lc H eq_refl (GroupRows_nil h _ h (sameRank_refl h)) Hrun)
    as Hinv.
  simpl in Hinv. destruct Hinv as [Hrk _ _ Hgroup Hinner]. split; [|done].
  intros g Hg. destruct (root_of h Hfo _ g eq_refl Hg) as (r & Hr & Hroot & Hd).
  apply (Hinner r); [|done]. unfold rootsOf.
  rewrite toSorted_elem_of, list_elem_of_filter, elem_of_seq. split; [done|lia].
Qed.

(** The run of [createFileDatas] behind a result. *)
Lemma createFileDatas_run m fps r :
  createFileDatas m fps = Some r →
  let h := setSeqs (buildTree fps) in
  ∃ lc, Ready (levelOffset r) h ∧ Ranked h ∧ Forall atOrigin h
    ∧ files r = List.seq 0 (length h)
    ∧ placeRoots (length (levelOffset r)) (levelOffset r) h (List.seq 0 (length h))
      = Some (lc, objects r).
Proof.
  intros Hr h. set (s := buildTree fps) in *.
  destruct (setSeqs_spec fps) as (Hst & Hfo & Hrk). fold s h in Hst, Hfo, Hrk.
  pose proof (buildTree_inv fps) as Hinv. fold s in Hinv.
  assert (Map_values (filesMap s) = List.seq 0 (length h)) as Hvs.
  { rewrite (proj1 Hst). apply (inv_keys2 _ _ _ (tree_static _ _ Hinv)). }
  destruct (calcLevelOffset_spec m h Hfo) as (ws & Hws & Hcalc & Hpos & Hlen & Hlook & Hlev).
  set (lo := offsetsOf ws) in *.
  pose proof (Ready_intro lo h Hfo Hrk Hlev) as Hrd.
  destruct (placeRoots_spec lo h Hrd Hrk) as (lc & H & Hrun & _).
  rewrite <-Hvs in Hcalc, Hrun.
  rewrite (createFileDatas_eq m fps lo lc H Hcalc Hrun) in Hr.
  injection Hr as <-. simpl. exists lc. rewrite <-Hvs.
  split_and!; try done. apply setSeqs_origin, buildTree_origin.
Qed.

Lemma createFileDatas_rows m fps r :
  createFileDatas m fps = Some r →
  onGrid (objects r)
  ∧ (∀ g, g < length (objects r) → Stacked (objects r) g)
  ∧ StackedGroup (objects r) (rootsOf (objects r) (files r)).
Proof.
  intros Hr. pose proof (createFileDatas_laid m fps r Hr) as Hlaid.
  destruct (createFileDatas_run m fps r Hr) as (lc & Hrd & Hrk & Horig & Hfiles & Hrun).
  set (h := setSeqs (buildTree fps)) in *.
  destruct (placeRoots_rows _ h lc (objects r) Hrd Hrk Hrun) as [Hinner Hroots].
  destruct (placeRoots_spec _ h Hrd Hrk) as (lc' & H' & Hrun' & Hrank & _).
  rewrite Hrun in Hrun'. injection Hrun' as <- <-.
  pose proof Hrank as [Hlen _].
  split_and!.
  - eapply placeRoots_grid; [done|]. by apply origin_onGrid.
  - intros g. rewrite Hlen. apply Hinner.
  - by rewrite (rootsOf_rank h (objects r)), Hfiles.
Qed.

Lemma rootsOf_elem h a :
  a ∈ rootsOf h (List.seq 0 (length h)) ↔ a < length h ∧ FileData.level (h !!! a) = 0.
Proof.
  unfold rootsOf. rewrite toSorted_elem_of, list_elem_of_filter, elem_of_seq.
  split; [intros [? [_ ?]]|intros [? ?]]; split; done || lia.
Qed.

(** X8: the members of a group (the children of one node, or the depth-0
    nodes) are stacked in rank order.  The whole subtree of a member lies
    at least one row (48) above every member of higher rank, and a member
    of rank 1 or more sits exactly one row below the lowest node of the
    subtrees of the members of lower rank. *)
Theorem X8_groups_stacked_by_rank m fps r c1 c2 :
  createFileDatas m fps = Some r →
  sameGroup (objects r) c1 c2 →
  FileData.seq (objects r !!! c1) < FileData.seq (objects r !!! c2) →
  (∀ d1, desc (objects r) c1 d1 →
     (FileData.y (objects r !!! d1) + 48 ≤ FileData.y (objects r !!! c2))%Z)
  ∧ ∃ c0 e, sameGroup (objects r) c0 c2
      ∧ FileData.seq (objects r !!! c0) < FileData.seq (objects r !!! c2)
      ∧ desc (objects r) c0 e
      ∧ FileData.y (objects r !!! c2) = (FileData.y (objects r !!! e) + 48)%Z.
Proof.
  intros Hr Hgrp Hlt. destruct (createFileDatas_rows m fps r Hr) as (Hgrid & Hin & Hroots).
  pose proof (createFileDatas_laid m fps r Hr) as Hlaid.
  rewrite (ld_files _ _ _ Hlaid) in Hroots. set (h := objects r) in *.
  assert (∃ group, StackedGroup h group ∧ c1 ∈ group ∧ c2 ∈ group
                   ∧ ∀ c0, c0 ∈ group → sameGroup h c0 c2) as (group & [Hord Hnext] & H1 & H2 & Hsame).
  { destruct Hgrp as [(f & Hc1 & Hc2)|(L1 & L2 & R1 & R2)].
    - exists (FileData.children (h !!! f)). split_and!; [|done|done|].
      + apply Hin. by eapply children_valid.
      + intros c0 Hc0. left. by exists f.
    - exists (rootsOf h (List.seq 0 (length h))).
      split_and!; [done|by apply rootsOf_elem|by apply rootsOf_elem|].
      intros c0 [? ?]%rootsOf_elem. right. done. }
  split.
  - intros d1 Hd1. specialize (Hord c1 c2 d1 H1 H2 Hlt Hd1).
    destruct (Hgrid d1) as [k1 E1]. destruct (Hgrid c2) as [k2 E2]. lia.
  - destruct (Hnext c2 H2) as (c0 & e & Hc0 & ? & ? & ?); [lia|].
    exists c0, e. split_and!; try done. by apply Hsame.
Qed.

Lemma X8_witness :
  ∃ r, createFileDatas measure8 scenarioA = Some r
       ∧ (FileData.y (objects r !!! 2%nat) + 48 ≤ FileData.y (objects r !!! 3%nat))%Z.
Proof.
  eexists. split; [vm_compute; reflexivity|].
  match goal with
  | |- context [objects ?r] =>
      destruct (X8_groups_stacked_by_rank measure8 scenarioA r 0 3) as [Hord _]
  end.
  - vm_compute; reflexivity.
  - right. vm_compute. repeat split; lia.
  - vm_compute. lia.
  - apply Hord. eapply desc_step; [|constructor]. vm_compute. right. left.
Defined.

(** * Rows without gaps *)

Lemma desc_fork h r d1 : desc h r d1 → ∀ d2, desc h r d2 →
  desc h d1 d2 ∨ desc h d2 d1
  ∨ ∃ g c1 c2, desc h r g
      ∧ c1 ∈ FileData.children (h !!! g) ∧ c2 ∈ FileData.children (h !!! g)
      ∧ c1 ≠ c2 ∧ desc h c1 d1 ∧ desc h c2 d2.
Proof.
  induction 1 as [f|f c d1 Hc Hd1 IH]; intros d2 Hd2; [by left|].
  inversion Hd2 as [|? c' ? Hc' Hd2']; subst.
  - right. left. by eapply desc_step.
  - destruct (decide (c = c')) as [<-|Hne].
    + destruct (IH d2 Hd2') as [?|[?|(g & c1 & c2 & Hg & ?)]]; [by left|by right; left|].
      right. right. exists g, c1, c2. split; [by eapply desc_step|done].
    + right. right. exists f, c, c'. split; [constructor|done].
Qed.

Lemma same_row_related m fps r d1 d2 :
  Laid m fps r → d1 < length (objects r) → d2 < length (objects r) →
  FileData.y (objects r !!! d1) = FileData.y (objects r !!! d2) →
  desc (objects r) d1 d2 ∨ desc (objects r) d2 d1.
Proof.
  intros Hr H1 H2 Hy. set (h := objects r) in *.
  pose proof (ld_forest _ _ _ Hr) as Hfo. fold h in Hfo.
  destruct (root_of h Hfo _ d1 eq_refl H1) as (r1 & Hr1 & Hroot1 & Hd1).
  destruct (root_of h Hfo _ d2 eq_refl H2) as (r2 & Hr2 & Hroot2 & Hd2).
  destruct (decide (r1 = r2)) as [<-|Hne].
  - destruct (desc_fork h r1 d1 Hd1 d2 Hd2)
      as [?|[?|(g & c1 & c2 & Hg & Hc1 & Hc2 & Hne & Hcd1 & Hcd2)]]; [by left|by right|].
    exfalso. assert (g < length h) as Hgl by by eapply desc_valid.
    by apply (pl_apart _ _ _ (ld_placed _ _ _ Hr g Hgl) c1 c2 d1 d2).
  - exfalso. by apply (ld_roots _ _ _ Hr r1 r2 d1 d2).
Qed.

Lemma first_child_row m fps r p c :
  Laid m fps r → c ∈ FileData.children (objects r !!! p) →
  FileData.seq (objects r !!! c) = 0 →
  FileData.y (objects r !!! c) = FileData.y (objects r !!! p).
Proof.
  intros Hr Hc Hseq. set (h := objects r) in *.
  pose proof (children_valid h p c Hc) as Hp.
  destruct (pl_first _ _ _ (ld_placed _ _ _ Hr p Hp)) as (c0 & Hc0 & Hseq0 & Hy).
  { intros E. fold h in E. rewrite E in Hc. by apply elem_of_nil in Hc. }
  destruct (ranked_children h p (ld_forest _ _ _ Hr) (ld_ranked _ _ _ Hr) Hp) as [Hinj _].
  rewrite (Hinj c c0); [done|done|done|]. fold h in Hseq0. congruence.
Qed.

Lemma first_root_row m fps r g :
  Laid m fps r → g < length (objects r) →
  FileData.level (objects r !!! g) = 0 → FileData.seq (objects r !!! g) = 0 →
  FileData.y (objects r !!! g) = 0%Z.
Proof.
  intros Hr Hg Hlev Hseq. set (h := objects r) in *.
  pose proof (ld_ranked _ _ _ Hr) as Hrk. fold h in Hrk.
  apply (ld_first _ _ _ Hr). rewrite (ld_files _ _ _ Hr). fold h.
  assert (g ∈ rootsOf h (List.seq 0 (length h))) as Hin by by apply rootsOf_elem.
  destruct (rootsOf h (List.seq 0 (length h))) as [|r0 rest] eqn:E;
    [by apply elem_of_nil in Hin|].
  simpl. f_equal.
  assert (FileData.seq (h !!! r0) = 0) as Hseq0.
  { apply root_rank_index; [done|]. by rewrite <-rootsOf_filter, E. }
  apply (proj1 (ranked_roots h Hrk)).
  - apply (list_elem_of_filter (λ f, FileData.level (h !!! f) = 0)).
    rewrite elem_of_seq. assert (r0 ∈ r0 :: rest) as Hr0 by by left.
    rewrite <-E in Hr0. apply rootsOf_elem in Hr0 as [? ?]. split; [done|lia].
  - apply (list_elem_of_filter (λ f, FileData.level (h !!! f) = 0)).
    rewrite elem_of_seq. split; [done|lia].
  - congruence.
Qed.

Lemma row_below m fps r :
  createFileDatas m fps = Some r →
  ∀ n g, FileData.level (objects r !!! g) = n → g < length (objects r) →
    (0 < FileData.y (objects r !!! g))%Z →
    ∃ d, d < length (objects r)
         ∧ FileData.y (objects r !!! g) = (FileData.y (objects r !!! d) + 48)%Z.
Proof.
  intros Hr. destruct (createFileDatas_rows m fps r Hr) as (Hgrid & Hin & Hroots).
  pose proof (createFileDatas_laid m fps r Hr) as Hlaid.
  rewrite (ld_files _ _ _ Hlaid) in Hroots. set (h := objects r) in *.
  pose proof (ld_forest _ _ _ Hlaid) as Hfo. fold h in Hfo.
  assert (∀ group g, StackedGroup h group → g ∈ group →
            (∀ c, c ∈ group → c < length h) →
            1 ≤ FileData.seq (h !!! g) →
            ∃ d, d < length h
                 ∧ FileData.y (h !!! g) = (FileData.y (h !!! d) + 48)%Z) as Hstep.
  { intros group g [_ Hnext] Hg Hval Hseq.
    destruct (Hnext g Hg Hseq) as (c0 & e & Hc0 & _ & Hd & Hy).
    exists e. split; [|done]. eapply desc_valid; [done| |done]. by apply Hval. }
  induction n as [|n IH]; intros g Hlev Hg Hpos.
  - destruct (FileData.seq (h !!! g)) as [|k] eqn:Hseq.
    + pose proof (first_root_row m fps r g Hlaid Hg Hlev Hseq) as E.
      fold h in E. lia.
    + apply (Hstep (rootsOf h (List.seq 0 (length h))) g); [done| | |lia].
      * by apply rootsOf_elem.
      * by intros c [? _]%rootsOf_elem.
  - destruct (fo_haspar h Hfo g Hg) as (p & Hp & Hc); [lia|].
    destruct (fo_child h Hfo p g Hp Hc) as [_ Hlp].
    destruct (FileData.seq (h !!! g)) as [|k] eqn:Hseq.
    + pose proof (first_child_row m fps r p g Hlaid Hc Hseq) as E. fold h in E.
      rewrite E in Hpos |- *. apply (IH p); [lia|done|done].
    + apply (Hstep (FileData.children (h !!! p)) g); [by apply Hin|done| |lia].
      intros c Hc'. by apply (fo_child h Hfo p c).
Qed.

Lemma rows_filled m fps r g :
  createFileDatas m fps = Some r → g < length (objects r) →
  ∀ k, (0 ≤ k)%Z → (48 * k ≤ FileData.y (objects r !!! g))%Z →
    ∃ d, d < length (objects r) ∧ FileData.y (objects r !!! d) = (48 * k)%Z.
Proof.
  intros Hr Hg k Hk Hle.
  destruct (createFileDatas_rows m fps r Hr) as (Hgrid & _ & _).
  destruct (Hgrid g) as [j Hj].
  assert (∀ i g, g < length (objects r) →
            FileData.y (objects r !!! g) = (48 * (k + Z.of_nat i))%Z →
            ∃ d, d < length (objects r)
                 ∧ FileData.y (objects r !!! d) = (48 * k)%Z) as Hgen.
  { induction i as [|i IH]; intros g' Hg' Hy.
    - exists g'. split; [done|]. rewrite Hy. f_equal. lia.
    - destruct (row_below m fps r Hr _ g' eq_refl Hg') as (d & Hd & Hyd); [lia|].
      apply (IH d Hd). lia. }
  apply (Hgen (Z.to_nat (j - k)) g Hg). lia.
Qed.

(** X9: every y is a multiple of the row height 48 = 32 + 16, and the rows
    are used without gaps: below the row of any node, every row down to
    row 0 holds a node. *)
Theorem X9_rows_on_grid_without_gaps m fps r g :
  createFileDatas m fps = Some r → g < length (objects r) →
  (48 | FileData.y (objects r !!! g))%Z
  ∧ ∀ k, (0 ≤ k)%Z → (48 * k ≤ FileData.y (objects r !!! g))%Z →
      ∃ d, d < length (objects r) ∧ FileData.y (objects r !!! d) = (48 * k)%Z.
Proof.
  intros Hr Hg. split.
  - by destruct (createFileDatas_rows m fps r Hr) as (Hgrid & _ & _).
  - by apply (rows_filled m fps r g).
Qed.

Lemma X9_witness :
  ∃ r, createFileDatas measure8 scenarioA = Some r
       ∧ ∃ d, d < length (objects r) ∧ FileData.y (objects r !!! d) = (48 * 1)%Z.
Proof.
  eexists. split; [vm_compute; reflexivity|].
  match goal with
  | |- context [objects ?r] =>
      destruct (X9_rows_on_grid_without_gaps measure8 scenarioA r 3) as [_ Hfill]
  end; [vm_compute; reflexivity|vm_compute; lia|].
  apply Hfill; [lia|vm_compute; discriminate].
Defined.

(** * Boxes *)

Lemma rows_apart_or_related m fps r d1 d2 :
  createFileDatas m fps = Some r →
  d1 < length (objects r) → d2 < length (objects r) → d1 ≠ d2 →
  ((FileData.y (objects r !!! d1) + 48 ≤ FileData.y (objects r !!! d2))%Z
   ∨ (FileData.y (objects r !!! d2) + 48 ≤ FileData.y (objects r !!! d1))%Z)
  ∨ (FileData.y (objects r !!! d1) = FileData.y (objects r !!! d2)
     ∧ (desc (objects r) d1 d2 ∨ desc (objects r) d2 d1)).
Proof.
  intros Hr H1 H2 Hne.
  destruct (createFileDatas_rows m fps r Hr) as (Hgrid & _ & _).
  pose proof (createFileDatas_laid m fps r Hr) as Hlaid.
  destruct (decide (FileData.y (objects r !!! d1) = FileData.y (objects r !!! d2)))
    as [Hy|Hy].
  - right. split; [done|]. by apply (same_row_related m fps r).
  - left. destruct (Hgrid d1) as [k1 E1]. destruct (Hgrid d2) as [k2 E2]. lia.
Qed.

Lemma ancestor_box m fps r d1 d2 :
  (∀ s, (0 <= m s)%Q) → Laid m fps r →
  d1 < length (objects r) → desc (objects r) d1 d2 → d1 ≠ d2 →
  (FileData.x (objects r !!! d1) + boxWidth m (objects r) d1 + 60
   <= FileData.x (objects r !!! d2))%Q.
Proof.
  intros Hm Hr H1 Hd Hne. set (h := objects r) in *.
  pose proof (ld_forest _ _ _ Hr) as Hfo. fold h in Hfo.
  destruct (laid_widths _ _ _ Hr) as (ws & Hlo & Hpos & Hlen & Hlook).
  destruct (columnWidths_spec m h Hfo) as (_ & _ & I3). fold h in Hlook.
  assert (isParent h d1) as Hpar.
  { inversion Hd as [|? c ? Hc _]; subst; [done|]. unfold isParent. intros E.
    rewrite E in Hc. by apply elem_of_nil in Hc. }
  destruct (desc_level h d1 d2 Hfo Hd) as [?|[Hlt H2]]; [done|].
  pose proof (pl_x _ _ _ (ld_placed _ _ _ Hr d1 H1)) as Hx1.
  pose proof (pl_x _ _ _ (ld_placed _ _ _ Hr d2 H2)) as Hx2.
  fold h in Hx1, Hx2. rewrite Hlo in Hx1, Hx2.
  destruct (offsets_next ws _ _ _ _ Hpos Hlt Hx1 Hx2) as (w & o1 & Hw & _ & Heq & Hle).
  destruct (I3 Hm (FileData.level (h !!! d1))) as (v & Hv & _ & Hub).
  { by exists d1. }
  rewrite (Hlook _ _ Hw) in Hv. injection Hv as <-.
  specialize (Hub d1 H1 eq_refl Hpar). lra.
Qed.

(** X10: two different nodes lie in different rows, at least 48 apart,
    unless one of them is an ancestor of the other; in particular the
    nodes of one depth, which share one x, lie in different rows. *)
Theorem X10_one_row_one_branch m fps r d1 d2 :
  createFileDatas m fps = Some r →
  d1 < length (objects r) → d2 < length (objects r) → d1 ≠ d2 →
  (((FileData.y (objects r !!! d1) + 48 ≤ FileData.y (objects r !!! d2))%Z
    ∨ (FileData.y (objects r !!! d2) + 48 ≤ FileData.y (objects r !!! d1))%Z)
   ∨ (FileData.y (objects r !!! d1) = FileData.y (objects r !!! d2)
      ∧ (desc (objects r) d1 d2 ∨ desc (objects r) d2 d1)))
  ∧ (FileData.level (objects r !!! d1) = FileData.level (objects r !!! d2) →
     (FileData.y (objects r !!! d1) + 48 ≤ FileData.y (objects r !!! d2))%Z
     ∨ (FileData.y (objects r !!! d2) + 48 ≤ FileData.y (objects r !!! d1))%Z).
Proof.
  intros Hr H1 H2 Hne.
  pose proof (rows_apart_or_related m fps r d1 d2 Hr H1 H2 Hne) as Hcases.
  split; [done|]. intros Hlev.
  destruct Hcases as [?|[_ Hrel]]; [done|]. exfalso.
  pose proof (ld_forest _ _ _ (createFileDatas_laid m fps r Hr)) as Hfo.
  destruct Hrel as [Hd|Hd]; apply (desc_level _ _ _ Hfo) in Hd as [?|[? _]];
    try lia; congruence.
Qed.

Lemma X10_witness :
  ∃ r, createFileDatas measure8 scenarioA = Some r
       ∧ ((FileData.y (objects r !!! 1%nat) + 48 ≤ FileData.y (objects r !!! 2%nat))%Z
          ∨ (FileData.y (objects r !!! 2%nat) + 48 ≤ FileData.y (objects r !!! 1%nat))%Z).
Proof.
  eexists. split; [vm_compute; reflexivity|].
  match goal with
  | |- context [objects ?r] =>
      destruct (X10_one_row_one_branch measure8 scenarioA r 1 2) as [_ Hcol]
  end.
  - vm_compute; reflexivity.
  - vm_compute; lia.
  - vm_compute; lia.
  - lia.
  - apply Hcol. vm_compute. reflexivity.
Defined.

(** X11: where the measured widths are whole numbers and the table of
    offsets stays within 2^52 (there the doubles of the source compute
    without rounding) no two boxes overlap.  The box of a node spans from x
    to x + measured width of the name + 40 and from y to y + 32.  Two
    different nodes are at least one row of 48 = 32 + 16 apart, or one is an
    ancestor of the other and its box ends at least 60 to the left of the x
    of the other. *)
Theorem X11_boxes_do_not_overlap m fps r d1 d2 :
  createFileDatas m fps = Some r →
  exactRun m r →
  d1 < length (objects r) → d2 < length (objects r) → d1 ≠ d2 →
  (FileData.x (objects r !!! d1) + boxWidth m (objects r) d1 + 60
   <= FileData.x (objects r !!! d2))%Q
  ∨ (FileData.x (objects r !!! d2) + boxWidth m (objects r) d2 + 60
     <= FileData.x (objects r !!! d1))%Q
  ∨ (FileData.y (objects r !!! d1) + 32 + 16 ≤ FileData.y (objects r !!! d2))%Z
  ∨ (FileData.y (objects r !!! d2) + 32 + 16 ≤ FileData.y (objects r !!! d1))%Z.
Proof.
  intros Hr Hex H1 H2 Hne. pose proof (exactRun_nonneg _ _ Hex) as Hm.
  pose proof (createFileDatas_laid m fps r Hr) as Hlaid.
  destruct (rows_apart_or_related m fps r d1 d2 Hr H1 H2 Hne)
    as [[?|?]|[_ [Hd|Hd]]].
  - right. right. left. lia.
  - right. right. right. lia.
  - left. by apply (ancestor_box m fps r).
  - right. left. by apply (ancestor_box m fps r).
Qed.

Lemma X11_witness :
  ∃ r, createFileDatas measure8 scenarioA = Some r
       ∧ ((FileData.x (objects r !!! 0%nat) + boxWidth measure8 (objects r) 0 + 60
           <= FileData.x (objects r !!! 1%nat))%Q
          ∨ (FileData.x (objects r !!! 1%nat) + boxWidth measure8 (objects r) 1 + 60
             <= FileData.x (objects r !!! 0%nat))%Q
          ∨ (FileData.y (objects r !!! 0%nat) + 32 + 16 ≤ FileData.y (objects r !!! 1%nat))%Z
          ∨ (FileData.y (objects r !!! 1%nat) + 32 + 16 ≤ FileData.y (objects r !!! 0%nat))%Z).
Proof.
  eexists. split; [vm_compute; reflexivity|].
  apply (X11_boxes_do_not_overlap measure8 scenarioA _ 0 1).
  - vm_compute; reflexivity.
  - split.
    + intros s. exists (8 * Z.of_nat (String.length s))%Z. split; [lia|reflexivity].
    + repeat constructor; by vm_compute.
  - vm_compute; lia.
  - vm_compute; lia.
  - lia.
Defined.

(** * The bounding box of [App] *)

Lemma sizeLoop_spec h l : ∀ acc,
  let s := foldl (sizeStep h) acc l in
  (acc.1 <= s.1)%Q ∧ (acc.2 ≤ s.2)%Z
  ∧ (∀ f, f ∈ l → (FileData.x (h !!! f) <= s.1)%Q ∧ (FileData.y (h !!! f) ≤ s.2)%Z)
  ∧ ((s.1 == acc.1)%Q ∨ ∃ f, f ∈ l ∧ (s.1 == FileData.x (h !!! f))%Q)
  ∧ (s.2 = acc.2 ∨ ∃ f, f ∈ l ∧ s.2 = FileData.y (h !!! f)).
Proof.
  induction l as [|a l IH]; intros acc; simpl.
  - split_and!; [lra|lia| |by left|by left]. by intros f ?%elem_of_nil.
  - destruct (IH (sizeStep h acc a)) as (I1 & I2 & I3 & I4 & I5).
    set (s := foldl (sizeStep h) (sizeStep h acc a) l) in *. simpl in I1, I2, I4, I5.
    pose proof (Q.le_max_l acc.1 (FileData.x (h !!! a))) as Hl.
    pose proof (Q.le_max_r acc.1 (FileData.x (h !!! a))) as Hr.
    split_and!.
    + eapply Qle_trans; [exact Hl|exact I1].
    + lia.
    + intros f [->|Hf]%elem_of_cons; [|by apply I3].
      split; [eapply Qle_trans; [exact Hr|exact I1]|lia].
    + destruct I4 as [E|(f & Hf & E)].
      * destruct (Q.max_spec acc.1 (FileData.x (h !!! a))) as [[_ E']|[_ E']].
        -- right. exists a. split; [by left|]. by rewrite E, E'.
        -- left. by rewrite E, E'.
      * right. exists f. split; [by right|done].
    + destruct I5 as [E|(f & Hf & E)].
      * destruct (Z.max_spec acc.2 (FileData.y (h !!! a))) as [[_ E']|[_ E']].
        -- right. exists a. split; [by left|]. by rewrite E, E'.
        -- left. by rewrite E, E'.
      * right. exists f. split; [by right|done].
Qed.

Lemma offsets_entries m fps r k :
  Laid m fps r → 0 < k →
  k < length (levelOffset r)
  ↔ ∃ g, g < length (objects r) ∧ FileData.level (objects r !!! g) = k.
Proof.
  intros Hr Hk. destruct (laid_widths _ _ _ Hr) as (ws & Hlo & _ & Hlen & _).
  destruct (columnWidths_spec m (objects r) (ld_forest _ _ _ Hr)) as (I1 & _ & _).
  rewrite Hlo, length_offsetsOf, Hlen, <-I1. lia.
Qed.

Lemma width_is_last_offset m fps r :
  Laid m fps r → ((layoutSize r).1 == default 0%Q (last (levelOffset r)))%Q.
Proof.
  intros Hr. set (h := objects r).
  destruct (laid_widths _ _ _ Hr) as (ws & Hlo & Hpos & _ & _).
  destruct (sizeLoop_spec h (files r) (0%Q, 0%Z)) as (I1 & _ & I3 & I4 & _).
  change (foldl (sizeStep h) (0%Q, 0%Z) (files r)) with (layoutSize r) in *.
  simpl in I1, I4. rewrite (ld_files _ _ _ Hr) in I3, I4. fold h in I3, I4.
  assert (levelOffset r !! 0 = Some 0%Q) as H0 by (by rewrite Hlo, offsetsOf_eq).
  set (k := length (levelOffset r) - 1).
  assert (0 < length (levelOffset r)) as Hlen by (by eapply lookup_lt_Some).
  destruct (lookup_lt_is_Some_2 (levelOffset r) k) as [o Ho]; [lia|].
  assert (last (levelOffset r) = Some o) as ->.
  { rewrite last_lookup. rewrite <-Ho. f_equal. lia. }
  simpl.
  assert (∀ g, g < length h →
            levelOffset r !! FileData.level (h !!! g) = Some (FileData.x (h !!! g)))
    as Hx.
  { intros g Hg. apply (pl_x _ _ _ (ld_placed _ _ _ Hr g Hg)). }
  apply Qle_antisym.
  - destruct I4 as [E|(f & Hf%elem_of_seq & E)].
    + assert ((0 <= o)%Q); [|lra].
      rewrite Hlo in H0, Ho. apply (offsets_mono ws Hpos k 0); [lia|done|done].
    + assert ((FileData.x (h !!! f) <= o)%Q); [|lra].
      pose proof (Hx f ltac:(lia)) as Hxf.
      pose proof (lookup_lt_Some _ _ _ Hxf) as Hlt. rewrite Hlo in Hxf, Ho.
      apply (offsets_mono ws Hpos k (FileData.level (h !!! f))); [lia|done|done].
  - destruct (decide (k = 0)) as [E|E].
    + rewrite E, H0 in Ho. by injection Ho as <-.
    + destruct (proj1 (offsets_entries m fps r k Hr ltac:(lia))) as (g & Hg & Hlev);
        [lia|].
      pose proof (Hx g Hg) as Hxg. fold h in Hlev, Hg. rewrite Hlev, Ho in Hxg.
      injection Hxg as ->. apply I3. apply elem_of_seq. lia.
Qed.

(** * One row per leaf *)

Lemma leaf_on_row m fps r :
  Laid m fps r →
  ∀ n d, d < length (objects r) →
    length (levelOffset r) ≤ FileData.level (objects r !!! d) + n →
    ∃ l, l < length (objects r) ∧ FileData.children (objects r !!! l) = []
         ∧ FileData.y (objects r !!! l) = FileData.y (objects r !!! d).
Proof.
  intros Hr. set (h := objects r). pose proof (ld_forest _ _ _ Hr) as Hfo. fold h in Hfo.
  induction n as [|n IH]; intros d Hd Hfuel.
  - pose proof (pl_x _ _ _ (ld_placed _ _ _ Hr d Hd)) as Hx.
    apply lookup_lt_Some in Hx. fold h in Hx. lia.
  - destruct (FileData.children (h !!! d)) as [|c0 cs] eqn:E; [by exists d|].
    destruct (pl_first _ _ _ (ld_placed _ _ _ Hr d Hd)) as (c & Hc & _ & Hy).
    { fold h. by rewrite E. }
    destruct (fo_child h Hfo d c Hd Hc) as [Hcl Hlev].
    destruct (IH c Hcl) as (l & Hl & Hleaf & Hyl); [lia|].
    exists l. split_and!; [done|done|]. fold h in Hy. congruence.
Qed.

Lemma leaf_rows_inj m fps r a b :
  Laid m fps r → a < length (objects r) → b < length (objects r) →
  FileData.children (objects r !!! a) = [] →
  FileData.children (objects r !!! b) = [] →
  FileData.y (objects r !!! a) = FileData.y (objects r !!! b) → a = b.
Proof.
  intros Hr Ha Hb La Lb Hy.
  destruct (same_row_related m fps r a b Hr Ha Hb Hy) as [Hd|Hd];
    inversion Hd as [|? c ? Hc _]; subst; try done.
  - rewrite La in Hc. by apply elem_of_nil in Hc.
  - rewrite Lb in Hc. by apply elem_of_nil in Hc.
Qed.

Lemma height_counts_leaves m fps r :
  createFileDatas m fps = Some r →
  (layoutSize r).2 = (48 * Z.of_nat (length (leaves r) - 1))%Z.
Proof.
  intros Hr. pose proof (createFileDatas_laid m fps r Hr) as Hlaid.
  destruct (createFileDatas_rows m fps r Hr) as (Hgrid & _ & _).
  set (h := objects r) in *.
  destruct (sizeLoop_spec h (files r) (0%Q, 0%Z)) as (_ & I2 & I3 & _ & I5).
  change (foldl (sizeStep h) (0%Q, 0%Z) (files r)) with (layoutSize r) in *.
  simpl in I2, I5.
  unfold leaves. rewrite (ld_files _ _ _ Hlaid) in *. fold h in I3, I5 |- *.
  set (H := (layoutSize r).2) in *.
  destruct (decide (length h = 0)) as [Hnil|Hnn].
  { rewrite Hnil in *. simpl in *. destruct I5 as [->|(f & ?%elem_of_nil & _)]; done. }
  assert (∃ g, g < length h ∧ FileData.y (h !!! g) = H) as (gm & Hgm & Hym).
  { destruct I5 as [E|(f & Hf%elem_of_seq & E)]; [|exists f; split; [lia|done]].
    exists 0. split; [lia|].
    destruct (I3 0) as [_ Hle]; [apply elem_of_seq; lia|].
    pose proof (ld_ypos _ _ _ Hlaid 0 ltac:(fold h; lia)) as Hge. fold h in Hge. lia. }
  destruct (Hgrid gm) as [K HK]. rewrite Hym in HK.
  assert ((0 ≤ K)%Z) as HK0 by lia.
  set (LV := filter (λ f, FileData.children (h !!! f) = []) (List.seq 0 (length h))).
  assert (∀ a, a ∈ LV ↔ a < length h ∧ FileData.children (h !!! a) = []) as Hmem.
  { intros a. unfold LV. rewrite list_elem_of_filter, elem_of_seq. split.
    - intros [? [_ ?]]. split; [lia|done].
    - intros [? ?]. split; [done|lia]. }
  assert ((λ a, FileData.y (h !!! a)) <$> LV
          ≡ₚ (λ k, (48 * Z.of_nat k)%Z) <$> List.seq 0 (S (Z.to_nat K))) as Hperm.
  { apply NoDup_Permutation.
    - apply NoDup_fmap_2_strong; [|apply NoDup_filter, NoDup_seq].
      intros a b [Ha La]%Hmem [Hb Lb]%Hmem Hy.
      by apply (leaf_rows_inj m fps r).
    - apply NoDup_fmap_2_strong; [|apply NoDup_seq]. intros a b _ _ E. lia.
    - intros v. rewrite !list_elem_of_fmap. split.
      + intros (a & -> & [Ha La]%Hmem). destruct (Hgrid a) as [j Hj].
        pose proof (ld_ypos _ _ _ Hlaid a Ha) as Hge. fold h in Hge.
        destruct (I3 a) as [_ Hle]; [apply elem_of_seq; lia|].
        exists (Z.to_nat j). split; [lia|]. apply elem_of_seq. lia.
      + intros (k & -> & Hk%elem_of_seq).
        destruct (rows_filled m fps r gm Hr Hgm (Z.of_nat k)) as (d & Hd & Hyd);
          [lia|fold h; lia|].
        destruct (leaf_on_row m fps r Hlaid (length (levelOffset r)) d Hd)
          as (l & Hl & Hleaf & Hyl); [lia|].
        exists l. split; [fold h in Hyl, Hyd; congruence|]. by apply Hmem. }
  apply Permutation_length in Hperm. rewrite !length_fmap, length_seq in Hperm.
  fold LV. rewrite Hperm. lia.
Qed.

(** X12: the size that [App] computes for the drawing.  No node lies to
    the right of [width] or below [height]; [width] is the last entry of
    the table of offsets, the x of the deepest nodes; [height] is 48 times
    the number of childless nodes less one, that is, the drawing has one row
    per leaf; and every box lies between the upper and the lower edge of
    the [viewBox]. *)
Theorem X12_layout_size m fps r :
  createFileDatas m fps = Some r →
  (∀ g, g < length (objects r) →
     (FileData.x (objects r !!! g) <= (layoutSize r).1)%Q
     ∧ (FileData.y (objects r !!! g) ≤ (layoutSize r).2)%Z)
  ∧ ((layoutSize r).1 == default 0%Q (last (levelOffset r)))%Q
  ∧ (layoutSize r).2 = (48 * Z.of_nat (length (leaves r) - 1))%Z
  ∧ (∀ g, g < length (objects r) →
       ((viewBox (layoutSize r)).1.1.2 ≤ FileData.y (objects r !!! g))%Z
       ∧ (FileData.y (objects r !!! g) + 32
          ≤ (viewBox (layoutSize r)).1.1.2 + (viewBox (layoutSize r)).2)%Z).
Proof.
  intros Hr. pose proof (createFileDatas_laid m fps r Hr) as Hlaid.
  destruct (sizeLoop_spec (objects r) (files r) (0%Q, 0%Z)) as (_ & _ & I3 & _).
  fold (layoutSize r) in I3. rewrite (ld_files _ _ _ Hlaid) in I3.
  assert (∀ g, g < length (objects r) →
            (FileData.x (objects r !!! g) <= (layoutSize r).1)%Q
            ∧ (FileData.y (objects r !!! g) ≤ (layoutSize r).2)%Z) as Hb.
  { intros g Hg. apply I3, elem_of_seq. lia. }
  split_and!.
  - done.
  - by apply (width_is_last_offset m fps r).
  - by apply (height_counts_leaves m fps r).
  - intros g Hg. destruct (Hb g Hg) as [_ Hy].
    pose proof (ld_ypos _ _ _ Hlaid g Hg). simpl. lia.
Qed.

Lemma X12_witness :
  ∃ r, createFileDatas measure8 scenarioA = Some r
       ∧ (layoutSize r).2 = (48 * Z.of_nat (length (leaves r) - 1))%Z.
Proof.
  eexists. split; [vm_compute; reflexivity|].
  match goal with
  | |- context [layoutSize ?r] =>
      destruct (X12_layout_size measure8 scenarioA r) as (_ & _ & Hh & _)
  end; [vm_compute; reflexivity|].
  exact Hh.
Defined.

(** * The connector runs from left to right *)

Lemma trunk_between (a w b : Q) :
  (a + (w + 40) + 60 <= b)%Q →
  (a + w + 40 + 5 + 25 <= (a + w + 40 + 5 + (b - 5)) / 2)%Q
  ∧ ((a + w + 40 + 5 + (b - 5)) / 2 + 25 <= b - 5)%Q.
Proof.
  intros Hsep.
  assert (((a + w + 40 + 5 + (b - 5)) / 2 == (a + w + 40 + b) * (1 # 2))%Q) as ->
    by field.
  split; lra.
Qed.

(** X13: where the measured widths are whole numbers and the table of
    offsets stays within 2^52 (there the doubles of the source compute
    without rounding) the connector of a node with children runs from left
    to right: it starts 5 to the right of the box of the parent, its trunk
    lies at least 25 farther right, and its stubs end at least 25 to the
    right of the trunk, 5 before the children; the trunk runs downwards. *)
Theorem X13_connector_left_to_right m fps r f :
  createFileDatas m fps = Some r →
  exactRun m r →
  FileData.children (objects r !!! f) ≠ [] →
  ∃ x0 mid x1 y0 y1,
    connector m (objects r) f
    = [MoveTo x0 y0; LineTo mid y0; LineTo mid y1]
      ++ flat_map (λ child,
           [MoveTo mid (FileData.y (objects r !!! child) + 16)%Z;
            LineTo x1 (FileData.y (objects r !!! child) + 16)%Z])
           (FileData.children (objects r !!! f))
    ∧ (x0 == FileData.x (objects r !!! f) + boxWidth m (objects r) f + 5)%Q
    ∧ (x0 + 25 <= mid)%Q ∧ (mid + 25 <= x1)%Q
    ∧ (∀ c, c ∈ FileData.children (objects r !!! f) →
         (x1 == FileData.x (objects r !!! c) - 5)%Q)
    ∧ (y0 ≤ y1)%Z.
Proof.
  intros Hr%createFileDatas_laid Hex Hne.
  pose proof (exactRun_nonneg _ _ Hex) as Hm. set (h := objects r) in *.
  pose proof (ld_forest _ _ _ Hr) as Hfo. fold h in Hfo.
  destruct (FileData.children (h !!! f)) as [|c0 cs] eqn:E; [done|].
  assert (c0 ∈ FileData.children (h !!! f)) as Hc0 by (rewrite E; by left).
  pose proof (children_valid h f c0 Hc0) as Hf.
  pose proof (ld_placed _ _ _ Hr f Hf) as [_ Hbelow _ _]. fold h in Hbelow.
  assert (∀ c, c ∈ FileData.children (h !!! f) →
            FileData.x (h !!! c) = FileData.x (h !!! c0)) as Hshare.
  { intros c Hc. destruct (fo_child h Hfo f c Hf Hc) as [Hcl Hlev].
    destruct (fo_child h Hfo f c0 Hf Hc0) as [Hc0l Hlev0].
    pose proof (pl_x _ _ _ (ld_placed _ _ _ Hr c Hcl)) as Hx.
    pose proof (pl_x _ _ _ (ld_placed _ _ _ Hr c0 Hc0l)) as Hx0.
    fold h in Hx, Hx0. rewrite Hlev in Hx. rewrite Hlev0 in Hx0. congruence. }
  assert ((FileData.x (h !!! f) + boxWidth m h f + 60 <= FileData.x (h !!! c0))%Q)
    as Hsep.
  { apply (ancestor_box m fps r f c0 Hm Hr Hf).
    - eapply desc_step; [done|constructor].
    - intros ->. by apply (child_not_self h c0 Hfo Hf). }
  set (rows := map (λ child, FileData.y (h !!! child)) (c0 :: cs)).
  destruct (maxOf_spec rows) as [Hin Hmax]; [done|].
  apply list_elem_of_fmap in Hin as (cm & Hcm & Hcmin).
  rewrite E in Hshare, Hbelow.
  eexists _, _, _, _, _. split; [unfold connector; fold h; rewrite E; reflexivity|].
  unfold boxWidth in *. fold h. fold rows. simpl.
  destruct (trunk_between _ _ _ Hsep) as [Hleft Hright].
  split_and!.
  - ring.
  - exact Hleft.
  - exact Hright.
  - intros c Hc. by rewrite (Hshare c Hc).
  - change (FileData.y (h !!! f) + 16 ≤ maxOf rows + 16)%Z. rewrite Hcm.
    specialize (Hbelow cm Hcmin). lia.
Qed.

Lemma X13_witness :
  ∃ r, createFileDatas measure8 scenarioA = Some r
       ∧ ∃ x0 mid x1 y0 y1,
           connector measure8 (objects r) 0
           = [MoveTo x0 y0; LineTo mid y0; LineTo mid y1]
             ++ flat_map (λ child,
                  [MoveTo mid (FileData.y (objects r !!! child) + 16)%Z;
                   LineTo x1 (FileData.y (objects r !!! child) + 16)%Z])
                  (FileData.children (objects r !!! 0))
           ∧ (x0 + 25 <= mid)%Q.
Proof.
  eexists. split; [vm_compute; reflexivity|].
  match goal with
  | |- context [objects ?r] =>
      destruct (X13_connector_left_to_right measure8 scenarioA r 0)
        as (x0 & mid & x1 & y0 & y1 & Hc & _ & Hle & _)
  end.
  - vm_compute; reflexivity.
  - split.
    + intros s. exists (8 * Z.of_nat (String.length s))%Z. split; [lia|reflexivity].
    + repeat constructor; by vm_compute.
  - by vm_compute.
  - exists x0, mid, x1, y0, y1. split; [exact Hc|exact Hle].
Defined.

(** * What the measure does not reach *)

Lemma sameButX_seq h1 h2 l :
  sameButX h1 h2 → FileData.seq (h1 !!! l) = FileData.seq (h2 !!! l).
Proof. intros [_ H]. specialize (H l). unfold noX in H. congruence. Qed.

Lemma sameButX_children h1 h2 l :
  sameButX h1 h2 → FileData.children (h1 !!! l) = FileData.children (h2 !!! l).
Proof. intros [_ H]. specialize (H l). unfold noX in H. congruence. Qed.

Lemma sameButX_y h1 h2 l :
  sameButX h1 h2 → FileData.y (h1 !!! l) = FileData.y (h2 !!! l).
Proof. intros [_ H]. specialize (H l). unfold noX in H. congruence. Qed.

Lemma sameButX_level h1 h2 l :
  sameButX h1 h2 → FileData.level (h1 !!! l) = FileData.level (h2 !!! l).
Proof. intros [_ H]. specialize (H l). unfold noX in H. congruence. Qed.

Lemma sameButX_kids h1 h2 f : sameButX h1 h2 → kids h1 f = kids h2 f.
Proof.
  intros Hs. unfold kids. rewrite (sameButX_children h1 h2) by done.
  apply toSorted_ext. intros a b. unfold cmpSeq.
  by rewrite !(sameButX_seq h1 h2).
Qed.

Lemma sameButX_set_pos h1 h2 x1 x2 yv f :
  sameButX h1 h2 →
  sameButX (alter (FileData.set_pos x1 yv) f h1) (alter (FileData.set_pos x2 yv) f h2).
Proof.
  intros [Hlen Hs]. split; [by rewrite !length_alter|]. intros l.
  rewrite !list_lookup_total_alter, Hlen.
  case_decide; [|done]. specialize (Hs f). unfold noX in *. simpl. congruence.
Qed.

Lemma visit_children_sameButX n1 n2 lo1 lo2 :
  (∀ f b h1 h2 l1 h1' l2 h2',
     setFilePos n1 lo1 f b h1 = Some (l1, h1') →
     setFilePos n2 lo2 f b h2 = Some (l2, h2') →
     sameButX h1 h2 → l1 = l2 ∧ sameButX h1' h2') →
  ∀ cs lc hc1 hc2 l1 h1' l2 h2',
    foldl (visitChild (setFilePos n1 lo1)) (Some (lc, hc1)) cs = Some (l1, h1') →
    foldl (visitChild (setFilePos n2 lo2)) (Some (lc, hc2)) cs = Some (l2, h2') →
    sameButX hc1 hc2 → l1 = l2 ∧ sameButX h1' h2'.
Proof.
  intros IH. induction cs as [|c cs IHcs]; intros lc hc1 hc2 l1 h1' l2 h2' R1 R2 Hs;
    simpl in R1, R2.
  - by simplify_eq.
  - rewrite (sameButX_y hc1 hc2) in R1 by done.
    destruct (setFilePos n1 lo1 c (FileData.y (hc2 !!! lc)) hc1) as [[a1 g1]|] eqn:E1;
      [|by rewrite foldl_visitChild_None in R1].
    destruct (setFilePos n2 lo2 c (FileData.y (hc2 !!! lc)) hc2) as [[a2 g2]|] eqn:E2;
      [|by rewrite foldl_visitChild_None in R2].
    destruct (IH _ _ _ _ _ _ _ _ E1 E2 Hs) as [<- Hs'].
    by apply (IHcs a1 g1 g2).
Qed.

Lemma setFilePos_sameButX lo1 lo2 : ∀ n1 n2 f b h1 h2 l1 h1' l2 h2',
  setFilePos n1 lo1 f b h1 = Some (l1, h1') →
  setFilePos n2 lo2 f b h2 = Some (l2, h2') →
  sameButX h1 h2 → l1 = l2 ∧ sameButX h1' h2'.
Proof.
  induction n1 as [|n1 IH]; intros [|n2] f b h1 h2 l1 h1' l2 h2' R1 R2 Hs; try done.
  rewrite setFilePos_S in R1, R2.
  destruct (lo1 !! FileData.level (h1 !!! f)) as [x1|]; [|done].
  destruct (lo2 !! FileData.level (h2 !!! f)) as [x2|]; [|done].
  simpl in R1, R2.
  assert (rowShift h1 f = rowShift h2 f) as Eshift
    by (unfold rowShift; by rewrite (sameButX_seq h1 h2)).
  rewrite Eshift in R1.
  pose proof (sameButX_set_pos h1 h2 x1 x2 (b + rowShift h2 f) f Hs) as Hs1.
  rewrite (sameButX_kids _ _ f Hs1) in R1.
  eapply (visit_children_sameButX n1 n2 lo1 lo2); [|exact R1|exact R2|exact Hs1].
  intros. by eapply (IH n2).
Qed.

Lemma visit_roots_sameButX n1 n2 lo1 lo2 :
  ∀ rs lc hc1 hc2 lc1 h1' lc2 h2',
    foldl (visitRoot n1 lo1) (Some (lc, hc1)) rs = Some (lc1, h1') →
    foldl (visitRoot n2 lo2) (Some (lc, hc2)) rs = Some (lc2, h2') →
    sameButX hc1 hc2 → sameButX h1' h2'.
Proof.
  induction rs as [|c rs IH]; intros lc hc1 hc2 lc1 h1' lc2 h2' R1 R2 Hs.
  - simpl in R1, R2. by simplify_eq.
  - change (foldl (visitRoot n1 lo1) (Some (lc, hc1)) (c :: rs))
      with (foldl (visitRoot n1 lo1) (visitRoot n1 lo1 (Some (lc, hc1)) c) rs) in R1.
    change (foldl (visitRoot n2 lo2) (Some (lc, hc2)) (c :: rs))
      with (foldl (visitRoot n2 lo2) (visitRoot n2 lo2 (Some (lc, hc2)) c) rs) in R2.
    unfold visitRoot at 2 in R1. unfold visitRoot at 2 in R2. simpl in R1, R2.
    fold (rootBase lc hc1) in R1. fold (rootBase lc hc2) in R2.
    assert (rootBase lc hc1 = rootBase lc hc2) as Eb.
    { destruct lc; simpl; [by apply sameButX_y|done]. }
    rewrite Eb in R1.
    destruct (setFilePos n1 lo1 c (rootBase lc hc2) hc1) as [[a1 g1]|] eqn:E1;
      [|by rewrite foldl_visitRoot_None in R1].
    destruct (setFilePos n2 lo2 c (rootBase lc hc2) hc2) as [[a2 g2]|] eqn:E2;
      [|by rewrite foldl_visitRoot_None in R2].
    simpl in R1, R2.
    destruct (setFilePos_sameButX lo1 lo2 _ _ _ _ _ _ _ _ _ _ E1 E2 Hs) as [<- Hs'].
    by apply (IH (Some a1) g1 g2 lc1 h1' lc2 h2').
Qed.

Lemma runs_sameButX m1 m2 fps r1 r2 :
  createFileDatas m1 fps = Some r1 →
  createFileDatas m2 fps = Some r2 →
  sameButX (objects r1) (objects r2).
Proof.
  intros Hr1 Hr2.
  destruct (createFileDatas_run m1 fps r1 Hr1) as (lc1 & _ & _ & _ & Hf1 & Hrun1).
  destruct (createFileDatas_run m2 fps r2 Hr2) as (lc2 & _ & _ & _ & Hf2 & Hrun2).
  set (h := setSeqs (buildTree fps)) in *.
  unfold placeRoots in Hrun1, Hrun2.
  by apply (visit_roots_sameButX _ _ _ _ _ None h h lc1 (objects r1) lc2 (objects r2)
              Hrun1 Hrun2).
Qed.

Lemma runs_same_columns m1 m2 fps r1 r2 :
  Laid m1 fps r1 → Laid m2 fps r2 → sameButX (objects r1) (objects r2) →
  length (levelOffset r1) = length (levelOffset r2).
Proof.
  intros L1 L2 Hs.
  assert (∀ k, k < length (levelOffset r1) ↔ k < length (levelOffset r2)) as Hiff.
  { intros k. destruct (decide (k = 0)) as [->|Hk].
    - destruct (laid_widths _ _ _ L1) as (ws1 & -> & _).
      destruct (laid_widths _ _ _ L2) as (ws2 & -> & _).
      rewrite !length_offsetsOf. lia.
    - rewrite (offsets_entries m1 fps r1 k L1), (offsets_entries m2 fps r2 k L2) by lia.
      pose proof Hs as [Hlen _]. rewrite Hlen.
      split; intros (g & Hg & Hl); exists g; (split; [done|]);
        [rewrite <-(sameButX_level _ _ g Hs)|rewrite (sameButX_level _ _ g Hs)];
        done. }
  destruct (Nat.lt_trichotomy (length (levelOffset r1)) (length (levelOffset r2)))
    as [Hlt|[?|Hlt]]; [|done|].
  - apply Hiff in Hlt. lia.
  - apply Hiff in Hlt. lia.
Qed.

(** X14: the measure of the text reaches the x of the nodes and the table
    of offsets only.  Two runs on the same input under different measures
    return the same nodes in the same order, equal in every field but x
    (links, kind, path, name, depth, rank and y), and tables of offsets of
    the same length. *)
Theorem X14_measure_only_moves_x m1 m2 fps r1 r2 :
  createFileDatas m1 fps = Some r1 →
  createFileDatas m2 fps = Some r2 →
  files r1 = files r2
  ∧ sameButX (objects r1) (objects r2)
  ∧ length (levelOffset r1) = length (levelOffset r2).
Proof.
  intros Hr1 Hr2.
  pose proof (runs_sameButX m1 m2 fps r1 r2 Hr1 Hr2) as Hs.
  pose proof (createFileDatas_laid m1 fps r1 Hr1) as L1.
  pose proof (createFileDatas_laid m2 fps r2 Hr2) as L2.
  split_and!.
  - rewrite (ld_files _ _ _ L1), (ld_files _ _ _ L2). by destruct Hs as [-> _].
  - done.
  - by apply (runs_same_columns m1 m2 fps).
Qed.

Lemma X14_witness :
  ∃ r1 r2, createFileDatas measure8 scenarioA = Some r1
           ∧ createFileDatas (λ _, 0%Q) scenarioA = Some r2
           ∧ files r1 = files r2.
Proof.
  eexists _, _. split; [vm_compute; reflexivity|]. split; [vm_compute; reflexivity|].
  match goal with
  | |- files ?r1 = files ?r2 =>
      destruct (X14_measure_only_moves_x measure8 (λ _, 0%Q) scenarioA r1 r2)
        as (Hf & _)
  end; [vm_compute; reflexivity|vm_compute; reflexivity|exact Hf].
Defined.

(** * Every input gives a layout *)

(** X15: [createFileDatas] returns a layout for every input and every
    measure: the recursion of [setFilePos] ends within the depth of the
    tree, and no [undefined] or [NaN] arises in the table of offsets or in
    a coordinate.  There are no nodes exactly when the input is empty, and
    then the table of offsets is [0] and the size of the drawing 0 by 0. *)
Theorem X15_always_a_layout m fps :
  ∃ r, createFileDatas m fps = Some r
       ∧ (files r = [] ↔ fps = [])
       ∧ (fps = [] → r = mkLayout [] [] [0%Q] ∧ layoutSize r = (0%Q, 0%Z)).
Proof.
  destruct (layout_laid m fps) as (r & Hr & Hlaid). exists r.
  split; [done|].
  assert (fps = [] → r = mkLayout [] [] [0%Q]) as Hempty.
  { intros ->. assert (createFileDatas m [] = Some (mkLayout [] [] [0%Q])) as E
      by reflexivity. congruence. }
  split_and!.
  - split; [|by intros ->%Hempty]. intros Hnil.
    destruct fps as [|fp fps']; [done|]. exfalso.
    pose proof (tree_static _ _ (buildTree_inv (fp :: fps'))) as Hst.
    assert (join (take 1 (split fp)) ∈ FileData.path <$> heap (buildTree (fp :: fps')))
      as Hin.
    { apply (inv_keys _ _ _ Hst). exists fp. split; [by left|].
      apply elem_of_prefixes. exists 0. split; [|done].
      pose proof (split_nonempty fp). destruct (split fp); [done|simpl; lia]. }
    destruct (ld_struct _ _ _ Hlaid) as [Hl _].
    rewrite (ld_files _ _ _ Hlaid), Hl in Hnil.
    rewrite <-(length_fmap FileData.path) in Hnil.
    destruct (FileData.path <$> _) eqn:E; [by apply elem_of_nil in Hin|done].
  - intros Hnil. rewrite (Hempty Hnil). done.
Qed.

(** * The display order does not depend on the sorting algorithm *)

Lemma cmpChildren_strict h f a b :
  Forest h → f < length h →
  a ∈ FileData.children (h !!! f) → b ∈ FileData.children (h !!! f) → a ≠ b →
  FileData.base (h !!! a) ≠ FileData.base (h !!! b)
  ∧ (cle (cmpChildren h) a b ↔ ¬ cle (cmpChildren h) b a).
Proof.
  intros Hfo Hf Ha Hb Hne.
  pose proof (fo_bases h Hfo f a b Hf Ha Hb Hne) as Hbase. split; [done|].
  assert (∀ c, c ∈ FileData.children (h !!! f) →
            FileData.type (h !!! c) = Dir ∨ FileData.type (h !!! c) = Js) as Hty.
  { intros c Hc. apply (fo_type h Hfo). by apply (fo_child h Hfo f c). }
  rewrite !cmpChildren_cle by by apply Hty.
  pose proof (string_ltb_asym (FileData.base (h !!! a)) (FileData.base (h !!! b))) as Has.
  pose proof (string_ltb_total (FileData.base (h !!! a)) (FileData.base (h !!! b)) Hbase)
    as Htot.
  destruct (Hty a Ha) as [Ea|Ea], (Hty b Hb) as [Eb|Eb]; rewrite Ea, Eb;
    destruct (String.ltb (FileData.base (h !!! a)) (FileData.base (h !!! b))) eqn:E1;
    destruct (String.ltb (FileData.base (h !!! b)) (FileData.base (h !!! a))) eqn:E2;
    try (specialize (Has eq_refl)); try (specialize (Htot eq_refl));
    try congruence; split; intros; intuition congruence.
Qed.

(** X16: the comparator of the ranking sort is a strict total order on
    every sibling group, whose names are pairwise different; so the display
    order does not depend on the sorting algorithm.  Any arrangement of the
    children of a node that is sorted by the comparator is the one the code
    computes, and the rank of a child is its index in it. *)
Theorem X16_display_order_unique m fps r f :
  createFileDatas m fps = Some r → f < length (objects r) →
  (∀ a b, a ∈ FileData.children (objects r !!! f) →
     b ∈ FileData.children (objects r !!! f) → a ≠ b →
     FileData.base (objects r !!! a) ≠ FileData.base (objects r !!! b)
     ∧ (cle (cmpChildren (objects r)) a b ↔ ¬ cle (cmpChildren (objects r)) b a))
  ∧ ∀ l, l ≡ₚ FileData.children (objects r !!! f) →
      StronglySorted (cle (cmpChildren (objects r))) l →
      l = sortedChildren (objects r) f
      ∧ ∀ i c, l !! i = Some c → FileData.seq (objects r !!! c) = i.
Proof.
  intros Hr%createFileDatas_laid Hf. set (h := objects r) in *.
  pose proof (ld_forest _ _ _ Hr) as Hfo. pose proof (ld_ranked _ _ _ Hr) as Hrk.
  fold h in Hfo, Hrk. split.
  - intros a b Ha Hb Hne. by apply (cmpChildren_strict h f).
  - intros l Hperm Hsorted.
    assert (l = sortedChildren h f) as ->.
    { apply (StronglySorted_unique_strong (cle (cmpChildren h))); try done.
      - intros a b Ha Hb Hab Hba. rewrite Hperm in Ha.
        apply sortedChildren_elem in Hb.
        destruct (decide (a = b)) as [|Hne]; [done|]. exfalso.
        by apply (cmpChildren_strict h f a b Hfo Hf Ha Hb Hne) in Hab.
      - by apply sortedChildren_sorted.
      - unfold sortedChildren. by rewrite toSorted_perm. }
    split; [done|]. intros i c Hc. by apply (rk_child h Hrk f).
Qed.

Lemma X16_witness :
  ∃ r, createFileDatas measure8 scenarioA = Some r
       ∧ [1; 2] = sortedChildren (objects r) 0.
Proof.
  eexists. split; [vm_compute; reflexivity|].
  match goal with
  | |- context [objects ?r] =>
      destruct (X16_display_order_unique measure8 scenarioA r 0) as [_ Huniq]
  end; [vm_compute; reflexivity|vm_compute; lia|].
  apply Huniq.
  - vm_compute. reflexivity.
  - repeat constructor. vm_compute. discriminate.
Defined.

(** * Growing the input *)

Lemma extends_refl h : extends h h.
Proof. split; [done|]. by intros l _. Qed.

Lemma extends_trans h1 h2 h3 : extends h1 h2 → extends h2 h3 → extends h1 h3.
Proof.
  intros [L1 E1] [L2 E2]. split; [lia|]. intros l Hl.
  destruct (E1 l Hl) as [S1 P1]. destruct (E2 l ltac:(lia)) as [S2 P2].
  split; [congruence|]. by etrans.
Qed.

Lemma extends_app h news : extends h (h ++ news).
Proof.
  split; [rewrite length_app; lia|]. intros l Hl.
  by rewrite lookup_total_app_l.
Qed.

Lemma extends_alter (f : FileData → FileData) i h :
  (∀ d, staticOf (f d) = staticOf d
        ∧ FileData.children d `prefix_of` FileData.children (f d)) →
  extends h (alter f i h).
Proof.
  intros Hf. split; [by rewrite length_alter|]. intros l Hl.
  rewrite list_lookup_total_alter. case_decide as Hd; [|done].
  destruct Hd as [-> _]. apply Hf.
Qed.

Lemma mapStep_extends paths s i base :
  extends (heap s) (heap (mapStep paths s i base).2).
Proof.
  destruct (Map_get (filesMap s) (join (take (i + 1) paths))) as [l|] eqn:Hget.
  - rewrite (mapStep_found _ _ _ _ l) by done. apply extends_refl.
  - rewrite mapStep_new by done. simpl. apply extends_app.
Qed.

Lemma mapFrom_extends paths rest : ∀ s index,
  extends (heap s) (heap (mapFrom paths s index rest).2).
Proof.
  induction rest as [|base rest IH]; intros s index; simpl; [apply extends_refl|].
  pose proof (mapStep_extends paths s index base) as H1.
  destruct (mapStep paths s index base) as [data s1]. simpl in *.
  specialize (IH s1 (S index)).
  destruct (mapFrom paths s1 (S index) rest). simpl in *. by eapply extends_trans.
Qed.

Lemma linkStep_extends files h i : extends h (linkStep files h i).
Proof.
  unfold linkStep. destruct (files !! i) as [c|]; [|apply extends_refl].
  destruct (files !! (i - 1)) as [p|]; [|apply extends_refl]. simpl.
  assert (extends h (alter (FileData.set_parent p) c h)) as H1.
  { apply extends_alter. by intros d. }
  case_bool_decide; [done|]. eapply extends_trans; [exact H1|].
  apply extends_alter. intros d. split; [done|]. simpl. by apply prefix_app_r.
Qed.

Lemma linkLoop_extends files idx : ∀ h, extends h (foldl (linkStep files) h idx).
Proof.
  induction idx as [|i idx IH]; intros h; simpl; [apply extends_refl|].
  eapply extends_trans; [apply linkStep_extends|apply IH].
Qed.

Lemma addPath_extends s fp : extends (heap s) (heap (addPath s fp)).
Proof.
  rewrite addPath_unfold. simpl.
  eapply extends_trans; [apply mapFrom_extends|apply linkLoop_extends].
Qed.

Lemma foldl_addPath_extends more : ∀ s,
  extends (heap s) (heap (foldl addPath s more)).
Proof.
  induction more as [|fp more IH]; intros s; simpl; [apply extends_refl|].
  eapply extends_trans; [apply addPath_extends|apply IH].
Qed.

(** X17: input paths added at the end leave the nodes of the shorter input
    in place.  The files of the shorter input are the first files of the
    longer one; each keeps its path, name, depth, kind and parent; and its
    children in the longer run start with its children in the shorter run. *)
Theorem X17_appending_keeps_nodes m fps more r r' :
  createFileDatas m fps = Some r →
  createFileDatas m (fps ++ more) = Some r' →
  files r `prefix_of` files r'
  ∧ ∀ l, l < length (objects r) →
      staticOf (objects r' !!! l) = staticOf (objects r !!! l)
      ∧ FileData.parent (objects r' !!! l) = FileData.parent (objects r !!! l)
      ∧ FileData.children (objects r !!! l)
        `prefix_of` FileData.children (objects r' !!! l).
Proof.
  intros Hr%createFileDatas_laid Hr'%createFileDatas_laid.
  pose proof (ld_struct _ _ _ Hr) as Hs. pose proof (ld_struct _ _ _ Hr') as Hs'.
  pose proof Hs as [Hlen _]. pose proof Hs' as [Hlen' _].
  pose proof (foldl_addPath_extends more (buildTree fps)) as [Hle Hext].
  unfold buildTree in Hlen', Hs', Hext, Hle. rewrite foldl_app in Hlen', Hs'.
  fold (buildTree fps) in Hlen', Hs', Hext, Hle.
  set (h := heap (buildTree fps)) in *.
  set (h' := heap (foldl addPath (buildTree fps) more)) in *.
  assert (∀ l, l < length (objects r) →
            staticOf (objects r' !!! l) = staticOf (objects r !!! l)
            ∧ FileData.children (objects r !!! l)
              `prefix_of` FileData.children (objects r' !!! l)) as Hkeep.
  { intros l Hl. destruct (Hext l ltac:(lia)) as [Hst Hpre].
    destruct (sameStruct_fields _ _ l Hs) as (Ec & El & Eb & Et & _ & Ep).
    destruct (sameStruct_fields _ _ l Hs') as (Ec' & El' & Eb' & Et' & _ & Ep').
    unfold staticOf in *. rewrite Ec, Ec', El, El', Eb, Eb', Et, Et', Ep, Ep'.
    done. }
  split.
  - rewrite (ld_files _ _ _ Hr), (ld_files _ _ _ Hr').
    exists (List.seq (length (objects r)) (length (objects r') - length (objects r))).
    rewrite <-seq_app. f_equal. lia.
  - intros l Hl. destruct (Hkeep l Hl) as [Hst Hpre]. split_and!; [done| |done].
    pose proof (ld_forest _ _ _ Hr) as Hfo. pose proof (ld_forest _ _ _ Hr') as Hfo'.
    assert (l < length (objects r')) as Hl' by lia.
    assert (FileData.level (objects r' !!! l) = FileData.level (objects r !!! l))
      as Elev by (unfold staticOf in Hst; congruence).
    destruct (FileData.parent (objects r !!! l)) as [p|] eqn:Ep.
    + destruct (fo_parent _ Hfo l p Hl Ep) as [Hp Hin].
      destruct (Hkeep p Hp) as [_ Hpp].
      assert (l ∈ FileData.children (objects r' !!! p)) as Hin'.
      { destruct Hpp as [k ->]. apply elem_of_app. by left. }
      destruct (fo_haspar _ Hfo' l Hl') as (p' & Hp' & Hin'').
      { rewrite Elev. destruct (fo_child _ Hfo p l Hp Hin) as [_ ->]. lia. }
      assert (p' = p) as -> by (eapply (fo_uniq _ Hfo'); [done|lia|done|done]).
      pose proof (buildTree_parent (fps ++ more)) as Hok.
      destruct (sameStruct_fields _ _ p Hs') as (Ecp & _).
      destruct (sameStruct_fields _ _ l Hs') as (_ & _ & _ & _ & Epl & _).
      rewrite Epl. rewrite Ecp in Hin'. unfold buildTree in Hok.
      rewrite foldl_app in Hok. fold (buildTree fps) in Hok. fold h' in Hok.
      apply (Hok p (h' !!! p) l (h' !!! l));
        [apply lookup_total_Some; lia|done|apply lookup_total_Some; lia].
    + destruct (FileData.parent (objects r' !!! l)) as [p'|] eqn:Ep'; [|done].
      destruct (fo_parent _ Hfo' l p' Hl' Ep') as [Hp' Hin'].
      destruct (fo_child _ Hfo' p' l Hp' Hin') as [_ Hlev'].
      destruct (FileData.level (objects r !!! l)) eqn:El0; [lia|].
      destruct (fo_haspar _ Hfo l Hl) as (p & Hp & Hin); [lia|].
      pose proof (buildTree_parent fps) as Hok. fold h in Hok.
      destruct (sameStruct_fields _ _ p Hs) as (Ecp & _).
      destruct (sameStruct_fields _ _ l Hs) as (_ & _ & _ & _ & Epl & _).
      rewrite Epl in Ep. rewrite Ecp in Hin.
      rewrite (Hok p (h !!! p) l (h !!! l)) in Ep;
        [done|apply lookup_total_Some; lia|done|apply lookup_total_Some; lia].
Qed.

Lemma X17_witness :
  ∃ r r', createFileDatas measure8 ["a/x.js"%string] = Some r
          ∧ createFileDatas measure8 (["a/x.js"%string] ++ ["a/y.js"%string; "b.js"%string])
            = Some r'
          ∧ files r `prefix_of` files r'.
Proof.
  eexists _, _. split; [vm_compute; reflexivity|]. split; [vm_compute; reflexivity|].
  match goal with
  | |- files ?r `prefix_of` files ?r' =>
      destruct (X17_appending_keeps_nodes measure8 ["a/x.js"%string]
                  ["a/y.js"%string; "b.js"%string] r r') as [Hf _]
  end; [vm_compute; reflexivity|vm_compute; reflexivity|exact Hf].
Defined.

(** * Names of leaves do not move the columns *)

Lemma column_width_agrees m1 m2 fps r1 r2 k v1 v2 :
  (∀ s, (0 <= m1 s)%Q) → (∀ s, (0 <= m2 s)%Q) →
  Laid m1 fps r1 → Laid m2 fps r2 → sameButX (objects r1) (objects r2) →
  (∀ g, g < length (objects r1) → isParent (objects r1) g →
     (m1 (FileData.base (objects r1 !!! g)) == m2 (FileData.base (objects r1 !!! g)))%Q) →
  (∃ g, g < length (objects r1) ∧ FileData.level (objects r1 !!! g) = k
        ∧ isParent (objects r1) g) →
  columnWidths m1 (objects r1) (List.seq 0 (length (objects r1))) !! k = Some (Some v1) →
  columnWidths m2 (objects r2) (List.seq 0 (length (objects r2))) !! k = Some (Some v2) →
  (v1 == v2)%Q.
Proof.
  intros Hm1 Hm2 L1 L2 Hs Hagree Hpar Hv1 Hv2.
  destruct (columnWidths_spec m1 (objects r1) (ld_forest _ _ _ L1)) as (_ & _ & I1).
  destruct (columnWidths_spec m2 (objects r2) (ld_forest _ _ _ L2)) as (_ & _ & I2).
  pose proof Hs as [Hlen Hno].
  assert (∀ g, isParent (objects r1) g ↔ isParent (objects r2) g) as Hpiff.
  { intros g. unfold isParent. by rewrite (sameButX_children _ _ g Hs). }
  assert (∀ g, FileData.base (objects r1 !!! g) = FileData.base (objects r2 !!! g))
    as Hbase.
  { intros g. specialize (Hno g). unfold noX in Hno. congruence. }
  assert (∀ g, g < length (objects r1) → isParent (objects r1) g →
            (boxWidth m1 (objects r1) g == boxWidth m2 (objects r2) g)%Q) as Hbw.
  { intros g Hg Hp. unfold boxWidth. rewrite <-Hbase, (Hagree g Hg Hp). reflexivity. }
  destruct (I1 Hm1 k Hpar) as (w1 & Hw1 & (g1 & Hg1 & Hl1 & Hp1 & E1) & U1).
  destruct (I2 Hm2 k) as (w2 & Hw2 & (g2 & Hg2 & Hl2 & Hp2 & E2) & U2).
  { destruct Hpar as (g & Hg & Hl & Hp). exists g.
    rewrite <-Hlen, <-(sameButX_level _ _ g Hs). split_and!; [done|done|by apply Hpiff]. }
  rewrite Hw1 in Hv1. rewrite Hw2 in Hv2. injection Hv1 as <-. injection Hv2 as <-.
  apply Qle_antisym.
  - rewrite E1, (Hbw g1 Hg1 Hp1). apply U2; [lia| |by apply Hpiff].
    by rewrite <-(sameButX_level _ _ g1 Hs).
  - rewrite E2. rewrite <-Hlen in Hg2. apply Hpiff in Hp2.
    rewrite <-(Hbw g2 Hg2 Hp2). apply U1; [done| |done].
    by rewrite (sameButX_level _ _ g2 Hs).
Qed.

(** X18: the names of the nodes without children do not move the columns.
    If two measures, never negative, agree on the names of the nodes that
    have children, the two runs give the same table of offsets and the same
    x for every node (and, the rest being independent of the measure, the
    same layout). *)
Theorem X18_leaf_names_do_not_move_columns m1 m2 fps r1 r2 :
  (∀ s, (0 <= m1 s)%Q) → (∀ s, (0 <= m2 s)%Q) →
  createFileDatas m1 fps = Some r1 →
  createFileDatas m2 fps = Some r2 →
  (∀ g, g < length (objects r1) → isParent (objects r1) g →
     (m1 (FileData.base (objects r1 !!! g)) == m2 (FileData.base (objects r1 !!! g)))%Q) →
  Forall2 Qeq (levelOffset r1) (levelOffset r2)
  ∧ ∀ l, l < length (objects r1) →
      (FileData.x (objects r1 !!! l) == FileData.x (objects r2 !!! l))%Q.
Proof.
  intros Hm1 Hm2 Hr1 Hr2 Hagree.
  pose proof (runs_sameButX m1 m2 fps r1 r2 Hr1 Hr2) as Hs.
  pose proof (createFileDatas_laid m1 fps r1 Hr1) as L1.
  pose proof (createFileDatas_laid m2 fps r2 Hr2) as L2.
  pose proof (runs_same_columns m1 m2 fps r1 r2 L1 L2 Hs) as Hlen.
  pose proof (ld_forest _ _ _ L1) as Hfo.
  destruct (laid_widths _ _ _ L1) as (ws1 & Hlo1 & Hpos1 & Hlen1 & Hlook1).
  destruct (laid_widths _ _ _ L2) as (ws2 & Hlo2 & Hpos2 & Hlen2 & Hlook2).
  assert (∀ k o1 o2, levelOffset r1 !! k = Some o1 → levelOffset r2 !! k = Some o2 →
            (o1 == o2)%Q) as Hentry.
  { induction k as [|k IH]; intros o1 o2 H1 H2.
    - rewrite Hlo1, offsetsOf_eq in H1. rewrite Hlo2, offsetsOf_eq in H2.
      simpl in H1, H2. by simplify_eq.
    - destruct (lookup_lt_is_Some_2 (levelOffset r1) k) as [p1 Hp1].
      { apply lookup_lt_Some in H1. lia. }
      destruct (lookup_lt_is_Some_2 (levelOffset r2) k) as [p2 Hp2].
      { apply lookup_lt_Some in H2. lia. }
      specialize (IH p1 p2 Hp1 Hp2).
      pose proof H1 as H1'. pose proof Hp1 as Hp1'.
      rewrite Hlo1 in H1, Hp1. rewrite Hlo2 in H2, Hp2.
      destruct (offsetsOf_step ws1 k p1 o1 Hp1 H1) as (w1 & Hw1 & E1).
      destruct (offsetsOf_step ws2 k p2 o2 Hp2 H2) as (w2 & Hw2 & E2).
      assert ((w1 == w2)%Q) as Ew; [|rewrite E1, E2, IH, Ew; reflexivity].
      apply (column_width_agrees m1 m2 fps r1 r2 k w1 w2); try done;
        [|by apply Hlook1|by apply Hlook2].
      destruct (proj1 (offsets_entries m1 fps r1 (S k) L1 ltac:(lia)))
        as (g & Hg & Hlev); [by eapply lookup_lt_Some|].
      destruct (fo_haspar _ Hfo g Hg) as (p & Hp & Hin); [lia|].
      destruct (fo_child _ Hfo p g Hp Hin) as [_ Hlp].
      exists p. split_and!; [done|lia|]. unfold isParent. intros E.
      rewrite E in Hin. by apply elem_of_nil in Hin. }
  split.
  - apply Forall2_same_length_lookup. split; [done|]. intros k o1 o2. apply Hentry.
  - intros l Hl.
    pose proof (pl_x _ _ _ (ld_placed _ _ _ L1 l Hl)) as Hx1.
    assert (l < length (objects r2)) as Hl2 by (destruct Hs as [<- _]; done).
    pose proof (pl_x _ _ _ (ld_placed _ _ _ L2 l Hl2)) as Hx2.
    rewrite <-(sameButX_level _ _ l Hs) in Hx2. by apply (Hentry _ _ _ Hx1 Hx2).
Qed.

Lemma X18_witness :
  ∃ r1 r2, createFileDatas measure8 scenarioA = Some r1
           ∧ createFileDatas measureA scenarioA = Some r2
           ∧ Forall2 Qeq (levelOffset r1) (levelOffset r2).
Proof.
  eexists _, _. split; [vm_compute; reflexivity|]. split; [vm_compute; reflexivity|].
  match goal with
  | |- Forall2 Qeq (levelOffset ?r1) (levelOffset ?r2) =>
      destruct (X18_leaf_names_do_not_move_columns measure8 measureA scenarioA r1 r2)
        as [Hlo _]
  end.
  - intros s. unfold measure8, Qle. simpl. lia.
  - intros s. unfold measureA, Qle. destruct (String.eqb s "a"); simpl; lia.
  - vm_compute; reflexivity.
  - vm_compute; reflexivity.
  - intros g Hg Hp. destruct g as [|[|[|[|g]]]].
    + vm_compute. reflexivity.
    + exfalso. apply Hp. reflexivity.
    + exfalso. apply Hp. reflexivity.
    + exfalso. apply Hp. reflexivity.
    + exfalso. vm_compute in Hg. lia.
  - exact Hlo.
Defined.

(** * The block of rows of a subtree *)

Lemma desc_below m fps r f d :
  Laid m fps r → f < length (objects r) → desc (objects r) f d →
  (FileData.y (objects r !!! f) ≤ FileData.y (objects r !!! d))%Z.
Proof.
  intros Hr Hf Hd. induction Hd as [f|f c d Hc Hd IH]; [lia|].
  pose proof (pl_below _ _ _ (ld_placed _ _ _ Hr f Hf) c Hc) as Hle.
  destruct (fo_child _ (ld_forest _ _ _ Hr) f c Hf Hc) as [Hcl _].
  specialize (IH Hcl). lia.
Qed.

Lemma subtree_row_below m fps r f :
  createFileDatas m fps = Some r → f < length (objects r) →
  ∀ n d, FileData.level (objects r !!! d) = FileData.level (objects r !!! f) + n →
    desc (objects r) f d →
    (FileData.y (objects r !!! f) < FileData.y (objects r !!! d))%Z →
    ∃ d', desc (objects r) f d'
          ∧ FileData.y (objects r !!! d) = (FileData.y (objects r !!! d') + 48)%Z.
Proof.
  intros Hr Hf. destruct (createFileDatas_rows m fps r Hr) as (_ & Hin & _).
  pose proof (createFileDatas_laid m fps r Hr) as Hlaid.
  set (h := objects r) in *.
  pose proof (ld_forest _ _ _ Hlaid) as Hfo. fold h in Hfo.
  induction n as [|n IH]; intros d Hlev Hd Hlt.
  - destruct (desc_level h f d Hfo Hd) as [->|[? _]]; lia.
  - destruct (desc_inv_last h f d Hd) as [->|(p & Hp & Hc)]; [lia|].
    assert (p < length h) as Hpl by by eapply desc_valid.
    destruct (fo_child h Hfo p d Hpl Hc) as [Hdl Hlp].
    destruct (FileData.seq (h !!! d)) as [|k] eqn:Hseq.
    + pose proof (first_child_row m fps r p d Hlaid Hc Hseq) as E. fold h in E.
      rewrite E in Hlt |- *. apply (IH p); [lia|done|done].
    + destruct (sg_next _ _ (Hin p Hpl) d Hc) as (c0 & e & Hc0 & _ & He & Hy); [lia|].
      exists e. split; [|done].
      eapply desc_trans; [exact Hp|]. by eapply desc_step.
Qed.

(** X19: the subtree of a node fills a block of rows that starts at the
    row of the node: no node of the subtree lies above the node, and every
    row between the row of the node and the row of a node of its subtree
    holds a node of the subtree. *)
Theorem X19_subtree_fills_a_block m fps r f d :
  createFileDatas m fps = Some r → f < length (objects r) →
  desc (objects r) f d →
  (FileData.y (objects r !!! f) ≤ FileData.y (objects r !!! d))%Z
  ∧ ∀ k, (FileData.y (objects r !!! f) ≤ 48 * k)%Z →
      (48 * k ≤ FileData.y (objects r !!! d))%Z →
      ∃ d', desc (objects r) f d' ∧ FileData.y (objects r !!! d') = (48 * k)%Z.
Proof.
  intros Hr Hf Hd. pose proof (createFileDatas_laid m fps r Hr) as Hlaid.
  destruct (createFileDatas_rows m fps r Hr) as (Hgrid & _ & _).
  pose proof (ld_forest _ _ _ Hlaid) as Hfo.
  split; [by apply (desc_below m fps r)|]. intros k Hlo Hhi.
  destruct (Hgrid d) as [j Hj].
  assert (∀ i d0, desc (objects r) f d0 →
            FileData.y (objects r !!! d0) = (48 * (k + Z.of_nat i))%Z →
            ∃ d', desc (objects r) f d'
                  ∧ FileData.y (objects r !!! d') = (48 * k)%Z) as Hgen.
  { induction i as [|i IH]; intros d0 Hd0 Hy.
    - exists d0. split; [done|]. rewrite Hy. f_equal. lia.
    - destruct (desc_level _ f d0 Hfo Hd0) as [<-|[Hlev _]]; [lia|].
      destruct (subtree_row_below m fps r f Hr Hf
                  (FileData.level (objects r !!! d0) - FileData.level (objects r !!! f))
                  d0) as (d1 & Hd1 & Hy1); [lia|done|lia|].
      apply (IH d1 Hd1). lia. }
  apply (Hgen (Z.to_nat (j - k)) d Hd). lia.
Qed.

Lemma X19_witness :
  ∃ r, createFileDatas measure8 scenarioA = Some r
       ∧ (FileData.y (objects r !!! 0%nat) ≤ FileData.y (objects r !!! 2%nat))%Z.
Proof.
  eexists. split; [vm_compute; reflexivity|].
  match goal with
  | |- context [objects ?r] =>
      destruct (X19_subtree_fills_a_block measure8 scenarioA r 0 2) as [Hle _]
  end.
  - vm_compute; reflexivity.
  - vm_compute; lia.
  - eapply desc_step; [|constructor]. vm_compute. right. left.
  - exact Hle.
Defined.

(** * The table of offsets and the trunk, in doubles and where they are exact *)




(** On whole measures within the range the doubles of the source and the
    rationals of the model give the same table: the chain a/b/c under
    [measure8]. *)
Example doubles_agree_on_whole_measures :
  ∃ lo r,
    calcLevelOffsetF measure8F (setSeqs (buildTree chain3))
      (Map_values (filesMap (buildTree chain3))) = Some lo
    ∧ createFileDatas measure8 chain3 = Some r
    ∧ Forall2 (λ f q, (valueOf f == q)%Q) lo (levelOffset r).
Proof.
  eexists _, _. split; [vm_compute; reflexivity|].
  split; [vm_compute; reflexivity|].
  repeat constructor; by vm_compute.
Qed.






